(** * Sliding-window inference of [mlpipeline/samplers/inferer.py]

    A shallow embedding of [sliding_window_inference] and of the library
    functions it calls, at the level at which the engine's geometry is
    decided: tensors are their shapes (a [MetaTensor] also carries its
    metadata record), the importance map and the count accumulators also
    carry their values, Python floats are exact rationals, exceptions are an
    error result, and warnings, predictor invocations and the predictor's
    own state are threaded through a small state-and-error monad. *)

From Stdlib Require Import ZArith QArith Qround Qminmax Lia Lqa String.
From stdpp Require Import base option list gmap strings sorting.

Open Scope Z_scope.

(** ** Python values *)

Inductive PyError :=
| ValueError | TypeError | IndexError | KeyError | NameError | AttributeError
| AssertionError | RuntimeError | ZeroDivisionError | NotImplementedError
| PredictorError.

Inductive Res (A : Type) :=
| Ok (a : A)
| Raise (e : PyError).
Arguments Ok {A} a.
Arguments Raise {A} e.

Definition rbind {A B} (x : Res A) (f : A -> Res B) : Res B :=
  match x with Ok a => f a | Raise e => Raise e end.

Notation "'do' x <- c1 ; c2" := (rbind c1 (fun x => c2))
  (at level 10, x pattern, c1 at level 100, c2 at level 200).

(** [t[i]] on a tuple or list. *)
Definition py_index {A} (l : list A) (i : nat) : Res A :=
  match l !! i with Some a => Ok a | None => Raise IndexError end.

(** [range(n)] for an integer [n]. *)
Definition zrange (n : Z) : list Z := Z.of_nat <$> seq 0 (Z.to_nat n).

(** [range(start, stop, step)]; a zero step is a [ValueError]. *)
Definition py_range (start stop step : Z) : Res (list Z) :=
  if step =? 0 then Raise ValueError
  else if step <? 0 then
    Ok ((fun i => start + i * step) <$> zrange ((start - stop + (- step) - 1) / (- step)))
  else Ok ((fun i => start + i * step) <$> zrange ((stop - start + step - 1) / step)).

(** [int(x)] of a float: truncation toward zero. *)
Definition py_int (q : Q) : Z := Z.quot (Qnum q) (Zpos (Qden q)).

(** [x.is_integer()]. *)
Definition is_integer (q : Q) : bool := Z.rem (Qnum q) (Zpos (Qden q)) =? 0.

(** [round(x)] of a float: to the nearest integer, ties to the even one. *)
Definition py_round (q : Q) : Z :=
  let d := Zpos (Qden q) in
  let f := Qnum q / d in
  let r2 := 2 * (Qnum q mod d) in
  if r2 <? d then f
  else if d <? r2 then f + 1
  else if Z.even f then f else f + 1.


(** [a / float(b)]. *)
Definition py_div (a b : Z) : Res Q :=
  if b =? 0 then Raise ZeroDivisionError else Ok (inject_Z a / inject_Z b)%Q.

(** [slice(start, stop)] and [slice(None)]. *)
Inductive Slice :=
| SlAll
| Sl (start stop : Z).

(** Length of [range(n)[sl]]: negative bounds count from the end and both
    bounds are clamped to the dimension. *)
Definition slice_bound (n i : Z) : Z :=
  if i <? 0 then Z.max (i + n) 0 else Z.min i n.

Definition slice_len (n : Z) (sl : Slice) : Z :=
  match sl with
  | SlAll => n
  | Sl a b => Z.max (slice_bound n b - slice_bound n a) 0
  end.

(** ** Tensors *)

(** The auxiliary record of a [MetaTensor]. *)
Record Meta := { affine : list (list Z) }.

Record Tensor := { shape : list Z; meta : option Meta }.

Definition plain (s : list Z) : Tensor := {| shape := s; meta := None |}.

(** A dense array of weights: the importance map and the count buffers. *)
Record WeightMap := { wshape : list Z; wval : list Z -> Q }.

(** [t[idx]] with a list of slices: [IndexError] on too many indices. *)
Definition getitem_shape (s : list Z) (idx : list Slice) : Res (list Z) :=
  if (length s <? length idx)%nat then Raise IndexError
  else Ok (zip_with slice_len s idx ++ drop (length idx) s).

(** All index tuples of an array of the given shape, in row-major order. *)
Fixpoint cart (ls : list (list Z)) : list (list Z) :=
  match ls with
  | [] => [[]]
  | l :: rest => flat_map (fun x => cons x <$> cart rest) l
  end.

Definition indices (s : list Z) : list (list Z) := cart (zrange <$> s).

(** ** Library functions called by the engine

    The functions of MONAI and PyTorch that the module imports (lines 5-13)
    and the engine calls.  The libraries are not part of the repository: the
    definitions follow the libraries' own code, as far as the shapes (and,
    for the importance map, the values) the engine looks at. *)

Module Monai.

Inductive BlendMode := CONSTANT | GAUSSIAN.

(** [ensure_tuple_rep(tup, dim)]. *)
Inductive SizeArg :=
| SInt (n : Z)
| SSeq (l : list Z).

Definition ensure_tuple_rep (tup : SizeArg) (dim : nat) : Res (list Z) :=
  match tup with
  | SInt n => Ok (replicate dim n)
  | SSeq l => if (length l =? dim)%nat then Ok l else Raise ValueError
  end.

(** [fall_back_tuple(user_provided, default)]: a component that is zero or
    negative falls back to the default. *)
Definition fall_back_tuple (user_provided : SizeArg) (default : list Z) : Res (list Z) :=
  do user <- ensure_tuple_rep user_provided (length default);
  Ok (zip_with (fun default_c user_c => if 0 <? user_c then user_c else default_c)
               default user).

(** [ensure_tuple_size(vals, dim)] with the default [pad_val=0]. *)
Definition ensure_tuple_size (vals : list Z) (dim : nat) : list Z :=
  take dim (vals ++ replicate dim 0).

(** [get_valid_patch_size(image_size, patch_size)]:
    [min(ms, ps or ms)] on every axis. *)
Definition get_valid_patch_size (image_size patch_size : list Z) : list Z :=
  zip_with (fun ms ps => Z.min ms (if ps =? 0 then ms else ps))
           image_size (ensure_tuple_size patch_size (length image_size)).

(** One axis of [_get_scan_interval]. *)
Definition scan_interval_axis (image_size_i roi_size_i : Z) (overlap : Q) : Z :=
  if roi_size_i =? image_size_i then roi_size_i
  else
    let interval := py_int (inject_Z roi_size_i * (1 - overlap))%Q in
    if 0 <? interval then interval else 1.

(** [_get_scan_interval(image_size, roi_size, num_spatial_dims, overlap)]. *)
Definition _get_scan_interval (image_size roi_size : list Z)
    (num_spatial_dims : nat) (overlap : Q) : Res (list Z) :=
  if negb (length image_size =? num_spatial_dims)%nat then Raise ValueError
  else if negb (length roi_size =? num_spatial_dims)%nat then Raise ValueError
  else Ok (zip_with (fun i r => scan_interval_axis i r overlap) image_size roi_size).

(** [first(iterable)]: the first item, or [None]. *)
Definition first {A} (l : list A) : option A := head l.

(** [int(math.ceil(float(a) / b))] for a positive [b]. *)
Definition ceil_div (a b : Z) : Z := (a + b - 1) / b.

(** The number of placements on one axis in [dense_patch_slices]. *)
Definition scan_num_axis (image_size_i patch_size_i scan_interval_i : Z) : Z :=
  if scan_interval_i =? 0 then 1
  else
    let num := ceil_div image_size_i scan_interval_i in
    match first (filter (fun d => image_size_i <= d * scan_interval_i + patch_size_i)
                        (zrange num)) with
    | Some scan_dim => scan_dim + 1
    | None => 1
    end.

(** The start of the placement number [idx] on one axis: the last ones are
    pulled back so that they end on the boundary. *)
Definition start_idx (image_size_i patch_size_i scan_interval_i idx : Z) : Z :=
  let start_idx := idx * scan_interval_i in
  start_idx - Z.max (start_idx + patch_size_i - image_size_i) 0.

Definition dim_starts (image_size_i patch_size_i scan_interval_i : Z) : list Z :=
  start_idx image_size_i patch_size_i scan_interval_i
    <$> zrange (scan_num_axis image_size_i patch_size_i scan_interval_i).

(** [dense_patch_slices(image_size, patch_size, scan_interval)]: every
    combination of the per-axis starts, the first axis varying slowest;
    each placement is the tuple of its per-axis [(start, stop)]. *)
Definition dense_patch_slices (image_size patch_size scan_interval : list Z)
    : list (list (Z * Z)) :=
  let num_spatial_dims := length image_size in
  let patch_size := get_valid_patch_size image_size patch_size in
  let scan_interval := ensure_tuple_size scan_interval num_spatial_dims in
  let starts :=
    zip_with (fun '(i, p) s => dim_starts i p s) (zip image_size patch_size) scan_interval in
  match starts with
  | [] => []
  | _ => (fun x => zip_with (fun s p => (s, s + p)) x patch_size) <$> cart starts
  end.

End Monai.

Module Torch.

Inductive PadMode := PAD_CONSTANT | PAD_REFLECT | PAD_REPLICATE | PAD_CIRCULAR.

(** The pairs [(left, right)] of a flat [pad] argument; an odd length is
    refused. *)
Fixpoint pad_pairs (pad : list Z) : Res (list (Z * Z)) :=
  match pad with
  | [] => Ok []
  | [_] => Raise RuntimeError
  | a :: b :: rest => do ps <- pad_pairs rest; Ok ((a, b) :: ps)
  end.

(** What a mode accepts: [reflect] pads by less than the dimension,
    [circular] by at most the dimension. *)
Definition pad_allowed (mode : PadMode) (d : Z) (p : Z * Z) : bool :=
  match mode with
  | PAD_CONSTANT | PAD_REPLICATE => true
  | PAD_REFLECT => (p.1 <? d) && (p.2 <? d)
  | PAD_CIRCULAR => (p.1 <=? d) && (p.2 <=? d)
  end.

(** [functional.pad(t, pad, mode)]: the first pair pads the last axis. *)
Definition pad (s : list Z) (pad : list Z) (mode : PadMode) : Res (list Z) :=
  do ps <- pad_pairs pad;
  let k := length ps in
  if (length s <? k)%nat then Raise RuntimeError
  else
    let keep := take (length s - k) s in
    let padded := reverse (drop (length s - k) s) in
    if forallb (fun '(d, p) => pad_allowed mode d p) (zip padded ps)
    then Ok (keep ++ reverse (zip_with (fun d p => d + p.1 + p.2) padded ps))
    else Raise RuntimeError.

(** [functional.interpolate(t, size, mode="bicubic")]: the size has one
    entry per spatial axis, and bicubic takes 4-D input only. *)
Definition interpolate_bicubic (s : list Z) (size : list Z) : Res (list Z) :=
  if negb (Z.of_nat (length size) =? Z.of_nat (length s) - 2) then Raise ValueError
  else if negb (length s =? 4)%nat then Raise NotImplementedError
  else if forallb (Z.ltb 0) (drop 2 s) && forallb (Z.ltb 0) size
       then Ok (take 2 s ++ size)
       else Raise RuntimeError.

(** [torch.cat(ts)] along the first axis. *)
Definition cat (ts : list (list Z)) : Res (list Z) :=
  match ts with
  | [] => Raise RuntimeError
  | [] :: _ => Raise RuntimeError
  | (n :: rest) :: more =>
      if forallb (fun s => bool_decide (tail s = rest) && negb (bool_decide (s = []))) more
      then Ok (foldr Z.add 0 (default 0 ∘ head <$> ts) :: rest)
      else Raise RuntimeError
  end.

(** [src.expand(tgt)], and the right-hand side of an in-place [+=]: the
    axes are aligned from the right and a source axis is the target's or 1. *)
Definition expandable (src tgt : list Z) : bool :=
  (length src <=? length tgt)%nat
  && forallb (fun '(a, b) => (a =? b) || (a =? 1)) (zip (reverse src) (reverse tgt)).

(** The shape of [a * b]. *)
Fixpoint broadcast_rev (a b : list Z) : Res (list Z) :=
  match a, b with
  | [], _ => Ok b
  | _, [] => Ok a
  | x :: a', y :: b' =>
      do r <- broadcast_rev a' b';
      if x =? y then Ok (x :: r)
      else if x =? 1 then Ok (y :: r)
      else if y =? 1 then Ok (x :: r)
      else Raise RuntimeError
  end.

Definition broadcast (a b : list Z) : Res (list Z) :=
  do r <- broadcast_rev (reverse a) (reverse b); Ok (reverse r).

(** Source index of nearest-neighbour resampling on one axis. *)
Definition nearest_src (in_size out_size dst : Z) : Z :=
  Z.min (dst * in_size / out_size) (in_size - 1).

End Torch.

Module MonaiResize.

(** [Resize(spatial_size, mode="nearest", anti_aliasing=False)] applied to
    [w.unsqueeze(0)] and indexed by [[0]]: too few target axes are a
    [ValueError], missing source axes are appended with size 1, an
    unchanged size returns the input, and nearest resampling takes one
    to three spatial axes. *)
Definition resize_nearest (w : WeightMap) (spatial_size : list Z) : Res WeightMap :=
  let input_ndim := length (wshape w) in
  let output_ndim := length spatial_size in
  if (output_ndim <? input_ndim)%nat then Raise ValueError
  else
    let in_shape := wshape w ++ replicate (output_ndim - input_ndim) 1 in
    let spatial_size_ :=
      zip_with (fun d u => if 0 <? u then u else d) in_shape spatial_size in
    if bool_decide (in_shape = spatial_size_) then
      Ok {| wshape := in_shape; wval := fun x => wval w (take input_ndim x) |}
    else if negb ((1 <=? output_ndim)%nat && (output_ndim <=? 3)%nat)
    then Raise NotImplementedError
    else if negb (forallb (Z.ltb 0) in_shape) then Raise RuntimeError
    else
      Ok {| wshape := spatial_size_;
            wval := fun x =>
              wval w (take input_ndim
                (zip_with (fun '(i, o) d => Torch.nearest_src i o d)
                          (zip in_shape spatial_size_) x)) |}.

End MonaiResize.

(** ** The engine *)

(** What a predictor returns: one tensor, a named mapping, or a sequence. *)
Inductive PredOut :=
| PTensor (t : list Z)
| PMapping (m : gmap string (list Z))
| PSeq (l : list (list Z)).

(** What the engine returns. *)
Inductive Output :=
| OutTensor (t : Tensor)
| OutTuple (l : list Tensor)
| OutDict (m : gmap string Tensor).

Inductive Warning :=
| WNonIntegerShape (axis ss : nat) (scale : Q)
| WRoiRangeNotInt (axis ss : nat) (start stop : Z) (scale : Q).

(** [sorted(d.keys())]. *)
#[local] Instance string_leb_dec : RelDecision (fun a b : string => String.leb a b = true).
Proof. intros a b. apply bool_eq_dec. Defined.

Definition sorted_keys {V} (m : gmap string V) : list string :=
  merge_sort (fun a b : string => String.leb a b = true) (map_to_list m).*1.

Section Engine.

(** The predictor is a black box with a state of its own: one call takes
    the batch of windows and answers with an output or an exception. *)
Context {PS : Type}.
Variable predictor : PS -> list Z -> Res PredOut * PS.

(** The Gaussian window of [compute_importance_map], which may also fail. *)
Variable gaussian_map : list Z -> Q -> Res (list Z -> Q).

(** *** Effects *)

Record World := {
  warnings : list Warning;
  calls : list (list Z);
  pstate : PS }.

Definition M (A : Type) : Type := World -> Res A * World.

Definition ret {A} (a : A) : M A := fun w => (Ok a, w).
Definition bind {A B} (m : M A) (f : A -> M B) : M B :=
  fun w => match m w with
           | (Ok a, w') => f a w'
           | (Raise e, w') => (Raise e, w')
           end.
Definition lift {A} (r : Res A) : M A := fun w => (r, w).
Definition raise {A} (e : PyError) : M A := lift (Raise e).

Definition warn (x : Warning) : M unit := fun w =>
  (Ok tt, {| warnings := warnings w ++ [x]; calls := calls w; pstate := pstate w |}).

Definition call_predictor (window_data : list Z) : M PredOut := fun w =>
  let '(r, s) := predictor (pstate w) window_data in
  (r, {| warnings := warnings w; calls := calls w ++ [window_data]; pstate := s |}).

Notation "x <- c1 ;; c2" := (bind c1 (fun x => c2))
  (at level 100, c1 at next level, right associativity).

(** A [for] loop that threads one value through its body. *)
Fixpoint for_each {A S} (l : list A) (body : A -> S -> M S) (s : S) : M S :=
  match l with
  | [] => ret s
  | a :: rest => s' <- body a s ;; for_each rest body s'
  end.

(** *** Planning (lines 40-91) *)

(** [pad_size]: one pair per spatial axis, the last axis first. *)
Definition pad_pair (roi_size_k shape_k : Z) : list Z :=
  let diff := Z.max (roi_size_k - shape_k) 0 in
  let half := diff / 2 in
  [half; diff - half].

Definition compute_pad_size (roi_size image_size_ : list Z) : list Z :=
  flat_map (fun '(r, s) => pad_pair r s) (reverse (zip roi_size image_size_)).

(** [compute_importance_map(patch_size, mode, sigma_scale)] inside its
    [try]: any failure becomes the [RuntimeError] of line 83. *)
Definition compute_importance_map (patch_size : list Z) (mode : Monai.BlendMode)
    (sigma_scale : Q) : Res WeightMap :=
  match mode with
  | Monai.CONSTANT => Ok {| wshape := patch_size; wval := fun _ => 1%Q |}
  | Monai.GAUSSIAN =>
      match gaussian_map patch_size sigma_scale with
      | Ok f => Ok {| wshape := patch_size; wval := f |}
      | Raise _ => Raise RuntimeError
      end
  end.

(** [m[m != 0].min()]: the least non-zero entry; none is a [RuntimeError]. *)
Definition min_nonzero_entry (m : WeightMap) : Res Q :=
  match filter (fun q => negb (Qeq_bool q 0)) (wval m <$> indices (wshape m)) with
  | [] => Raise RuntimeError
  | q :: qs => Ok (foldr Qmin q qs)
  end.

(** Lines 89-91: the floor of the importance map. *)
Definition clamp_importance (m : WeightMap) : Res WeightMap :=
  do least <- min_nonzero_entry m;
  let min_non_zero := Qmax least (1 # 1000) in
  Ok {| wshape := wshape m; wval := fun x => Qmax (wval m x) min_non_zero |}.

Record Plan := {
  batch_size : Z;
  channels : Z;
  image_size_ : list Z;
  num_spatial_dims : nat;
  roi_size : list Z;
  image_size : list Z;
  pad_size : list Z;
  padded : Tensor;
  slices : list (list (Z * Z));
  num_win : Z;
  total_slices : Z;
  importance_map : WeightMap }.

Definition plan (inputs : Tensor) (roi_size : Monai.SizeArg) (overlap : Q)
    (mode : Monai.BlendMode) (sigma_scale : Q) (padding_mode : Torch.PadMode)
    (roi_weight_map : option WeightMap) : Res Plan :=
  let num_spatial_dims := (length (shape inputs) - 2)%nat in
  if Qlt_le_dec overlap 0 then Raise ValueError
  else if Qlt_le_dec overlap 1 then
    match shape inputs with
    | batch_size :: channels :: image_size_ =>
        do roi_size <- Monai.fall_back_tuple roi_size image_size_;
        let image_size := zip_with Z.max image_size_ roi_size in
        let pad_size := compute_pad_size roi_size image_size_ in
        do padded_shape <- Torch.pad (shape inputs) pad_size padding_mode;
        do scan_interval <-
          Monai._get_scan_interval image_size roi_size num_spatial_dims overlap;
        let slices := Monai.dense_patch_slices image_size roi_size scan_interval in
        let num_win := Z.of_nat (length slices) in
        let total_slices := num_win * batch_size in
        let valid_patch_size := Monai.get_valid_patch_size image_size roi_size in
        do importance_map <-
          match bool_decide (valid_patch_size = roi_size), roi_weight_map with
          | true, Some given => Ok given
          | _, _ => compute_importance_map valid_patch_size mode sigma_scale
          end;
        do importance_map <- clamp_importance importance_map;
        Ok {| batch_size := batch_size; channels := channels;
              image_size_ := image_size_; num_spatial_dims := num_spatial_dims;
              roi_size := roi_size; image_size := image_size;
              pad_size := pad_size;
              padded := {| shape := padded_shape; meta := meta inputs |};
              slices := slices; num_win := num_win; total_slices := total_slices;
              importance_map := importance_map |}
    | _ => Raise ValueError
    end
  else Raise ValueError.

(** *** The batch executor (lines 100-153) *)

Fixpoint res_map {A B} (f : A -> Res B) (l : list A) : Res (list B) :=
  match l with
  | [] => Ok []
  | a :: rest => do b <- f a; do bs <- res_map f rest; Ok (b :: bs)
  end.

(** Line 104: the batch element and the placement of work unit [idx]. *)
Definition unravel (p : Plan) (idx : Z) : Res (Z * list (Z * Z)) :=
  if num_win p =? 0 then Raise ZeroDivisionError
  else
    do win <- py_index (slices p) (Z.to_nat (idx mod num_win p));
    Ok (idx / num_win p, win).

Definition full_index (u : Z * list (Z * Z)) : list Slice :=
  [Sl u.1 (u.1 + 1); SlAll] ++ ((fun se => Sl se.1 se.2) <$> u.2).

(** Lines 103-111. *)
Definition extract (p : Plan) (slice_range : list Z)
    : Res (list (Z * list (Z * Z)) * list Z) :=
  do unravel_slice <- res_map (unravel p) slice_range;
  do pieces <-
    res_map (fun u => getitem_shape (shape (padded p)) (full_index u)) unravel_slice;
  do window_data <- Torch.cat pieces;
  Ok (unravel_slice, window_data).

(** Lines 114-122. *)
Definition check_and_resize (p : Plan) (input_size : Monai.SizeArg)
    (window_data : list Z) : Res (list Z) :=
  do w2 <- py_index window_data 2;
  do r1 <- py_index (roi_size p) 1;
  if negb (w2 =? r1) then Raise AssertionError
  else
    do w3 <- py_index window_data 3;
    do r0 <- py_index (roi_size p) 0;
    if negb (w3 =? r0) then Raise AssertionError
    else
      match input_size with
      | Monai.SInt _ => Raise TypeError
      | Monai.SSeq input_size =>
          do i1 <- py_index input_size 1;
          do i0 <- py_index input_size 0;
          if negb (w2 =? i1) || negb (w3 =? i0)
          then Torch.interpolate_bicubic window_data input_size
          else Ok window_data
      end.

(** Lines 127-139: [functional.interpolate] is applied to whatever the
    predictor returned; it needs a tensor. *)
Definition resize_back (p : Plan) (input_size : Monai.SizeArg)
    (seg_prob_out : PredOut) (window_data : list Z) : Res (PredOut * list Z) :=
  match input_size with
  | Monai.SInt _ => Raise TypeError
  | Monai.SSeq input_size =>
      do r0 <- py_index (roi_size p) 0;
      do i0 <- py_index input_size 0;
      do r1 <- py_index (roi_size p) 1;
      do i1 <- py_index input_size 1;
      if negb (r0 =? i0) || negb (r1 =? i1) then
        match seg_prob_out with
        | PTensor t =>
            do t' <- Torch.interpolate_bicubic t (roi_size p);
            do window_data' <- Torch.interpolate_bicubic window_data (roi_size p);
            Ok (PTensor t', window_data')
        | _ => Raise AttributeError
        end
      else Ok (seg_prob_out, window_data)
  end.

Record Acc := {
  dict_key : option (list string);
  output_image_list : list (list Z);
  count_map_list : list WeightMap;
  _initialized_ss : Z;
  is_tensor_output : bool }.

Definition acc0 : Acc :=
  {| dict_key := None; output_image_list := []; count_map_list := [];
     _initialized_ss := -1; is_tensor_output := true |}.

(** Lines 143-153. *)
Definition to_tuple (seg_prob_out : PredOut) (acc : Acc) : Res (list (list Z) * Acc) :=
  match seg_prob_out with
  | PTensor t => Ok ([t], acc)
  | PMapping m =>
      let keys := match dict_key acc with
                  | None => sorted_keys m
                  | Some keys => keys
                  end in
      do seg_prob_tuple <-
        res_map (fun k => match m !! k with
                          | Some t => Ok t
                          | None => Raise KeyError
                          end) keys;
      Ok (seg_prob_tuple,
          {| dict_key := Some keys; output_image_list := output_image_list acc;
             count_map_list := count_map_list acc;
             _initialized_ss := _initialized_ss acc; is_tensor_output := false |})
  | PSeq l =>
      Ok (l,
          {| dict_key := dict_key acc; output_image_list := output_image_list acc;
             count_map_list := count_map_list acc;
             _initialized_ss := _initialized_ss acc; is_tensor_output := false |})
  end.

(** *** The accumulator (lines 156-217) *)

(** Lines 160-170. *)
Fixpoint zoom_scales (ss axis : nat) (l : list (Z * Z * Z)) : M (list Q) :=
  match l with
  | [] => ret []
  | (img_s_i, out_w_i, in_w_i) :: rest =>
      _scale <- lift (py_div out_w_i in_w_i) ;;
      _ <- (if is_integer (inject_Z img_s_i * _scale) then ret tt
            else warn (WNonIntegerShape axis ss _scale)) ;;
      zoom_scale <- zoom_scales ss (S axis) rest ;;
      ret (_scale :: zoom_scale)
  end.

(** Lines 194-208: the placement in accumulator coordinates. *)
Definition zoom_bound (x : Z) (zoom : Q) : Z := py_int (inject_Z x * zoom).

Fixpoint zoom_roi (ss axis : nat) (win : list (Z * Z)) (zoom_scale : list Q)
    : M (list (Z * Z)) :=
  match win with
  | [] => ret []
  | (start, stop) :: rest =>
      z <- lift (py_index zoom_scale (axis - 2)) ;;
      let zoomed_start := (inject_Z start * z)%Q in
      let zoomed_end := (inject_Z stop * z)%Q in
      _ <- (if negb (is_integer zoomed_start) || negb (is_integer zoomed_end)
            then warn (WRoiRangeNotInt (axis - 2) ss start stop z)
            else ret tt) ;;
      zoomed <- zoom_roi ss (S axis) rest zoom_scale ;;
      ret ((py_int zoomed_start, py_int zoomed_end) :: zoomed)
  end.

Definition slice_lo (n : Z) (sl : Slice) : Z :=
  match sl with SlAll => 0 | Sl a _ => slice_bound n a end.

Definition slice_hi (n : Z) (sl : Slice) : Z :=
  match sl with SlAll => n | Sl _ b => slice_bound n b end.

(** Whether the entry at [x] lies in [t[idx]]. *)
Definition in_slices (s : list Z) (idx : list Slice) (x : list Z) : bool :=
  forallb (fun '(n, sl, xi) => (slice_lo n sl <=? xi) && (xi <? slice_hi n sl))
          (zip (zip s idx) x).

(** Line 212: only the shapes of the weighted prediction matter here. *)
Definition add_output (out_shape : list Z) (idx_zoom : list Slice)
    (imp : WeightMap) (seg_prob : list Z) (k : Z) : Res unit :=
  do target <- getitem_shape out_shape idx_zoom;
  do item <- match seg_prob with
             | [] => Raise IndexError
             | n :: rest => if (0 <=? k) && (k <? n) then Ok rest else Raise IndexError
             end;
  do rhs <- Torch.broadcast (wshape imp) item;
  if Torch.expandable rhs target then Ok tt else Raise RuntimeError.

(** Line 214: the resized importance map is added to the count buffer on
    the placement's region. *)
Definition add_weights (count : WeightMap) (idx_zoom : list Slice) (imp : WeightMap)
    : Res WeightMap :=
  do target <- getitem_shape (wshape count) idx_zoom;
  if Torch.expandable ([1; 1] ++ wshape imp) target then
    Ok {| wshape := wshape count;
          wval := fun x =>
            if in_slices (wshape count) idx_zoom x then
              Qplus (wval count x)
                (wval imp (zip_with (fun '(n, sl, xi) d =>
                                       if d =? 1 then 0 else xi - slice_lo n sl)
                                    (drop 2 (zip (zip (wshape count) idx_zoom) x))
                                    (wshape imp)))
            else wval count x |}
  else Raise RuntimeError.

Definition set_count (acc : Acc) (ss : nat) (c : WeightMap) : Acc :=
  {| dict_key := dict_key acc; output_image_list := output_image_list acc;
     count_map_list := <[ss := c]> (count_map_list acc);
     _initialized_ss := _initialized_ss acc;
     is_tensor_output := is_tensor_output acc |}.

(** Lines 172-183. *)
Definition init_buffers (p : Plan) (ss : nat) (seg_prob : list Z) (zoom_scale : list Q)
    (acc : Acc) : Res Acc :=
  if _initialized_ss acc <? Z.of_nat ss then
    do output_classes <- py_index seg_prob 1;
    let output_shape :=
      [batch_size p; output_classes]
      ++ zip_with (fun image_size_d zoom_scale_d =>
                     py_int (inject_Z image_size_d * zoom_scale_d))
                  (image_size p) zoom_scale in
    Ok {| dict_key := dict_key acc;
          output_image_list := output_image_list acc ++ [output_shape];
          count_map_list :=
            count_map_list acc
            ++ [{| wshape := [1; 1] ++ drop 2 output_shape; wval := fun _ => 0%Q |}];
          _initialized_ss := _initialized_ss acc + 1;
          is_tensor_output := is_tensor_output acc |}
  else Ok acc.

(** Lines 190-217, one placement. *)
Definition accumulate_window (p : Plan) (slice_g : Z) (ss : nat) (seg_prob : list Z)
    (zoom_scale : list Q) (unit_ : Z * (Z * list (Z * Z))) (acc : Acc) : M Acc :=
  let '(idx, original_idx) := unit_ in
  zoomed <- zoom_roi ss 2 original_idx.2 zoom_scale ;;
  let original_idx_zoom := full_index (original_idx.1, zoomed) in
  importance_map_zoom <-
    lift (MonaiResize.resize_nearest (importance_map p) (drop 2 seg_prob)) ;;
  out <- lift (py_index (output_image_list acc) ss) ;;
  _ <- lift (add_output out original_idx_zoom importance_map_zoom seg_prob (idx - slice_g)) ;;
  count <- lift (py_index (count_map_list acc) ss) ;;
  count' <- lift (add_weights count original_idx_zoom importance_map_zoom) ;;
  ret (set_count acc ss count').

(** Lines 156-217, one output head. *)
Definition process_head (p : Plan) (slice_g : Z) (slice_range : list Z)
    (unravel_slice : list (Z * list (Z * Z))) (window_data : list Z)
    (head : nat * list Z) (acc : Acc) : M Acc :=
  let '(ss, seg_prob) := head in
  zoom_scale <-
    zoom_scales ss 0 (zip (zip (image_size p) (drop 2 seg_prob)) (drop 2 window_data)) ;;
  acc <- lift (init_buffers p ss seg_prob zoom_scale acc) ;;
  for_each (zip slice_range unravel_slice)
           (accumulate_window p slice_g ss seg_prob zoom_scale) acc.

(** One pass of the loop of line 100. *)
Definition batch_step (p : Plan) (input_size : Monai.SizeArg) (sw_batch_size : Z)
    (slice_g : Z) (acc : Acc) : M Acc :=
  slice_range <-
    lift (py_range slice_g (Z.min (slice_g + sw_batch_size) (total_slices p)) 1) ;;
  extracted <- lift (extract p slice_range) ;;
  let unravel_slice := extracted.1 in
  window_data <- lift (check_and_resize p input_size extracted.2) ;;
  seg_prob_out <- call_predictor window_data ;;
  resized <- lift (resize_back p input_size seg_prob_out window_data) ;;
  let window_data := resized.2 in
  heads <- lift (to_tuple resized.1 acc) ;;
  for_each (imap pair heads.1)
           (process_head p slice_g slice_range unravel_slice window_data) heads.2.

(** The loop of line 100; [tqdm] is the module, which cannot be called. *)
Definition run_batches (p : Plan) (input_size : Monai.SizeArg) (sw_batch_size : Z)
    (progress : bool) : M Acc :=
  groups <- lift (py_range 0 (total_slices p) sw_batch_size) ;;
  if progress then raise TypeError
  else for_each groups (batch_step p input_size sw_batch_size) acc0.

(** *** The finalizer (lines 219-258) *)

(** Lines 234-244: the slices that strip the padding, built from the last
    axis to the first. *)
Fixpoint final_slicing (pad_size image_size_ : list Z) (num_spatial_dims : nat)
    (zoom_scale : list Q) (sps : list nat) (done : list Slice) : Res (list Slice) :=
  match sps with
  | [] => Ok done
  | sp :: rest =>
      do pad_start <- py_index pad_size (sp * 2);
      do extent <- py_index image_size_ (num_spatial_dims - sp - 1);
      do z <- py_index zoom_scale (num_spatial_dims - sp - 1);
      let slice_dim :=
        Sl (py_round (inject_Z pad_start * z))
           (py_round (inject_Z (extent + pad_start) * z)) in
      final_slicing pad_size image_size_ num_spatial_dims zoom_scale rest
                    (slice_dim :: done)
  end.

(** Lines 230-247 for one head.  The quotient of line 222 does not change
    a shape. *)
Definition finalize_head (p : Plan) (output_i : list Z) : Res (list Z) :=
  do zoom_scale <-
    res_map (fun '(seg_prob_map_shape_d, roi_size_d) =>
               py_div seg_prob_map_shape_d roi_size_d)
            (zip (drop 2 output_i) (roi_size p));
  do slicing <-
    final_slicing (pad_size p) (image_size_ p) (num_spatial_dims p) zoom_scale
                  (seq 0 (num_spatial_dims p)) [];
  getitem_shape output_i
    (replicate (length output_i - length slicing) SlAll ++ slicing).

(** Lines 249-258.  The keys of [dict_key] are distinct, and
    [convert_to_dst_type] is a name the module never binds. *)
Definition finalize (p : Plan) (acc : Acc) : Res Output :=
  do outs <- res_map (finalize_head p) (output_image_list acc);
  let heads := plain <$> outs in
  do final_output <-
    match dict_key acc with
    | Some keys =>
        if is_tensor_output acc then Raise KeyError
        else Ok (OutDict (list_to_map (zip keys heads)))
    | None =>
        if is_tensor_output acc
        then do t <- py_index heads 0; Ok (OutTensor t)
        else Ok (OutTuple heads)
    end;
  match meta (padded p) with
  | Some _ => Raise NameError
  | None => Ok final_output
  end.

Definition sliding_window_inference (inputs : Tensor) (roi_size input_size : Monai.SizeArg)
    (sw_batch_size : Z) (overlap : Q) (mode : Monai.BlendMode) (sigma_scale : Q)
    (padding_mode : Torch.PadMode) (progress : bool)
    (roi_weight_map : option WeightMap) : M Output :=
  p <- lift (plan inputs roi_size overlap mode sigma_scale padding_mode roi_weight_map) ;;
  acc <- run_batches p input_size sw_batch_size progress ;;
  lift (finalize p acc).

Definition initial_world (s : PS) : World :=
  {| warnings := []; calls := []; pstate := s |}.

End Engine.

Arguments World : clear implicits.
Arguments M : clear implicits.

(** ** Predictors of the examples *)

Module Examples.

(** A stateless network whose output has the shape of its input. *)
Definition same_shape (s : unit) (t : list Z) : Res PredOut * unit :=
  (Ok (PTensor t), s).

(** A network with one named head. *)
Definition one_named_head (s : unit) (t : list Z) : Res PredOut * unit :=
  (Ok (PMapping {[ "pred"%string := t ]}), s).

(** A network with two unnamed heads. *)
Definition two_heads (s : unit) (t : list Z) : Res PredOut * unit :=
  (Ok (PSeq [t; t]), s).


(** Two named heads on the first call, only one of them afterwards. *)
Definition fewer_keys_later (s : nat) (t : list Z) : Res PredOut * nat :=
  (Ok (PMapping (match s with
                 | O => {[ "a"%string := t; "b"%string := t ]}
                 | _ => {[ "a"%string := t ]}
                 end)), S s).




(** A Gaussian builder that always runs out of memory. *)
Definition no_gaussian (patch_size : list Z) (sigma_scale : Q) : Res (list Z -> Q) :=
  Raise RuntimeError.

Definition ones (s : list Z) : WeightMap := {| wshape := s; wval := fun _ => 1%Q |}.

End Examples.

(** ** Vocabulary of the statements *)

(** The placement of one window in accumulator coordinates, and the
    warnings its remapping emits, axis by axis. *)
Definition zoomed_roi (win : list (Z * Z)) (zoom_scale : list Q) : list (Z * Z) :=
  zip_with (fun se z => (zoom_bound se.1 z, zoom_bound se.2 z)) win zoom_scale.

Fixpoint roi_warnings (ss axis : nat) (win : list (Z * Z)) (zoom_scale : list Q)
    : list Warning :=
  match win, zoom_scale with
  | (start, stop) :: win', z :: zoom_scale' =>
      (if is_integer (inject_Z start * z) && is_integer (inject_Z stop * z) then []
       else [WRoiRangeNotInt axis ss start stop z])
      ++ roi_warnings ss (S axis) win' zoom_scale'
  | _, _ => []
  end.


(** The starts of the placements, axis by axis. *)
Definition axis_starts (image roi : list Z) (overlap : Q) : list (list Z) :=
  zip_with (fun i r => Monai.dim_starts i r (Monai.scan_interval_axis i r overlap))
           image roi.

(** A placement of the window inside the padded image. *)
Definition valid_window (image roi : list Z) (win : list (Z * Z)) : Prop :=
  Forall2 (fun (se ir : Z * Z) => 0 <= se.1 /\ se.2 = se.1 + ir.2 /\ se.2 <= ir.1)
          win (zip image roi).

(** The heads of a predictor that answers every batch in the same way: per
    head, the number of channels and the spatial size. *)
Definition expected_heads (nb : Z) (hs : list (Z * list Z)) : list (list Z) :=
  (fun h => nb :: h.1 :: h.2) <$> hs.

(** The tensors an answer holds, a mapping being read under the keys [ks]. *)
Definition heads_of (ks : list string) (out : PredOut) : option (list (list Z)) :=
  match out with
  | PTensor t => Some [t]
  | PSeq l => Some l
  | PMapping m => if decide (sorted_keys m = ks) then mapM (fun k => m !! k) ks else None
  end.

Definition is_tensor (out : PredOut) : bool :=
  match out with PTensor _ => true | _ => false end.

(** Every batch goes through the executor and hands the accumulator the
    heads [hs]: the batch of [nb] windows is accepted and resampled to the
    network's size, the predictor answers, and the answer resampled back
    holds, for every head, [nb] predictions of that head's channels and
    size.  With [tensor_only] the answers are single tensors. *)
Definition steady {PS} (predictor : PS -> list Z -> Res PredOut * PS) (p : Plan)
    (input_size : Monai.SizeArg) (ks : list string) (hs : list (Z * list Z))
    (tensor_only : bool) : Prop :=
  forall (s : PS) (nb : Z), 0 < nb ->
    exists net_in out s' out',
      check_and_resize p input_size (nb :: channels p :: roi_size p) = Ok net_in
      /\ predictor s net_in = (Ok out, s')
      /\ resize_back p input_size out net_in = Ok (out', nb :: channels p :: roi_size p)
      /\ heads_of ks out' = Some (expected_heads nb hs)
      /\ (tensor_only = true -> is_tensor out' = true).

(** A predictor that answers every batch of windows of the network's size
    with the heads [hs]. *)
Definition answers_with {PS} (predictor : PS -> list Z -> Res PredOut * PS) (C : Z)
    (net_size : list Z) (ks : list string) (hs : list (Z * list Z))
    (tensor_only : bool) : Prop :=
  forall (s : PS) (nb : Z), 0 < nb ->
    exists out s',
      predictor s (nb :: C :: net_size) = (Ok out, s')
      /\ heads_of ks out = Some (expected_heads nb hs)
      /\ (tensor_only = true -> is_tensor out = true).

(** The per-axis zoom scales of a head of size [o], and the size of its
    accumulators. *)
Definition head_zoom (roi o : list Z) : list Q :=
  zip_with (fun o_k r_k => inject_Z o_k / inject_Z r_k)%Q o roi.

Definition buffer_dims (image roi o : list Z) : list Z :=
  zip_with (fun i z => py_int (inject_Z i * z)) image (head_zoom roi o).

(** A head is described by its size [o], positive on every axis, next to
    the window's. *)
Definition head_fits (roi o : list Z) : Prop :=
  Forall2 (fun o_k r_k => 0 < o_k /\ 0 < r_k) o roi.

Definition in_window (y : list Z) (win : list (Z * Z)) : Prop :=
  Forall2 (fun y_k se => se.1 <= y_k < se.2) y win.

(** A count buffer of a head of size [o] after the work units below [upto]:
    it has the head's accumulator size, holds no negative weight, and holds
    at least [least] wherever a placement of the first image lies. *)
Definition count_ok (p : Plan) (least : Q) (o : list Z) (upto : Z) (cnt : WeightMap) : Prop :=
  wshape cnt = 1 :: 1 :: buffer_dims (image_size p) (roi_size p) o
  /\ (forall x, (0 <= wval cnt x)%Q)
  /\ (forall idx win y,
        0 <= idx < upto -> idx < num_win p ->
        slices p !! Z.to_nat idx = Some win ->
        in_window y (zoomed_roi win (head_zoom (roi_size p) o)) ->
        Qle least (wval cnt (0 :: 0 :: y))).

(** The accumulator state with [k] heads allocated, the head [j] having
    seen the work units below [upto j]. *)
Definition acc_ok (p : Plan) (least : Q) (hs : list (Z * list Z)) (k : nat)
    (upto : nat -> Z) (acc : Acc) : Prop :=
  output_image_list acc
    = take k ((fun h => batch_size p :: h.1
                        :: buffer_dims (image_size p) (roi_size p) h.2) <$> hs)
  /\ _initialized_ss acc = Z.of_nat k - 1
  /\ length (count_map_list acc) = k
  /\ (forall j cnt h, count_map_list acc !! j = Some cnt -> hs !! j = Some h ->
        count_ok p least h.2 (upto j) cnt).

(** The head [j] has seen the work units below [v], the others as before. *)
Definition upd (upto : nat -> Z) (j : nat) (v : Z) : nat -> Z :=
  fun j' => if decide (j' = j) then v else upto j'.

(** The flags of the accumulator state: the recorded keys are [ks] if any,
    and after single tensors only the output is still a tensor. *)
Definition flags_ok (ks : list string) (tensor_only : bool) (acc : Acc) : Prop :=
  (dict_key acc = None \/ (dict_key acc = Some ks /\ is_tensor_output acc = false))
  /\ (tensor_only = true -> dict_key acc = None /\ is_tensor_output acc = true).

(** Worlds that differ by warnings only. *)
Definition quiet {PS} (w w' : World PS) : Prop :=
  calls w' = calls w /\ pstate w' = pstate w.

(** The heads of an output. *)
Definition every_head (P : Tensor -> Prop) (out : Output) : Prop :=
  match out with
  | OutTensor t => P t
  | OutTuple l => Forall P l
  | OutDict m => map_Forall (fun _ => P) m
  end.

(** The form of a predictor's answers. *)
Inductive Form := AsTensor | AsSequence | AsMapping.

(** The answer [out] has the form [form] and holds the tensors [heads]; a
    mapping holds them under the keys [ks], which are all its keys. *)
Definition answer_of (form : Form) (ks : list string) (heads : list (list Z))
    (out : PredOut) : Prop :=
  match form with
  | AsTensor => exists t, heads = [t] /\ out = PTensor t
  | AsSequence => out = PSeq heads
  | AsMapping => exists m, out = PMapping m /\ sorted_keys m = ks
                           /\ mapM (fun k => m !! k) ks = Some heads
  end.

(** A predictor that answers every batch of windows of the network's size
    in the form [form], with the heads [hs]. *)
Definition answers_as {PS} (predictor : PS -> list Z -> Res PredOut * PS) (C : Z)
    (net_size : list Z) (form : Form) (ks : list string) (hs : list (Z * list Z))
    : Prop :=
  forall (s : PS) (nb : Z), 0 < nb ->
    exists out s',
      predictor s (nb :: C :: net_size) = (Ok out, s')
      /\ answer_of form ks (expected_heads nb hs) out.





Definition tensor_form (form : Form) : bool :=
  match form with AsTensor => true | _ => false end.


(** Every tensor of the answer has the spatial size of [t]. *)
Definition sized_like (t : list Z) (out : PredOut) : Prop :=
  match out with
  | PTensor h => drop 2 h = drop 2 t
  | PSeq l => Forall (fun h => drop 2 h = drop 2 t) l
  | PMapping m => map_Forall (fun _ h => drop 2 h = drop 2 t) m
  end.

(** ** The inferer class (lines 261-335) *)

(** Where tensors live; the shapes of the engine do not depend on it. *)
Inductive Device := CPU | CUDA (index : Z).

Inductive InitWarning := WCacheNotCreated.

(** MONAI's [SlidingWindowInferer], the base class.  Its constructor keeps
    its arguments and, when it is asked to cache, builds the importance map
    of a window that has no fallback component; any failure there becomes a
    [RuntimeError].  The constant of the padding is not modelled. *)
Module SlidingWindowInferer.

Record self := {
  roi_size : Monai.SizeArg;
  sw_batch_size : Z;
  overlap : Q;
  mode : Monai.BlendMode;
  sigma_scale : Q;
  padding_mode : Torch.PadMode;
  sw_device : option Device;
  device : option Device;
  progress : bool;
  cpu_thresh : option Z;
  roi_weight_map : option WeightMap }.

Definition __init__ (gaussian_map : list Z -> Q -> Res (list Z -> Q))
    (roi_size : Monai.SizeArg) (sw_batch_size : Z) (overlap : Q)
    (mode : Monai.BlendMode) (sigma_scale : Q) (padding_mode : Torch.PadMode)
    (sw_device device : option Device) (progress cache_roi_weight_map : bool)
    (cpu_thresh : option Z) : Res (self * list InitWarning) :=
  do roi_weight_map <-
    match cache_roi_weight_map, roi_size with
    | true, Monai.SSeq [] => Raise RuntimeError
    | true, Monai.SSeq l =>
        if forallb (Z.ltb 0) l then
          do m <- compute_importance_map gaussian_map l mode sigma_scale; Ok (Some m)
        else Ok None
    | _, _ => Ok None
    end;
  Ok ({| roi_size := roi_size; sw_batch_size := sw_batch_size; overlap := overlap;
         mode := mode; sigma_scale := sigma_scale; padding_mode := padding_mode;
         sw_device := sw_device; device := device; progress := progress;
         cpu_thresh := cpu_thresh; roi_weight_map := roi_weight_map |},
      match cache_roi_weight_map, roi_weight_map with
      | true, None => [WCacheNotCreated]
      | _, _ => []
      end).

End SlidingWindowInferer.

Module MySlidingInferer.

Record self := {
  super : SlidingWindowInferer.self;
  input_size : Monai.SizeArg }.

(** Lines 262-294: without an [input_size] the network's size is the
    [roi_size] as it was given. *)
Definition __init__ (gaussian_map : list Z -> Q -> Res (list Z -> Q))
    (roi_size : Monai.SizeArg) (input_size : option Monai.SizeArg) (sw_batch_size : Z)
    (overlap : Q) (mode : Monai.BlendMode) (sigma_scale : Q)
    (padding_mode : Torch.PadMode) (sw_device device : option Device)
    (progress cache_roi_weight_map : bool) (cpu_thresh : option Z)
    : Res (self * list InitWarning) :=
  do base <- SlidingWindowInferer.__init__ gaussian_map roi_size sw_batch_size overlap
               mode sigma_scale padding_mode sw_device device progress
               cache_roi_weight_map cpu_thresh;
  let input_size := match input_size with
                    | None => roi_size
                    | Some given => given
                    end in
  Ok ({| super := base.1; input_size := input_size |}, base.2).

(** Lines 313-316: the device on which the output is stitched; [None] is
    the device of the input.  [kwargs_device] is the [device] keyword of the
    call, if there is one. *)
Definition stitching_device (s : self) (kwargs_device : option (option Device))
    (inputs : Tensor) : option Device :=
  let device := match kwargs_device with
                | Some given => given
                | None => SlidingWindowInferer.device (super s)
                end in
  match device, SlidingWindowInferer.cpu_thresh (super s) with
  | None, Some thresh =>
      if thresh <? foldr Z.mul 1 (drop 2 (shape inputs)) then Some CPU else None
  | _, _ => device
  end.

(** Lines 318-335. *)
Definition __call__ {PS} (network : PS -> list Z -> Res PredOut * PS)
    (gaussian_map : list Z -> Q -> Res (list Z -> Q)) (s : self) (inputs : Tensor)
    : M PS Output :=
  sliding_window_inference network gaussian_map inputs
    (SlidingWindowInferer.roi_size (super s)) (input_size s)
    (SlidingWindowInferer.sw_batch_size (super s))
    (SlidingWindowInferer.overlap (super s))
    (SlidingWindowInferer.mode (super s))
    (SlidingWindowInferer.sigma_scale (super s))
    (SlidingWindowInferer.padding_mode (super s))
    (SlidingWindowInferer.progress (super s))
    (SlidingWindowInferer.roi_weight_map (super s)).

End MySlidingInferer.

(** ** The inferers of the pipeline ([train/semantic_segmentation.py]) *)

Module SemanticSegmentation.



End SemanticSegmentation.

(** ** Counting the placements over a location *)

#[global] Instance in_window_dec (y : list Z) (win : list (Z * Z)) :
  Decision (in_window y win).
Proof. unfold in_window. apply _. Defined.

(** The number of placements, among the first [upto] of an image, that lie
    over the location [y] of the accumulator of a head of size [o]. *)
Definition coverage_upto (p : Plan) (o y : list Z) (upto : Z) : Z :=
  Z.of_nat
    (length (filter (fun win => in_window y (zoomed_roi win (head_zoom (roi_size p) o)))
                    (take (Z.to_nat upto) (slices p)))).




(** * Properties *)

Import Examples.

(** ** The batch executor and output forms *)

(** C1 (failing input). With a window of 4x4 and a network resolution of
    8x8, a network that answers with a named mapping, or with a sequence,
    makes the call end in an [AttributeError] at the resampling of line 128,
    after one invocation; the same call with a single-tensor network returns
    an output of the image's size. *)
Theorem C1_resample_back_takes_a_tensor_only :
  let run {PS} (net : PS -> list Z -> Res PredOut * PS) (s : PS) :=
    sliding_window_inference net no_gaussian (plain [1; 1; 10; 10])
      (Monai.SSeq [4; 4]) (Monai.SSeq [8; 8]) 4 (1 # 2) Monai.CONSTANT (1 # 8)
      Torch.PAD_CONSTANT false None (initial_world s) in
  (run one_named_head tt).1 = Raise AttributeError
  /\ calls (run one_named_head tt).2 = [[4; 1; 8; 8]]
  /\ (run two_heads tt).1 = Raise AttributeError
  /\ (run same_shape tt).1 = Ok (OutTensor (plain [1; 1; 10; 10])).
Proof. vm_compute. repeat split; reflexivity. Qed.

(** The resampling step refuses every output that is not a single tensor. *)
Lemma resize_back_not_tensor (p : Plan) input_size out window_data r0 r1 i0 i1 :
  roi_size p !! 0%nat = Some r0 -> roi_size p !! 1%nat = Some r1 ->
  input_size !! 0%nat = Some i0 -> input_size !! 1%nat = Some i1 ->
  (r0, r1) <> (i0, i1) ->
  (forall t, out <> PTensor t) ->
  resize_back p (Monai.SSeq input_size) out window_data = Raise AttributeError.
Proof.
  intros Hr0 Hr1 Hi0 Hi1 Hne Hout. unfold resize_back, py_index.
  rewrite Hr0, Hr1, Hi0, Hi1. simpl.
  destruct (r0 =? i0) eqn:E0; destruct (r1 =? i1) eqn:E1; simpl;
    try (destruct out; [exfalso; eapply Hout; eauto | reflexivity | reflexivity]).
  apply Z.eqb_eq in E0, E1. subst. congruence.
Qed.

(** ** Metadata *)

Lemma plan_meta gm inputs roi ov mode sig pm rwm p :
  plan gm inputs roi ov mode sig pm rwm = Ok p -> meta (padded p) = meta inputs.
Proof.
  unfold plan. intros H.
  destruct (Qlt_le_dec ov 0); [discriminate|].
  destruct (Qlt_le_dec ov 1); [|discriminate].
  destruct (shape inputs) as [|b [|c img]]; try discriminate.
  repeat match type of H with
  | rbind ?x _ = Ok _ => destruct x; simpl in H; [|discriminate]
  end.
  injection H as <-. reflexivity.
Qed.

Lemma finalize_meta p acc m out :
  meta (padded p) = Some m -> finalize p acc <> Ok out.
Proof.
  unfold finalize. intros Hm.
  destruct (res_map _ _); simpl; [|discriminate].
  match goal with |- rbind ?x _ <> _ => destruct x; simpl; [|discriminate] end.
  rewrite Hm. discriminate.
Qed.

Lemma finalize_meta_name_error p acc m out :
  meta (padded p) = Some m ->
  finalize {| batch_size := batch_size p; channels := channels p;
              image_size_ := image_size_ p; num_spatial_dims := num_spatial_dims p;
              roi_size := roi_size p; image_size := image_size p;
              pad_size := pad_size p; padded := plain (shape (padded p));
              slices := slices p; num_win := num_win p;
              total_slices := total_slices p;
              importance_map := importance_map p |} acc = Ok out ->
  finalize p acc = Raise NameError.
Proof.
  unfold finalize. intros Hm. simpl.
  change (finalize_head _) with (finalize_head p).
  destruct (res_map _ _); simpl; [|discriminate].
  match goal with |- rbind ?x _ = _ -> _ => destruct x; simpl; [|discriminate] end.
  rewrite Hm. reflexivity.
Qed.

(** C9. A call on a tensor that carries metadata never returns: where the
    same call on the bare tensor returns an output, the call on the
    [MetaTensor] ends in the [NameError] of line 256, after the same
    predictor invocations and warnings. *)
Theorem C9_meta_tensor_call_never_returns {PS} (predictor : PS -> list Z -> Res PredOut * PS)
    gaussian_map inputs roi_arg input_size sw_batch_size overlap mode sigma_scale
    padding_mode progress roi_weight_map (w : World PS) (m : Meta) :
  meta inputs = Some m ->
  let call t := sliding_window_inference predictor gaussian_map t roi_arg input_size
                  sw_batch_size overlap mode sigma_scale padding_mode progress
                  roi_weight_map w in
  (forall out, (call inputs).1 <> Ok out)
  /\ (forall out, (call (plain (shape inputs))).1 = Ok out ->
      call inputs = (Raise NameError, (call (plain (shape inputs))).2)).
Proof.
  intros Hm call. subst call. unfold sliding_window_inference, bind, lift.
  split.
  - intros out.
    destruct (plan _ inputs _ _ _ _ _ _) as [p|] eqn:Hp; simpl; [|discriminate].
    destruct (run_batches _ _ _ _ _ _) as [[acc|] w']; simpl; [|discriminate].
    apply finalize_meta with m. rewrite (plan_meta _ _ _ _ _ _ _ _ _ Hp). exact Hm.
  - intros out.
    destruct (plan _ inputs _ _ _ _ _ _) as [p|] eqn:Hp.
    + assert (Hp' : plan gaussian_map (plain (shape inputs)) roi_arg overlap mode
                      sigma_scale padding_mode roi_weight_map
                    = Ok {| batch_size := batch_size p; channels := channels p;
                            image_size_ := image_size_ p;
                            num_spatial_dims := num_spatial_dims p;
                            roi_size := roi_size p; image_size := image_size p;
                            pad_size := pad_size p; padded := plain (shape (padded p));
                            slices := slices p; num_win := num_win p;
                            total_slices := total_slices p;
                            importance_map := importance_map p |}).
      { revert Hp. unfold plan. simpl.
        destruct (Qlt_le_dec overlap 0); [discriminate|].
        destruct (Qlt_le_dec overlap 1); [|discriminate].
        destruct (shape inputs) as [|b [|c img]]; try discriminate.
        intros H.
        repeat match type of H with
        | rbind ?x _ = Ok _ => destruct x; simpl in H |- *; [|discriminate]
        end.
        injection H as <-. reflexivity. }
      rewrite Hp'. simpl.
      match goal with
      | |- context [run_batches predictor ?q input_size sw_batch_size progress w] =>
          change (run_batches predictor q input_size sw_batch_size progress w)
            with (run_batches predictor p input_size sw_batch_size progress w)
      end.
      destruct (run_batches _ _ _ _ _ _) as [[acc|] w']; simpl; [|discriminate].
      intros Hfin. f_equal.
      eapply finalize_meta_name_error; [|exact Hfin].
      rewrite (plan_meta _ _ _ _ _ _ _ _ _ Hp). exact Hm.
    + assert (Hp' : plan gaussian_map (plain (shape inputs)) roi_arg overlap mode
                      sigma_scale padding_mode roi_weight_map = Raise e).
      { revert Hp. unfold plan. simpl.
        destruct (Qlt_le_dec overlap 0); [tauto|].
        destruct (Qlt_le_dec overlap 1); [|tauto].
        destruct (shape inputs) as [|b [|c img]]; try tauto.
        intros H.
        repeat match type of H with
        | rbind ?x _ = Raise _ => destruct x; simpl in H |- *; [|assumption]
        end.
        discriminate. }
      rewrite Hp'. simpl. discriminate.
Qed.

(** A [MetaTensor] of shape [1,1,10,10] with a 4x4 window. *)
Lemma C9_witness :
  let inputs := {| shape := [1; 1; 10; 10]; meta := Some {| affine := [[1; 0]; [0; 1]] |} |} in
  let call t := sliding_window_inference same_shape no_gaussian t
                  (Monai.SSeq [4; 4]) (Monai.SSeq [4; 4]) 4 (1 # 2) Monai.CONSTANT
                  (1 # 8) Torch.PAD_CONSTANT false None (initial_world tt) in
  (call (plain (shape inputs))).1 = Ok (OutTensor (plain [1; 1; 10; 10]))
  /\ (call inputs).1 = Raise NameError.
Proof.
  intros inputs call.
  pose proof (C9_meta_tensor_call_never_returns same_shape no_gaussian inputs
                (Monai.SSeq [4; 4]) (Monai.SSeq [4; 4]) 4 (1 # 2) Monai.CONSTANT
                (1 # 8) Torch.PAD_CONSTANT false None (initial_world tt)
                {| affine := [[1; 0]; [0; 1]] |} eq_refl) as [_ H].
  assert (Hplain : (call (plain (shape inputs))).1 = Ok (OutTensor (plain [1; 1; 10; 10])))
    by (vm_compute; reflexivity).
  split; [exact Hplain|].
  subst call. cbv beta. rewrite (H _ Hplain). reflexivity.
Defined.

(** ** Output keys *)

Lemma res_map_Forall2 {A B} (f : A -> Res B) l l' :
  res_map f l = Ok l' <-> Forall2 (fun a b => f a = Ok b) l l'.
Proof.
  revert l'. induction l as [|a l IH]; intros l'; simpl.
  - split; [intros [= <-]; constructor | intros H; inversion H; reflexivity].
  - destruct (f a) as [b|e] eqn:Ha; simpl.
    + destruct (res_map f l) as [bs|e] eqn:Hl; simpl.
      * split.
        -- intros [= <-]. constructor; [assumption|]. apply IH. reflexivity.
        -- intros H. inversion H as [|? b' ? bs' Hb Hbs]; subst.
           rewrite Ha in Hb. injection Hb as <-.
           apply IH in Hbs. injection Hbs as <-. reflexivity.
      * split; [discriminate|].
        intros H. inversion H as [|? b' ? bs' Hb Hbs]; subst.
        apply IH in Hbs. discriminate.
    + split; [discriminate|].
      intros H. inversion H as [|? b' ? bs' Hb Hbs]; subst. congruence.
Qed.

Lemma lookup_keys_missing (m : gmap string (list Z)) (keys : list string) (k : string) :
  k ∈ keys -> m !! k = None ->
  res_map (fun k => match m !! k with Some t => Ok t | None => Raise KeyError end) keys
  = Raise KeyError.
Proof.
  intros Hin Hk. induction keys as [|k' keys IH]; [inversion Hin|].
  simpl. destruct (m !! k') as [t|] eqn:Hk'; simpl; [|reflexivity].
  assert (k ∈ keys) as Hin'.
  { apply elem_of_cons in Hin as [->|?]; [congruence|assumption]. }
  rewrite (IH Hin'). reflexivity.
Qed.


(** An exception in the body of a loop ends the loop with that exception:
    the elements after it are not visited. *)
Lemma for_each_raise {PS A S} (body : A -> S -> M PS S) l1 a l2 s s1 (w w1 w2 : World PS) e :
  for_each l1 body s w = (Ok s1, w1) ->
  body a s1 w1 = (Raise e, w2) ->
  for_each (l1 ++ a :: l2) body s w = (Raise e, w2).
Proof.
  revert s w. induction l1 as [|x l1 IH]; intros s w; simpl.
  - unfold ret. intros [= -> ->] Hb. unfold bind. rewrite Hb. reflexivity.
  - unfold bind at 1. intros H.
    change (for_each ((x :: l1) ++ a :: l2) body s w)
      with (bind (body x s) (fun s' => for_each (l1 ++ a :: l2) body s') w).
    unfold bind at 1. destruct (body x s w) as [[s'|e'] w']; [|discriminate].
    apply IH. exact H.
Qed.




(** ** The importance map *)

Lemma fall_back_tuple_inv roi_arg img_ roi :
  Monai.fall_back_tuple roi_arg img_ = Ok roi ->
  exists user, length user = length img_
               /\ roi = zip_with (fun d u => if 0 <? u then u else d) img_ user.
Proof.
  unfold Monai.fall_back_tuple, Monai.ensure_tuple_rep.
  destruct roi_arg as [n|l]; simpl.
  - intros [= <-]. exists (replicate (length img_) n).
    split; [apply length_replicate|reflexivity].
  - destruct (length l =? length img_)%nat eqn:E; simpl; [|discriminate].
    intros [= <-]. exists l. split; [apply Nat.eqb_eq; assumption|reflexivity].
Qed.

Lemma fall_back_tuple_length roi_arg img_ roi :
  Monai.fall_back_tuple roi_arg img_ = Ok roi -> length roi = length img_.
Proof.
  intros (user & Hlen & ->)%fall_back_tuple_inv.
  rewrite length_zip_with. lia.
Qed.

Lemma valid_patch_pointwise img_ user :
  length user = length img_ ->
  let roi := zip_with (fun d u => if 0 <? u then u else d) img_ user in
  zip_with (fun ms ps => Z.min ms (if ps =? 0 then ms else ps))
           (zip_with Z.max img_ roi) roi = roi.
Proof.
  revert user. induction img_ as [|i img_ IH]; intros [|u user] Hlen; simpl in *;
    try reflexivity; try discriminate.
  f_equal; [|apply IH; lia].
  destruct (0 <? u) eqn:E.
  - apply Z.ltb_lt in E. destruct (u =? 0) eqn:E0; lia.
  - destruct (i =? 0) eqn:E0; lia.
Qed.

(** After padding the image is at least as large as the window, so the
    valid window is the window. *)
Lemma valid_patch_size_is_roi roi_arg img_ roi :
  Monai.fall_back_tuple roi_arg img_ = Ok roi ->
  Monai.get_valid_patch_size (zip_with Z.max img_ roi) roi = roi.
Proof.
  intros H. pose proof (fall_back_tuple_length _ _ _ H) as Hlen.
  apply fall_back_tuple_inv in H as (user & Hu & ->).
  unfold Monai.get_valid_patch_size, Monai.ensure_tuple_size.
  rewrite take_app_le by (rewrite !length_zip_with; lia).
  rewrite take_ge by (rewrite !length_zip_with; lia).
  apply valid_patch_pointwise. assumption.
Qed.

(** C4 (amended). A supplied map is used whenever it is supplied, whatever
    its shape: the plan's importance map is the floored supplied map, and
    the plan does not depend on the blend mode, on sigma or on the Gaussian
    builder, which is not run.  Without a supplied map the importance map is
    the floored map built for the window. *)
Theorem C4_supplied_map_is_used_whatever_its_shape gaussian_map inputs roi_arg
    overlap mode sigma_scale padding_mode (p : Plan) :
  (forall given,
     plan gaussian_map inputs roi_arg overlap mode sigma_scale padding_mode (Some given)
       = Ok p ->
     clamp_importance given = Ok (importance_map p)
     /\ forall gaussian_map' mode' sigma_scale',
          plan gaussian_map' inputs roi_arg overlap mode' sigma_scale' padding_mode
               (Some given) = Ok p)
  /\ (plan gaussian_map inputs roi_arg overlap mode sigma_scale padding_mode None = Ok p ->
      exists built,
        compute_importance_map gaussian_map (roi_size p) mode sigma_scale = Ok built
        /\ clamp_importance built = Ok (importance_map p)).
Proof.
  split.
  - intros given. unfold plan.
    destruct (Qlt_le_dec overlap 0); [discriminate|].
    destruct (Qlt_le_dec overlap 1); [|discriminate].
    destruct (shape inputs) as [|b [|c img_]]; try discriminate.
    destruct (Monai.fall_back_tuple roi_arg img_) as [roi|] eqn:Hroi; [|discriminate].
    simpl. rewrite (valid_patch_size_is_roi _ _ _ Hroi).
    rewrite bool_decide_eq_true_2 by reflexivity.
    destruct (Torch.pad _ _ _); [|discriminate]. simpl.
    destruct (Monai._get_scan_interval _ _ _ _); [|discriminate]. simpl.
    destruct (clamp_importance given) as [imp|] eqn:Hc; [|discriminate]. simpl.
    intros [= <-]. split; reflexivity.
  - unfold plan.
    destruct (Qlt_le_dec overlap 0); [discriminate|].
    destruct (Qlt_le_dec overlap 1); [|discriminate].
    destruct (shape inputs) as [|b [|c img_]]; try discriminate.
    destruct (Monai.fall_back_tuple roi_arg img_) as [roi|] eqn:Hroi; [|discriminate].
    simpl. rewrite (valid_patch_size_is_roi _ _ _ Hroi).
    destruct (Torch.pad _ _ _); [|discriminate]. simpl.
    destruct (Monai._get_scan_interval _ _ _ _); [|discriminate]. simpl.
    rewrite bool_decide_eq_true_2 by reflexivity.
    destruct (compute_importance_map _ _ _ _) as [built|] eqn:Hb; [|discriminate]. simpl.
    destruct (clamp_importance built) as [imp|] eqn:Hc; [|discriminate]. simpl.
    intros [= <-]. exists built. split; [exact Hb|assumption].
Qed.

(** C4 (counterexample). A 2x2 map supplied for a 4x4 window is taken as the
    importance map, and the Gaussian map that the call asks for is not
    built: building it would have failed. *)
Lemma C4_counterexample :
  (exists p,
     plan no_gaussian (plain [1; 1; 4; 8]) (Monai.SSeq [4; 4]) 0 Monai.GAUSSIAN (1 # 8)
          Torch.PAD_CONSTANT (Some (ones [2; 2])) = Ok p
     /\ wshape (importance_map p) = [2; 2]
     /\ Monai.get_valid_patch_size (image_size p) (roi_size p) = [4; 4])
  /\ plan no_gaussian (plain [1; 1; 4; 8]) (Monai.SSeq [4; 4]) 0 Monai.GAUSSIAN (1 # 8)
          Torch.PAD_CONSTANT None = Raise RuntimeError
  /\ (sliding_window_inference same_shape no_gaussian (plain [1; 1; 4; 8])
        (Monai.SSeq [4; 4]) (Monai.SSeq [4; 4]) 4 0 Monai.GAUSSIAN (1 # 8)
        Torch.PAD_CONSTANT false (Some (ones [2; 2])) (initial_world tt)).1
     = Ok (OutTensor (plain [1; 1; 4; 8])).
Proof.
  split; [|split].
  - eexists. split; [vm_compute; reflexivity|]. split; reflexivity.
  - vm_compute. reflexivity.
  - vm_compute. reflexivity.
Qed.

(** The 2x2 map for the 4x4 window, with the Gaussian mode asked for. *)
Lemma C4_witness :
  exists p,
    plan no_gaussian (plain [1; 1; 4; 8]) (Monai.SSeq [4; 4]) 0 Monai.GAUSSIAN (1 # 8)
         Torch.PAD_CONSTANT (Some (ones [2; 2])) = Ok p
    /\ clamp_importance (ones [2; 2]) = Ok (importance_map p).
Proof.
  destruct (plan no_gaussian (plain [1; 1; 4; 8]) (Monai.SSeq [4; 4]) 0 Monai.GAUSSIAN
              (1 # 8) Torch.PAD_CONSTANT (Some (ones [2; 2]))) as [p|e] eqn:Hp;
    [|vm_compute in Hp; discriminate].
  exists p. split; [reflexivity|].
  destruct (C4_supplied_map_is_used_whatever_its_shape no_gaussian (plain [1; 1; 4; 8])
              (Monai.SSeq [4; 4]) 0 Monai.GAUSSIAN (1 # 8) Torch.PAD_CONSTANT p) as [H _].
  apply (H (ones [2; 2]) Hp).
Defined.

(** ** Remapping a placement *)

Lemma py_int_floor (q : Q) : (0 <= q)%Q -> py_int q = Qfloor q.
Proof.
  destruct q as [n d]. unfold Qle, py_int, Qfloor. simpl. intros H.
  apply Z.quot_div_nonneg; lia.
Qed.

Lemma zoom_roi_from {PS} ss k win zoom_scale (w : World PS) :
  (length win <= length (drop k zoom_scale))%nat ->
  zoom_roi ss (2 + k) win zoom_scale w =
    (Ok (zoomed_roi win (drop k zoom_scale)),
     {| warnings := warnings w ++ roi_warnings ss k win (drop k zoom_scale);
        calls := calls w; pstate := pstate w |}).
Proof.
  revert k w. induction win as [|[start stop] win IH]; intros k w Hlen.
  - simpl. rewrite app_nil_r. destruct w; reflexivity.
  - destruct (drop k zoom_scale) as [|z zs] eqn:Hd; [simpl in Hlen; lia|].
    assert (Hz : zoom_scale !! k = Some z).
    { pose proof (lookup_drop zoom_scale k 0) as H.
      rewrite Hd, Nat.add_0_r in H. symmetry. exact H. }
    assert (Hd' : drop (S k) zoom_scale = zs).
    { replace (S k) with (k + 1)%nat by lia. rewrite <- drop_drop, Hd. reflexivity. }
    cbn [zoom_roi]. unfold bind at 1, lift at 1, py_index.
    replace (2 + k - 2)%nat with k by lia. rewrite Hz.
    unfold bind at 1.
    specialize (IH (S k)). rewrite Hd' in IH. simpl in Hlen.
    cbn [roi_warnings zoomed_roi zip_with].
    destruct (is_integer (inject_Z start * z)) eqn:E1;
      destruct (is_integer (inject_Z stop * z)) eqn:E2;
      cbn [negb orb andb]; unfold warn, ret, bind;
      change (S (2 + k)) with (2 + S k)%nat; rewrite IH by (simpl; lia);
      cbn [warnings calls pstate]; unfold zoomed_roi, zoom_bound; cbn [fst snd];
      rewrite <- ?app_assoc; reflexivity.
Qed.




(** ** The scan planner *)

Lemma zrange_length n : length (zrange n) = Z.to_nat n.
Proof. unfold zrange. rewrite length_fmap, length_seq. reflexivity. Qed.

Lemma zrange_lookup n (i : nat) : (i < Z.to_nat n)%nat -> zrange n !! i = Some (Z.of_nat i).
Proof.
  intros H. unfold zrange. rewrite list_lookup_fmap, lookup_seq_lt by assumption.
  reflexivity.
Qed.

Lemma zrange_of_nat (k : nat) : zrange (Z.of_nat k) = Z.of_nat <$> seq 0 k.
Proof. unfold zrange. rewrite Nat2Z.id. reflexivity. Qed.

Lemma zrange_split (n : Z) (d : nat) :
  Z.of_nat d < n ->
  exists rest, zrange n = (Z.of_nat <$> seq 0 d) ++ Z.of_nat d :: rest.
Proof.
  intros H. unfold zrange.
  replace (Z.to_nat n) with (d + S (Z.to_nat n - d - 1))%nat by lia.
  rewrite seq_app, fmap_app. simpl. eexists. reflexivity.
Qed.

Lemma filter_none {A} (P : A -> Prop) `{forall x, Decision (P x)} (l : list A) :
  Forall (fun x => ~ P x) l -> filter P l = [].
Proof.
  induction 1 as [|x l Hx _ IH]; [reflexivity|].
  rewrite filter_cons_False by assumption. exact IH.
Qed.

Lemma first_least (P : Z -> Prop) `{forall x, Decision (P x)} (n : Z) (d0 : nat) :
  Z.of_nat d0 < n -> P (Z.of_nat d0) ->
  (forall d : nat, (d < d0)%nat -> ~ P (Z.of_nat d)) ->
  Monai.first (filter P (zrange n)) = Some (Z.of_nat d0).
Proof.
  intros Hlt Hd0 Hleast. destruct (zrange_split n d0 Hlt) as [rest ->].
  rewrite filter_app, filter_none.
  - rewrite filter_cons_True by assumption. reflexivity.
  - apply Forall_fmap, Forall_forall. intros d Hd. apply Hleast.
    apply elem_of_seq in Hd. lia.
Qed.

(** The starts on one axis: multiples of the interval while the window fits
    before the boundary, then one window that ends on the boundary. *)
Lemma dim_starts_spec (img p I : Z) :
  0 < I <= p -> p <= img ->
  exists d0 : nat,
    (forall d : nat, (d < d0)%nat -> Z.of_nat d * I + p < img)
    /\ img <= Z.of_nat d0 * I + p
    /\ Monai.dim_starts img p I = ((fun d => Z.of_nat d * I) <$> seq 0 d0) ++ [img - p].
Proof.
  intros HI Hp.
  set (q := (img - p + I - 1) / I).
  assert (Hq0 : 0 <= q) by (apply Z.div_pos; lia).
  assert (Hq1 : q * I <= img - p + I - 1).
  { pose proof (Z.mul_div_le (img - p + I - 1) I). lia. }
  assert (Hq2 : img - p + I - 1 < (q + 1) * I).
  { pose proof (Z.mod_pos_bound (img - p + I - 1) I).
    pose proof (Z.div_mod (img - p + I - 1) I). subst q. nia. }
  exists (Z.to_nat q). rewrite Z2Nat.id by assumption.
  assert (Hleast : forall d : nat, (d < Z.to_nat q)%nat -> Z.of_nat d * I + p < img).
  { intros d Hd. assert (Z.of_nat d + 1 <= q) by lia. nia. }
  assert (Hreach : img <= q * I + p) by nia.
  split; [exact Hleast|]. split; [exact Hreach|].
  assert (Hnum : Monai.scan_num_axis img p I = q + 1).
  { unfold Monai.scan_num_axis. replace (I =? 0) with false by (symmetry; apply Z.eqb_neq; lia).
    rewrite (first_least _ _ (Z.to_nat q)).
    - rewrite Z2Nat.id by assumption. reflexivity.
    - rewrite Z2Nat.id by assumption. unfold Monai.ceil_div.
      apply Z.div_lt_upper_bound in Hq2; [|lia].
      apply Z.lt_le_trans with ((img - 1) / I + 1); [|].
      + assert ((img - p + I - 1) / I <= (img - 1) / I) by (apply Z.div_le_mono; lia).
        fold q in H. lia.
      + replace (img + I - 1) with (img - 1 + 1 * I) by lia.
        rewrite Z.div_add by lia. lia.
    - rewrite Z2Nat.id by assumption. lia.
    - intros d Hd. specialize (Hleast d Hd). lia. }
  unfold Monai.dim_starts. rewrite Hnum.
  replace (q + 1) with (Z.of_nat (Z.to_nat q + 1)) by lia.
  rewrite zrange_of_nat, seq_app, !fmap_app. simpl. f_equal.
  - rewrite <- list_fmap_compose. apply list_fmap_ext.
    intros i d Hd. apply lookup_seq in Hd as [-> Hd]. simpl.
    unfold Monai.start_idx. specialize (Hleast i Hd). lia.
  - unfold Monai.start_idx. rewrite Z2Nat.id by assumption.
    f_equal. lia.
Qed.

Lemma scan_interval_axis_spec (image roi : Z) (overlap : Q) :
  0 < roi -> (0 <= overlap)%Q -> (overlap < 1)%Q ->
  Monai.scan_interval_axis image roi overlap
  = (if roi =? image then roi else Z.max 1 (Qfloor (inject_Z roi * (1 - overlap))))
  /\ 0 < Monai.scan_interval_axis image roi overlap <= roi.
Proof.
  intros Hroi Ho0 Ho1. unfold Monai.scan_interval_axis.
  assert (Hnn : (0 <= inject_Z roi * (1 - overlap))%Q).
  { apply Qmult_le_0_compat; [unfold Qle; simpl; lia | lra]. }
  assert (Hle : Qfloor (inject_Z roi * (1 - overlap)) <= roi).
  { assert (Hx : (inject_Z roi * (1 - overlap) <= inject_Z roi * 1)%Q).
    { apply Qmult_le_l; [unfold Qlt; simpl; lia | lra]. }
    rewrite Qmult_1_r in Hx. apply Qfloor_resp_le in Hx.
    rewrite Qfloor_Z in Hx. exact Hx. }
  rewrite (py_int_floor _ Hnn).
  destruct (roi =? image); [split; [reflexivity|lia]|].
  destruct (0 <? Qfloor _) eqn:E; [apply Z.ltb_lt in E|apply Z.ltb_ge in E];
    split; lia.
Qed.




(** ** What a plan holds *)

Lemma pad_pairs_flat_map (l : list (Z * Z)) :
  Torch.pad_pairs (flat_map (fun '(r, s) => pad_pair r s) l)
  = Ok ((fun rs => (Z.max (rs.1 - rs.2) 0 / 2,
                    Z.max (rs.1 - rs.2) 0 - Z.max (rs.1 - rs.2) 0 / 2)) <$> l).
Proof.
  induction l as [|[r s] l IH]; [reflexivity|].
  simpl. rewrite IH. reflexivity.
Qed.

Lemma zip_with_reverse {A B C} (f : A -> B -> C) (l : list A) (k : list B) :
  length l = length k -> zip_with f (reverse l) (reverse k) = reverse (zip_with f l k).
Proof.
  revert k. induction l as [|a l IH]; intros [|b k] Hlen; simpl in *;
    try reflexivity; try discriminate.
  rewrite !reverse_cons, zip_with_app by (rewrite !length_reverse; lia).
  rewrite IH by lia. reflexivity.
Qed.

Lemma padded_extent (img_ roi : list Z) :
  length roi = length img_ ->
  zip_with (fun d (rs : Z * Z) =>
              d + Z.max (rs.1 - rs.2) 0 / 2
              + (Z.max (rs.1 - rs.2) 0 - Z.max (rs.1 - rs.2) 0 / 2))
           img_ (zip roi img_)
  = zip_with Z.max img_ roi.
Proof.
  revert roi. induction img_ as [|i img_ IH]; intros [|r roi] Hlen; simpl in *;
    try reflexivity; try discriminate.
  f_equal; [lia|apply IH; lia].
Qed.

(** Padding brings every axis to the larger of the image and the window. *)
Lemma pad_shape (B C : Z) (img_ roi : list Z) pm s :
  length roi = length img_ ->
  Torch.pad (B :: C :: img_) (compute_pad_size roi img_) pm = Ok s ->
  s = B :: C :: zip_with Z.max img_ roi.
Proof.
  intros Hlen. unfold Torch.pad, compute_pad_size.
  rewrite pad_pairs_flat_map. cbn [rbind].
  rewrite length_fmap, length_reverse, length_zip, Hlen, Nat.min_id.
  cbn [length].
  replace (S (S (length img_)) <? length img_)%nat with false
    by (symmetry; apply Nat.ltb_ge; lia).
  replace (S (S (length img_)) - length img_)%nat with 2%nat by lia.
  cbn [take drop].
  destruct (forallb _ _); [|discriminate].
  intros [= <-]. cbn [app]. do 2 f_equal.
  rewrite drop_0, zip_with_fmap_r, zip_with_reverse by (rewrite length_zip; lia).
  rewrite reverse_involutive. apply padded_extent. assumption.
Qed.

Record PlanFacts (p : Plan) (B C : Z) (img_ : list Z) (overlap : Q) : Prop := {
  pf_batch : batch_size p = B;
  pf_channels : channels p = C;
  pf_image_ : image_size_ p = img_;
  pf_dims : num_spatial_dims p = length img_;
  pf_roi_len : length (roi_size p) = length img_;
  pf_roi : exists user, length user = length img_
             /\ roi_size p = zip_with (fun d u => if 0 <? u then u else d) img_ user;
  pf_image : image_size p = zip_with Z.max img_ (roi_size p);
  pf_pad : pad_size p = compute_pad_size (roi_size p) img_;
  pf_padded : shape (padded p) = B :: C :: image_size p;
  pf_slices : slices p =
    Monai.dense_patch_slices (image_size p) (roi_size p)
      (zip_with (fun i r => Monai.scan_interval_axis i r overlap)
                (image_size p) (roi_size p));
  pf_num_win : num_win p = Z.of_nat (length (slices p));
  pf_total : total_slices p = num_win p * B;
  pf_overlap : (0 <= overlap)%Q /\ (overlap < 1)%Q;
  pf_floor : exists least, (0 < least)%Q
               /\ forall x, (least <= wval (importance_map p) x)%Q }.

Lemma clamp_importance_floor m m' :
  clamp_importance m = Ok m' ->
  wshape m' = wshape m
  /\ exists least, (0 < least)%Q /\ forall x, (least <= wval m' x)%Q.
Proof.
  unfold clamp_importance. destruct (min_nonzero_entry m) as [q|]; [|discriminate].
  simpl. intros [= <-]. split; [reflexivity|].
  exists (Qmax q (1 # 1000)). split.
  - apply Qlt_le_trans with (1 # 1000); [reflexivity|apply Q.le_max_r].
  - intros x. simpl. apply Q.le_max_r.
Qed.

Lemma plan_facts gm inputs roi_arg overlap mode sig pm rwm p B C img_ :
  shape inputs = B :: C :: img_ ->
  plan gm inputs roi_arg overlap mode sig pm rwm = Ok p ->
  PlanFacts p B C img_ overlap.
Proof.
  intros Hs. unfold plan. rewrite Hs.
  destruct (Qlt_le_dec overlap 0); [discriminate|].
  destruct (Qlt_le_dec overlap 1); [|discriminate].
  destruct (Monai.fall_back_tuple roi_arg img_) as [roi|] eqn:Hroi; [|discriminate].
  cbn [rbind].
  destruct (Torch.pad _ _ _) as [ps|] eqn:Hpad; [|discriminate]. cbn [rbind].
  unfold Monai._get_scan_interval.
  pose proof (fall_back_tuple_length _ _ _ Hroi) as Hlen.
  rewrite length_zip_with, Hlen, Nat.min_id. cbn [length].
  replace (length img_ =? S (S (length img_)) - 2)%nat with true
    by (symmetry; apply Nat.eqb_eq; lia).
  cbn [negb rbind].
  match goal with
  | |- rbind ?x _ = _ -> _ => destruct x as [imp0|]; [|discriminate]
  end.
  cbn [rbind].
  destruct (clamp_importance imp0) as [imp|] eqn:Hc; [|discriminate].
  cbn [rbind]. intros [= <-].
  apply pad_shape in Hpad; [|assumption].
  constructor; cbn; try reflexivity; try assumption.
  - lia.
  - eapply fall_back_tuple_inv. eassumption.
  - split; assumption.
  - apply clamp_importance_floor in Hc. tauto.
Qed.

Lemma fall_back_positive (img user : list Z) :
  Forall (fun d => 0 < d) img -> length user = length img ->
  Forall (fun d => 0 < d) (zip_with (fun d u => if 0 <? u then u else d) img user).
Proof.
  intros Hpos. revert user.
  induction Hpos as [|i img Hi _ IH]; intros [|u user] Hlen;
    try discriminate; [constructor|].
  cbn [zip_with]. constructor.
  - destruct (0 <? u) eqn:E; [apply Z.ltb_lt in E|]; assumption.
  - apply IH. simpl in Hlen. lia.
Qed.

Lemma max_vs_roi (img roi : list Z) :
  Forall (fun d => 0 < d) roi -> length roi = length img ->
  Forall2 (fun i r => 0 < r <= i) (zip_with Z.max img roi) roi.
Proof.
  revert roi. induction img as [|i img IH]; intros [|r roi] Hr Hlen;
    try discriminate; [constructor|].
  inversion Hr; subst. cbn [zip_with]. constructor; [lia|].
  apply IH; [assumption|simpl in Hlen; lia].
Qed.

Section PlanProperties.

Context (p : Plan) (B C : Z) (img_ : list Z) (overlap : Q).
Hypothesis facts : PlanFacts p B C img_ overlap.
Hypothesis positive : Forall (fun d => 0 < d) img_.

Lemma roi_positive : Forall (fun d => 0 < d) (roi_size p).
Proof.
  destruct (pf_roi _ _ _ _ _ facts) as (user & Hlen & ->).
  apply fall_back_positive; assumption.
Qed.

Lemma image_vs_roi :
  Forall2 (fun i r => 0 < r <= i) (image_size p) (roi_size p).
Proof.
  rewrite (pf_image _ _ _ _ _ facts).
  apply max_vs_roi; [apply roi_positive|apply (pf_roi_len _ _ _ _ _ facts)].
Qed.

Lemma image_size_length : length (image_size p) = length img_.
Proof.
  rewrite (pf_image _ _ _ _ _ facts), length_zip_with, (pf_roi_len _ _ _ _ _ facts).
  lia.
Qed.

Lemma valid_patch_size_roi :
  Monai.get_valid_patch_size (image_size p) (roi_size p) = roi_size p.
Proof.
  unfold Monai.get_valid_patch_size, Monai.ensure_tuple_size.
  pose proof image_size_length as Hi. pose proof (pf_roi_len _ _ _ _ _ facts) as Hr.
  rewrite take_app_le by lia. rewrite take_ge by lia.
  clear Hi Hr.
  pose proof image_vs_roi as H. induction H as [|i r image roi Hir _ IH];
    [reflexivity|].
  simpl. f_equal.
  - replace (r =? 0) with false by (symmetry; apply Z.eqb_neq; lia). lia.
  - exact IH.
Qed.

Lemma slices_eq :
  img_ <> [] ->
  slices p = (fun x => zip_with (fun s r => (s, s + r)) x (roi_size p))
               <$> cart (axis_starts (image_size p) (roi_size p) overlap).
Proof.
  intros Hne. rewrite (pf_slices _ _ _ _ _ facts). unfold Monai.dense_patch_slices.
  rewrite valid_patch_size_roi.
  unfold Monai.ensure_tuple_size.
  pose proof image_size_length as Hi. pose proof (pf_roi_len _ _ _ _ _ facts) as Hr.
  rewrite take_app_le by (rewrite length_zip_with; lia).
  rewrite take_ge by (rewrite length_zip_with; lia).
  assert (Hst : zip_with (fun '(i, q) s => Monai.dim_starts i q s)
                  (zip (image_size p) (roi_size p))
                  (zip_with (fun i r => Monai.scan_interval_axis i r overlap)
                            (image_size p) (roi_size p))
                = axis_starts (image_size p) (roi_size p) overlap).
  { unfold axis_starts. generalize (image_size p) (roi_size p). clear.
    induction l as [|i image IH]; intros [|r roi]; simpl; try reflexivity.
    f_equal. apply IH. }
  rewrite Hst.
  destruct (axis_starts _ _ _) eqn:E; [|reflexivity].
  exfalso. apply (f_equal length) in E. unfold axis_starts in E.
  rewrite length_zip_with in E. simpl in E.
  destruct img_; [congruence|simpl in *; lia].
Qed.

End PlanProperties.

(** ** Placements *)

Lemma elem_of_cart (x : list Z) (ls : list (list Z)) :
  x ∈ cart ls <-> Forall2 (fun xi l => xi ∈ l) x ls.
Proof.
  revert x. induction ls as [|l ls IH]; intros x; simpl.
  - rewrite list_elem_of_singleton. split; [intros ->; constructor|].
    intros H. inversion H. reflexivity.
  - rewrite list_elem_of_In, in_flat_map. split.
    + intros (a & Ha & Hx). apply list_elem_of_In, list_elem_of_fmap in Hx as (y & -> & Hy).
      constructor; [apply list_elem_of_In; assumption|apply IH; assumption].
    + intros H. inversion H as [|a ? y ? Ha Hy]; subst.
      exists a. split; [apply list_elem_of_In; assumption|].
      apply list_elem_of_In, list_elem_of_fmap. exists y. split; [reflexivity|].
      apply IH. assumption.
Qed.

Lemma cart_not_nil (ls : list (list Z)) :
  Forall (fun l => l <> []) ls -> cart ls <> [].
Proof.
  induction 1 as [|l ls Hl _ IH]; simpl; [discriminate|].
  destruct l as [|a l]; [congruence|]. simpl.
  destruct (cart ls) as [|y ys]; [congruence|]. simpl. discriminate.
Qed.

Lemma dim_starts_bounds (img r : Z) (overlap : Q) (s : Z) :
  0 < r <= img -> (0 <= overlap)%Q -> (overlap < 1)%Q ->
  s ∈ Monai.dim_starts img r (Monai.scan_interval_axis img r overlap) ->
  0 <= s /\ s + r <= img.
Proof.
  intros Hr Ho0 Ho1.
  destruct (scan_interval_axis_spec img r overlap ltac:(lia) Ho0 Ho1) as [_ HI].
  destruct (dim_starts_spec img r _ HI ltac:(lia)) as (d0 & Hleast & _ & ->).
  rewrite elem_of_app, list_elem_of_fmap, list_elem_of_singleton.
  intros [(d & -> & Hd)| ->]; [|lia].
  apply elem_of_seq in Hd. specialize (Hleast d ltac:(lia)). nia.
Qed.

Lemma dim_starts_not_nil (img r : Z) (overlap : Q) :
  0 < r <= img -> (0 <= overlap)%Q -> (overlap < 1)%Q ->
  Monai.dim_starts img r (Monai.scan_interval_axis img r overlap) <> [].
Proof.
  intros Hr Ho0 Ho1.
  destruct (scan_interval_axis_spec img r overlap ltac:(lia) Ho0 Ho1) as [_ HI].
  destruct (dim_starts_spec img r _ HI ltac:(lia)) as (d0 & _ & _ & ->).
  intros H. apply app_eq_nil in H as [_ H]. discriminate.
Qed.

Lemma cart_axis_starts_valid (image roi : list Z) (overlap : Q) (x : list Z) :
  Forall2 (fun i r => 0 < r <= i) image roi ->
  (0 <= overlap)%Q -> (overlap < 1)%Q ->
  x ∈ cart (axis_starts image roi overlap) ->
  valid_window image roi (zip_with (fun s r => (s, s + r)) x roi).
Proof.
  intros Hir Ho0 Ho1. rewrite elem_of_cart. unfold axis_starts, valid_window.
  revert x. induction Hir as [|i r image roi Hr _ IH]; intros x Hx; simpl in *.
  - inversion Hx. constructor.
  - inversion Hx as [|s ? x' ? Hs Hx']; subst. simpl. constructor.
    + simpl. apply dim_starts_bounds in Hs; [lia|assumption..].
    + apply IH. assumption.
Qed.

Section Placements.

Context (p : Plan) (B C : Z) (img_ : list Z) (overlap : Q).
Hypothesis facts : PlanFacts p B C img_ overlap.
Hypothesis positive : Forall (fun d => 0 < d) img_.
Hypothesis spatial : img_ <> [].

Lemma slices_valid (win : list (Z * Z)) :
  win ∈ slices p -> valid_window (image_size p) (roi_size p) win.
Proof.
  rewrite (slices_eq p B C img_ overlap facts positive spatial).
  intros (x & -> & Hx)%list_elem_of_fmap.
  destruct (pf_overlap _ _ _ _ _ facts).
  apply (cart_axis_starts_valid _ _ overlap); try assumption.
  apply (image_vs_roi p B C img_ overlap facts positive).
Qed.

Lemma num_win_pos : 0 < num_win p.
Proof.
  rewrite (pf_num_win _ _ _ _ _ facts).
  rewrite (slices_eq p B C img_ overlap facts positive spatial), length_fmap.
  destruct (pf_overlap _ _ _ _ _ facts).
  assert (cart (axis_starts (image_size p) (roi_size p) overlap) <> []) as Hne.
  { apply cart_not_nil. unfold axis_starts.
    pose proof (image_vs_roi p B C img_ overlap facts positive) as Hir.
    induction Hir as [|i r image roi Hr _ IH]; simpl; constructor; [|assumption].
    apply dim_starts_not_nil; assumption. }
  destruct (cart _); [congruence|]. simpl. lia.
Qed.

Lemma unravel_ok (idx : Z) :
  0 <= idx < total_slices p ->
  exists win, unravel p idx = Ok (idx / num_win p, win)
              /\ slices p !! Z.to_nat (idx mod num_win p) = Some win
              /\ valid_window (image_size p) (roi_size p) win
              /\ 0 <= idx / num_win p < B.
Proof.
  intros Hidx. pose proof num_win_pos as Hn.
  unfold unravel. replace (num_win p =? 0) with false by (symmetry; apply Z.eqb_neq; lia).
  pose proof (Z.mod_pos_bound idx (num_win p) Hn) as Hm.
  destruct (slices p !! Z.to_nat (idx mod num_win p)) as [win|] eqn:Hw.
  - exists win. unfold py_index. rewrite Hw. simpl.
    split; [reflexivity|]. split; [reflexivity|]. split.
    + apply slices_valid. eapply list_elem_of_lookup_2. eassumption.
    + rewrite (pf_total _ _ _ _ _ facts) in Hidx. split.
      * apply Z.div_pos; lia.
      * apply Z.div_lt_upper_bound; lia.
  - apply lookup_ge_None in Hw. pose proof (pf_num_win _ _ _ _ _ facts) as Hnw.
    revert Hm Hw. generalize (idx mod num_win p). intros. lia.
Qed.

End Placements.

(** ** Extraction *)

Lemma slice_len_unit (B b : Z) : 0 <= b < B -> slice_len B (Sl b (b + 1)) = 1.
Proof.
  intros H. unfold slice_len, slice_bound.
  replace (b + 1 <? 0) with false by (symmetry; apply Z.ltb_ge; lia).
  replace (b <? 0) with false by (symmetry; apply Z.ltb_ge; lia). lia.
Qed.

Lemma slice_len_window (i r s e : Z) :
  0 <= s -> e = s + r -> e <= i -> 0 <= r -> slice_len i (Sl s e) = r.
Proof.
  intros Hs -> He Hr. unfold slice_len, slice_bound.
  replace (s + r <? 0) with false by (symmetry; apply Z.ltb_ge; lia).
  replace (s <? 0) with false by (symmetry; apply Z.ltb_ge; lia). lia.
Qed.

Lemma valid_window_length image roi win :
  length image = length roi -> valid_window image roi win -> length win = length roi.
Proof.
  intros Hlen H. apply Forall2_length in H. rewrite length_zip in H. lia.
Qed.

Lemma window_slice_lens (image roi : list Z) (win : list (Z * Z)) :
  Forall2 (fun i r => 0 < r <= i) image roi ->
  valid_window image roi win ->
  zip_with slice_len image ((fun se => Sl se.1 se.2) <$> win) = roi.
Proof.
  intros Hir. unfold valid_window. revert win.
  induction Hir as [|i r image roi Hr _ IH]; intros win Hw; simpl in *.
  - reflexivity.
  - inversion Hw as [|[s e] ? win' ? (Hs & He & Hle) Hw']; subst. simpl in *.
    f_equal; [apply slice_len_window; lia|apply IH; assumption].
Qed.

Lemma getitem_window (B C b : Z) (image roi : list Z) (win : list (Z * Z)) :
  Forall2 (fun i r => 0 < r <= i) image roi ->
  valid_window image roi win -> 0 <= b < B ->
  getitem_shape (B :: C :: image) (full_index (b, win)) = Ok (1 :: C :: roi).
Proof.
  intros Hir Hw Hb. pose proof (Forall2_length _ _ _ Hir) as Hlen.
  pose proof (valid_window_length _ _ _ Hlen Hw) as Hwl.
  unfold getitem_shape, full_index. cbn [fst snd length app].
  rewrite length_fmap.
  replace (S (S (length image)) <? S (S (length win)))%nat with false
    by (symmetry; apply Nat.ltb_ge; lia).
  cbn [zip_with drop]. rewrite drop_ge by lia. rewrite app_nil_r.
  rewrite slice_len_unit by assumption. cbn [slice_len].
  rewrite (window_slice_lens _ _ _ Hir Hw). reflexivity.
Qed.

Lemma res_map_ok {A B} (f : A -> Res B) (g : A -> B) (l : list A) :
  Forall (fun a => f a = Ok (g a)) l -> res_map f l = Ok (g <$> l).
Proof.
  induction 1 as [|a l Ha _ IH]; [reflexivity|].
  simpl. rewrite Ha. simpl. rewrite IH. reflexivity.
Qed.

Lemma res_map_Forall2_ok {A B} (f : A -> Res B) (l : list A) (k : list B) :
  Forall2 (fun a b => f a = Ok b) l k -> res_map f l = Ok k.
Proof. apply res_map_Forall2. Qed.

Lemma cat_copies (C : Z) (rest : list Z) (k : nat) :
  (0 < k)%nat ->
  Torch.cat (replicate k (1 :: C :: rest)) = Ok (Z.of_nat k :: C :: rest).
Proof.
  destruct k as [|k]; [lia|]. intros _. unfold Torch.cat. cbn [replicate].
  assert (Hall : forallb (fun s => bool_decide (tail s = C :: rest)
                                   && negb (bool_decide (s = [])))
                         (replicate k (1 :: C :: rest)) = true).
  { induction k as [|k IH]; [reflexivity|]. simpl.
    rewrite bool_decide_eq_true_2 by reflexivity. simpl. exact IH. }
  rewrite Hall. f_equal. f_equal.
  change (1 :: C :: rest) with (1 :: (C :: rest)).
  generalize (C :: rest). intros r. clear.
  change (foldr Z.add 0 (default 0 ∘ head <$> replicate (S k) (1 :: r)) = Z.of_nat (S k)).
  generalize (S k). clear k. intros k.
  induction k as [|k IH]; [reflexivity|].
  cbn [replicate]. rewrite fmap_cons. cbn [foldr]. rewrite IH.
  unfold compose. cbn [head default]. unfold id. lia.
Qed.

Section Extraction.

Context (p : Plan) (B C : Z) (img_ : list Z) (overlap : Q).
Hypothesis facts : PlanFacts p B C img_ overlap.
Hypothesis positive : Forall (fun d => 0 < d) img_.
Hypothesis spatial : img_ <> [].

(** A group of work units is cut out of the padded image as one batch of
    windows, each of the window's size. *)
Lemma extract_ok (slice_range : list Z) :
  slice_range <> [] ->
  Forall (fun idx => 0 <= idx < total_slices p) slice_range ->
  exists unravel_slice,
    extract p slice_range
    = Ok (unravel_slice, Z.of_nat (length slice_range) :: C :: roi_size p)
    /\ Forall2 (fun idx u => unravel p idx = Ok u) slice_range unravel_slice.
Proof.
  intros Hne Hall.
  assert (Hun : exists us, Forall2 (fun idx u => unravel p idx = Ok u) slice_range us).
  { clear Hne. induction Hall as [|idx l Hidx _ IH].
    - exists []. constructor.
    - destruct IH as [us Hus].
      destruct (unravel_ok p B C img_ overlap facts positive spatial idx Hidx)
        as (win & Hu & _).
      eexists (_ :: us). constructor; eassumption. }
  destruct Hun as [us Hus]. exists us. split; [|assumption].
  unfold extract. rewrite (res_map_Forall2_ok _ _ _ Hus). cbn [rbind].
  assert (Hpieces : res_map (fun u => getitem_shape (shape (padded p)) (full_index u)) us
                    = Ok (replicate (length slice_range) (1 :: C :: roi_size p))).
  { apply res_map_Forall2_ok. clear Hne.
    induction Hus as [|idx u l us' Hu _ IH]; [constructor|].
    inversion Hall as [|? ? Hidx Hall']; subst. simpl. constructor; [|apply IH; assumption].
    destruct (unravel_ok p B C img_ overlap facts positive spatial idx Hidx)
      as (win & Hu' & _ & Hvalid & Hb).
    rewrite Hu in Hu'. injection Hu' as ->.
    rewrite (pf_padded _ _ _ _ _ facts).
    apply getitem_window; [|assumption..].
    apply (image_vs_roi p B C img_ overlap facts positive). }
  rewrite Hpieces. cbn [rbind].
  rewrite cat_copies; [reflexivity|].
  destruct slice_range; [congruence|simpl; lia].
Qed.

End Extraction.

(** ** The shape assertions of the batch executor *)

Lemma py_range_unit (a b : Z) :
  py_range a b 1 = Ok ((fun i => a + i * 1) <$> zrange (b - a)).
Proof.
  unfold py_range. simpl.
  replace (b - a + 1 - 1) with (b - a) by lia. rewrite Z.div_1_r. reflexivity.
Qed.

Lemma py_range_step (a b step : Z) :
  0 < step ->
  py_range a b step = Ok ((fun i => a + i * step) <$> zrange ((b - a + step - 1) / step)).
Proof.
  intros H. unfold py_range.
  replace (step =? 0) with false by (symmetry; apply Z.eqb_neq; lia).
  replace (step <? 0) with false by (symmetry; apply Z.ltb_ge; lia).
  reflexivity.
Qed.

Lemma zrange_pos (n : Z) : 0 < n -> zrange n = 0 :: (Z.of_nat <$> seq 1 (Z.to_nat n - 1)).
Proof.
  intros H. unfold zrange.
  replace (Z.to_nat n) with (S (Z.to_nat n - 1)) at 1 by lia. reflexivity.
Qed.

Lemma elem_of_zrange (n i : Z) : i ∈ zrange n <-> 0 <= i < n.
Proof.
  unfold zrange. rewrite list_elem_of_fmap. split.
  - intros (k & -> & Hk). apply elem_of_seq in Hk. lia.
  - intros H. exists (Z.to_nat i). split; [lia|]. apply elem_of_seq. lia.
Qed.

(** The work units of the group that starts at [g]. *)
Lemma group_range (g sw total : Z) :
  0 <= g < total -> 0 < sw ->
  let l := (fun i => g + i * 1) <$> zrange (Z.min (g + sw) total - g) in
  py_range g (Z.min (g + sw) total) 1 = Ok l
  /\ l <> []
  /\ Forall (fun idx => g <= idx < Z.min (g + sw) total) l.
Proof.
  intros Hg Hsw l. split; [apply py_range_unit|]. split.
  - subst l. rewrite zrange_pos by lia. discriminate.
  - apply Forall_forall. intros idx (i & -> & Hi%elem_of_zrange)%list_elem_of_fmap. lia.
Qed.

Lemma interpolate_no_assertion s size :
  Torch.interpolate_bicubic s size <> Raise AssertionError.
Proof.
  unfold Torch.interpolate_bicubic.
  repeat match goal with |- context [if ?b then _ else _] => destruct b end; discriminate.
Qed.

(** C10. In a 2-D call that reaches the batch executor, a window whose two
    sides differ makes the call end in an [AssertionError] with no predictor
    invocation and no warning; a square window passes both assertions. *)
Theorem C10_non_square_window_fails_the_shape_assertion {PS}
    (predictor : PS -> list Z -> Res PredOut * PS) gaussian_map inputs roi_arg
    input_size sw_batch_size overlap mode sigma_scale padding_mode roi_weight_map
    (w : World PS) (p : Plan) (B C H W : Z) :
  shape inputs = [B; C; H; W] -> 0 < B -> 0 < H -> 0 < W -> 0 < sw_batch_size ->
  plan gaussian_map inputs roi_arg overlap mode sigma_scale padding_mode roi_weight_map
    = Ok p ->
  exists r0 r1,
    roi_size p = [r0; r1]
    /\ (r0 <> r1 ->
        sliding_window_inference predictor gaussian_map inputs roi_arg input_size
          sw_batch_size overlap mode sigma_scale padding_mode false roi_weight_map w
        = (Raise AssertionError, w))
    /\ (r0 = r1 ->
        forall nb, check_and_resize p input_size [nb; C; r0; r1] <> Raise AssertionError).
Proof.
  intros Hs HB HH HW Hsw Hp.
  pose proof (plan_facts _ _ _ _ _ _ _ _ _ _ _ _ Hs Hp) as facts.
  assert (positive : Forall (fun d => 0 < d) [H; W]) by (repeat constructor; assumption).
  assert (spatial : [H; W] <> []) by discriminate.
  pose proof (pf_roi_len _ _ _ _ _ facts) as Hlen.
  destruct (roi_size p) as [|r0 [|r1 [|? ?]]] eqn:Hroi; try discriminate.
  exists r0, r1. split; [reflexivity|]. split.
  - intros Hne. unfold sliding_window_inference, bind, lift. rewrite Hp.
    unfold run_batches, bind, lift.
    pose proof (num_win_pos p B C _ overlap facts positive spatial) as Hnw.
    assert (Htot : 0 < total_slices p) by (rewrite (pf_total _ _ _ _ _ facts); nia).
    rewrite py_range_step by assumption.
    rewrite zrange_pos by (apply Z.div_str_pos; lia).
    cbn [fmap list_fmap for_each]. unfold bind at 1.
    unfold batch_step at 1. unfold bind at 1, lift at 1.
    destruct (group_range 0 sw_batch_size (total_slices p) ltac:(lia) Hsw)
      as (Hrange & Hnil & Hall).
    replace (0 + 0 * sw_batch_size) with 0 by lia.
    rewrite Hrange.
    destruct (extract_ok p B C _ overlap facts positive spatial _ Hnil) as (us & Hex & _).
    { eapply Forall_impl; [exact Hall|]. simpl. intros; lia. }
    unfold bind at 1, lift at 1. rewrite Hex.
    unfold bind at 1, lift at 1. cbn [fst snd].
    unfold check_and_resize. rewrite Hroi. cbn [py_index lookup list_lookup rbind].
    replace (r0 =? r1) with false by (symmetry; apply Z.eqb_neq; assumption).
    reflexivity.
  - intros <- nb. unfold check_and_resize. rewrite Hroi.
    cbn [py_index lookup list_lookup rbind]. rewrite Z.eqb_refl. cbn [negb].
    destruct input_size as [n|isz]; [discriminate|].
    destruct isz as [|i0 [|i1 rest]]; try discriminate.
    unfold py_index. cbn [lookup list_lookup rbind].
    match goal with
    | |- (if ?b then _ else _) <> _ =>
        destruct b; [apply interpolate_no_assertion|discriminate]
    end.
Qed.

(** A 10x10 image with a 4x6 window. *)
Lemma C10_witness :
  sliding_window_inference same_shape no_gaussian (plain [1; 1; 10; 10])
    (Monai.SSeq [4; 6]) (Monai.SSeq [4; 6]) 4 (1 # 2) Monai.CONSTANT (1 # 8)
    Torch.PAD_CONSTANT false None (initial_world tt)
  = (Raise AssertionError, initial_world tt).
Proof.
  destruct (plan no_gaussian (plain [1; 1; 10; 10]) (Monai.SSeq [4; 6]) (1 # 2)
              Monai.CONSTANT (1 # 8) Torch.PAD_CONSTANT None) as [p|e] eqn:Hp;
    [|vm_compute in Hp; discriminate].
  destruct (C10_non_square_window_fails_the_shape_assertion same_shape no_gaussian
              (plain [1; 1; 10; 10]) (Monai.SSeq [4; 6]) (Monai.SSeq [4; 6]) 4 (1 # 2)
              Monai.CONSTANT (1 # 8) Torch.PAD_CONSTANT None (initial_world tt)
              p 1 1 10 10 eq_refl ltac:(lia) ltac:(lia) ltac:(lia) ltac:(lia) Hp)
    as (r0 & r1 & Hroi & Hfail & _).
  apply Hfail.
  assert (Hr : roi_size p = [4; 6]).
  { revert Hp. vm_compute. intros [= <-]. reflexivity. }
  rewrite Hr in Hroi. injection Hroi as <- <-. lia.
Defined.

(** ** Zoom arithmetic *)

Lemma zoom_bound_div (x o r : Z) :
  0 <= x -> 0 <= o -> 0 < r -> zoom_bound x (inject_Z o / inject_Z r) = x * o / r.
Proof.
  intros Hx Ho Hr. unfold zoom_bound. rewrite py_int_floor.
  - destruct r as [|rp|rp]; try lia.
    unfold Qfloor, Qdiv, Qmult, Qinv, inject_Z. simpl.
    rewrite Z.mul_1_r. reflexivity.
  - apply Qmult_le_0_compat; [unfold Qle; simpl; lia|].
    apply Qle_shift_div_l; [unfold Qlt; simpl; lia|].
    rewrite Qmult_0_l. unfold Qle. simpl. lia.
Qed.

Lemma zoom_stop (s o r : Z) : 0 < r -> (s + r) * o / r = s * o / r + o.
Proof.
  intros Hr. replace ((s + r) * o) with (s * o + o * r) by lia.
  apply Z.div_add. lia.
Qed.

Lemma zoom_mono (a b o r : Z) : 0 < r -> 0 <= o -> a <= b -> a * o / r <= b * o / r.
Proof. intros Hr Ho Hab. apply Z.div_le_mono; [lia|nia]. Qed.

Lemma head_zoom_length (roi o : list Z) :
  length o = length roi -> length (head_zoom roi o) = length roi.
Proof. intros H. unfold head_zoom. rewrite length_zip_with. lia. Qed.

Lemma head_fits_intro (roi o : list Z) :
  length o = length roi -> Forall (fun d => 0 < d) o -> Forall (fun d => 0 < d) roi ->
  head_fits roi o.
Proof.
  intros Hlen Ho. revert roi Hlen. induction Ho as [|d o Hd _ IH]; intros [|r roi] Hlen Hr;
    try discriminate; [constructor|].
  inversion Hr; subst. constructor; [lia|]. apply IH; [simpl in Hlen; lia|assumption].
Qed.

Lemma buffer_dims_cons (i r o : Z) (image roi os : list Z) :
  buffer_dims (i :: image) (r :: roi) (o :: os)
  = zoom_bound i (inject_Z o / inject_Z r) :: buffer_dims image roi os.
Proof. reflexivity. Qed.

(** The accumulator is at least as large as the head. *)
Lemma buffer_vs_head (image roi o : list Z) :
  Forall2 (fun i r => 0 < r <= i) image roi -> head_fits roi o ->
  Forall2 (fun b o_k => 0 < o_k <= b) (buffer_dims image roi o) o.
Proof.
  intros Hir. revert o. induction Hir as [|i r image roi Hr _ IH]; intros o Ho.
  - inversion Ho. constructor.
  - inversion Ho as [|ok ? os ? [Hok _] Hos]; subst.
    rewrite buffer_dims_cons. constructor; [|apply IH; assumption].
    rewrite zoom_bound_div by lia. split; [lia|].
    replace ok with (r * ok / r) at 1 by (rewrite Z.mul_comm; apply Z.div_mul; lia).
    apply zoom_mono; lia.
Qed.

(** A placement remapped to a head lies in the head's accumulator and has
    the head's size. *)
Lemma zoomed_window_valid (image roi o : list Z) (win : list (Z * Z)) :
  Forall2 (fun i r => 0 < r <= i) image roi -> head_fits roi o ->
  valid_window image roi win ->
  valid_window (buffer_dims image roi o) o (zoomed_roi win (head_zoom roi o)).
Proof.
  intros Hir. unfold valid_window. revert o win.
  induction Hir as [|i r image roi Hr _ IH]; intros o win Ho Hw.
  - inversion Ho; subst. inversion Hw; subst. constructor.
  - inversion Ho as [|ok ? os ? [Hok _] Hos]; subst.
    simpl in Hw. inversion Hw as [|[s e] ? win' ? (Hs & He & Hle) Hw']; subst.
    simpl in Hs, He, Hle. subst e.
    rewrite buffer_dims_cons. cbn [head_zoom zoomed_roi zip_with zip fst snd].
    constructor; [|apply IH; assumption].
    cbn [fst snd]. rewrite !zoom_bound_div by lia.
    rewrite zoom_stop by lia. split; [apply Z.div_pos; nia|]. split; [reflexivity|].
    rewrite <- zoom_stop by lia. apply zoom_mono; lia.
Qed.

(** ** Coverage *)

Lemma last_true (Q : nat -> Prop) (dec : forall n, Decision (Q n)) (n : nat) :
  Q 0%nat -> exists d, (d <= n)%nat /\ Q d /\ (d = n \/ ~ Q (S d)).
Proof.
  intros H0. induction n as [|n IH].
  - exists 0%nat. split; [lia|]. split; [assumption|left; reflexivity].
  - destruct (dec (S n)) as [Hn|Hn].
    + exists (S n). split; [lia|]. split; [assumption|left; reflexivity].
    + destruct IH as (d & Hd & HQ & Hlast). exists d. split; [lia|]. split; [assumption|].
      destruct Hlast as [->|Hlast]; right; assumption.
Qed.

(** On one axis every position of a head's accumulator lies in the remapped
    extent of some placement. *)
Lemma axis_cover (img r o : Z) (overlap : Q) (y : Z) :
  0 < r <= img -> 0 < o -> (0 <= overlap)%Q -> (overlap < 1)%Q ->
  0 <= y < img * o / r ->
  exists s, s ∈ Monai.dim_starts img r (Monai.scan_interval_axis img r overlap)
            /\ s * o / r <= y < (s + r) * o / r.
Proof.
  intros Hr Ho Ho0 Ho1 Hy.
  destruct (scan_interval_axis_spec img r overlap ltac:(lia) Ho0 Ho1) as [_ HI].
  set (I := Monai.scan_interval_axis img r overlap) in *.
  destruct (dim_starts_spec img r I HI ltac:(lia)) as (d0 & Hleast & Hreach & ->).
  set (t := fun d : nat => if (d <? d0)%nat then Z.of_nat d * I else img - r).
  assert (Hin : forall d, (d <= d0)%nat ->
                  t d ∈ ((fun d => Z.of_nat d * I) <$> seq 0 d0) ++ [img - r]).
  { intros d Hd. subst t. simpl. rewrite elem_of_app.
    destruct (d <? d0)%nat eqn:E.
    - apply Nat.ltb_lt in E. left. apply list_elem_of_fmap. exists d.
      split; [reflexivity|]. apply elem_of_seq. lia.
    - right. apply list_elem_of_singleton. reflexivity. }
  assert (Ht0 : t 0%nat * o / r <= y).
  { subst t. cbv beta. destruct (0 <? d0)%nat eqn:E.
    - change (Z.of_nat 0) with 0. rewrite !Z.mul_0_l, Z.div_0_l by lia. lia.
    - apply Nat.ltb_ge in E. assert (d0 = 0%nat) by lia. subst d0.
      change (Z.of_nat 0) with 0 in Hreach.
      replace (img - r) with 0 by lia. rewrite Z.mul_0_l, Z.div_0_l by lia. lia. }
  destruct (last_true (fun d => t d * o / r <= y) (fun d => Z_le_dec _ _) d0 Ht0)
    as (d & Hd & Hle & Hlast).
  exists (t d). split; [apply Hin; assumption|]. split; [assumption|].
  destruct Hlast as [->|Hnext].
  - subst t. simpl. rewrite Nat.ltb_irrefl.
    replace (img - r + r) with img by lia. lia.
  - apply Z.lt_le_trans with (t (S d) * o / r); [lia|].
    apply zoom_mono; [lia..|].
    assert (Hdlt : (d < d0)%nat).
    { destruct (decide (d = d0)) as [->|]; [|lia].
      exfalso. apply Hnext. subst t. simpl.
      replace (S d0 <? d0)%nat with false by (symmetry; apply Nat.ltb_ge; lia).
      simpl in Hle. rewrite Nat.ltb_irrefl in Hle. exact Hle. }
    subst t. simpl. replace (d <? d0)%nat with true by (symmetry; apply Nat.ltb_lt; lia).
    destruct (S d <? d0)%nat eqn:E.
    + lia.
    + apply Nat.ltb_ge in E. assert (d0 = S d) by lia. subst d0. lia.
Qed.

Lemma cover (image roi o : list Z) (overlap : Q) (y : list Z) :
  Forall2 (fun i r => 0 < r <= i) image roi -> head_fits roi o ->
  (0 <= overlap)%Q -> (overlap < 1)%Q ->
  Forall2 (fun y_k b => 0 <= y_k < b) y (buffer_dims image roi o) ->
  exists x, x ∈ cart (axis_starts image roi overlap)
            /\ in_window y (zoomed_roi (zip_with (fun s r => (s, s + r)) x roi)
                                       (head_zoom roi o)).
Proof.
  intros Hir Ho Ho0 Ho1. revert o y Ho.
  induction Hir as [|i r image roi Hr _ IH]; intros o y Ho Hy.
  - inversion Ho; subst. inversion Hy; subst. exists []. split; [|constructor].
    simpl. apply list_elem_of_singleton. reflexivity.
  - inversion Ho as [|ok ? os ? [Hok _] Hos]; subst.
    rewrite buffer_dims_cons in Hy.
    inversion Hy as [|yk ? ys ? Hyk Hys]; subst.
    rewrite zoom_bound_div in Hyk by lia.
    destruct (axis_cover i r ok overlap yk Hr Hok Ho0 Ho1 Hyk) as (s & Hs & Hcov).
    destruct (IH os ys Hos Hys) as (x & Hx & Hwin).
    assert (Hs0 : 0 <= s) by (apply dim_starts_bounds in Hs; [lia|assumption..]).
    exists (s :: x). split.
    + apply elem_of_cart. constructor; [assumption|]. apply elem_of_cart. assumption.
    + cbn [zip_with head_zoom zoomed_roi]. constructor; [|exact Hwin].
      cbn [fst snd]. rewrite !zoom_bound_div by lia. exact Hcov.
Qed.

(** ** The steps of the accumulator *)

Lemma quiet_refl {PS} (w : World PS) : quiet w w.
Proof. split; reflexivity. Qed.

Lemma quiet_trans {PS} (w1 w2 w3 : World PS) : quiet w1 w2 -> quiet w2 w3 -> quiet w1 w3.
Proof. intros [H1 H2] [H3 H4]. split; congruence. Qed.

Lemma zoom_scales_ok {PS} (ss axis : nat) (image roi o : list Z) (w : World PS) :
  Forall2 (fun i r => 0 < r <= i) image roi -> head_fits roi o ->
  exists w', zoom_scales ss axis (zip (zip image o) roi) w = (Ok (head_zoom roi o), w')
             /\ quiet w w'.
Proof.
  intros Hir. revert o axis w. induction Hir as [|i r image roi Hr _ IH]; intros o axis w Ho.
  - inversion Ho; subst. exists w. split; [reflexivity|apply quiet_refl].
  - inversion Ho as [|ok ? os ? [Hok _] Hos]; subst.
    cbn [zip zip_with zoom_scales]. unfold bind at 1, lift at 1, py_div.
    replace (r =? 0) with false by (symmetry; apply Z.eqb_neq; lia).
    unfold bind at 1.
    destruct (is_integer _).
    + unfold ret at 1. unfold bind at 1.
      destruct (IH os (S axis) w Hos) as (w' & Hz & Hq). rewrite Hz.
      exists w'. split; [reflexivity|assumption].
    + unfold warn at 1. unfold bind at 1.
      match goal with
      | |- context [zoom_scales ss (S axis) _ ?w1] =>
          destruct (IH os (S axis) w1 Hos) as (w' & Hz & Hq); rewrite Hz
      end.
      exists w'. split; [reflexivity|].
      eapply quiet_trans; [|exact Hq]. split; reflexivity.
Qed.

Lemma fall_back_same (d u : list Z) :
  Forall2 (fun u_k d_k => 0 < u_k /\ 0 < d_k) u d ->
  zip_with (fun d_k u_k => if 0 <? u_k then u_k else d_k) d u = u.
Proof.
  induction 1 as [|uk dk u d [Hu _] _ IH]; [reflexivity|].
  simpl. rewrite IH. replace (0 <? uk) with true by (symmetry; apply Z.ltb_lt; lia).
  reflexivity.
Qed.

Lemma forallb_positive (l : list Z) : Forall (fun d => 0 < d) l -> forallb (Z.ltb 0) l = true.
Proof.
  induction 1 as [|d l Hd _ IH]; [reflexivity|].
  simpl. rewrite IH. replace (0 <? d) with true by (symmetry; apply Z.ltb_lt; lia).
  reflexivity.
Qed.

Lemma head_fits_roi_positive (roi o : list Z) :
  head_fits roi o -> Forall (fun d => 0 < d) roi /\ Forall (fun d => 0 < d) o
                     /\ length o = length roi.
Proof.
  induction 1 as [|ok rk o roi [Ho Hr] _ (IH1 & IH2 & IH3)].
  - repeat split; constructor.
  - repeat split; try constructor; try assumption. simpl. lia.
Qed.

(** The importance map resampled to a head keeps its floor. *)
Lemma resize_nearest_ok (imp : WeightMap) (roi o : list Z) (least : Q) :
  wshape imp = roi -> head_fits roi o -> (1 <= length roi <= 3)%nat ->
  (forall x, (least <= wval imp x)%Q) ->
  exists imz, MonaiResize.resize_nearest imp o = Ok imz
              /\ wshape imz = o /\ forall x, (least <= wval imz x)%Q.
Proof.
  intros Hshape Ho Hrank Hfloor.
  destruct (head_fits_roi_positive _ _ Ho) as (Hrpos & Hopos & Hlen).
  unfold MonaiResize.resize_nearest. rewrite Hshape, Hlen.
  rewrite Nat.ltb_irrefl, Nat.sub_diag. cbn [replicate]. rewrite app_nil_r.
  rewrite (fall_back_same roi o Ho).
  destruct (bool_decide (roi = o)) eqn:E.
  - apply bool_decide_eq_true in E. subst o. eexists. split; [reflexivity|].
    split; [reflexivity|]. intros x. apply Hfloor.
  - replace ((1 <=? length roi)%nat && (length roi <=? 3)%nat) with true.
    2:{ symmetry. apply andb_true_iff. split; apply Nat.leb_le; lia. }
    cbn [negb]. rewrite (forallb_positive _ Hrpos). cbn [negb].
    eexists. split; [reflexivity|]. split; [reflexivity|]. intros x. apply Hfloor.
Qed.

Lemma broadcast_rev_prefix (l t : list Z) : Torch.broadcast_rev l (l ++ t) = Ok (l ++ t).
Proof.
  induction l as [|x l IH]; [reflexivity|].
  simpl. rewrite IH. simpl. rewrite Z.eqb_refl. reflexivity.
Qed.

Lemma broadcast_item (c : Z) (o : list Z) : Torch.broadcast o (c :: o) = Ok (c :: o).
Proof.
  unfold Torch.broadcast. rewrite reverse_cons, broadcast_rev_prefix. simpl.
  rewrite reverse_app, reverse_involutive. reflexivity.
Qed.

Lemma expandable_prefix (l t1 t2 : list Z) :
  forallb (fun '(a, b) => (a =? b) || (a =? 1)) (zip t1 t2) = true ->
  forallb (fun '(a, b) => (a =? b) || (a =? 1)) (zip (l ++ t1) (l ++ t2)) = true.
Proof.
  intros H. induction l as [|x l IH]; [assumption|].
  simpl. rewrite Z.eqb_refl. simpl. exact IH.
Qed.

Lemma expandable_item (c : Z) (o : list Z) : Torch.expandable (c :: o) (1 :: c :: o) = true.
Proof.
  unfold Torch.expandable. apply andb_true_iff. split; [apply Nat.leb_le; simpl; lia|].
  rewrite !reverse_cons, <- app_assoc. apply expandable_prefix. simpl.
  rewrite Z.eqb_refl. reflexivity.
Qed.

Lemma expandable_weights (d0 : Z) (o : list Z) :
  Torch.expandable ([1; 1] ++ o) (d0 :: 1 :: o) = true.
Proof.
  unfold Torch.expandable. apply andb_true_iff. split; [apply Nat.leb_le; simpl; lia|].
  cbn [app]. rewrite !reverse_cons, <- !app_assoc. apply expandable_prefix. simpl.
  rewrite orb_true_r. reflexivity.
Qed.

Lemma getitem_placement (D C b : Z) (image roi : list Z) (win : list (Z * Z)) :
  Forall2 (fun i r => 0 < r <= i) image roi ->
  valid_window image roi win ->
  getitem_shape (D :: C :: image) (full_index (b, win))
  = Ok (slice_len D (Sl b (b + 1)) :: C :: roi).
Proof.
  intros Hir Hw. pose proof (Forall2_length _ _ _ Hir) as Hlen.
  pose proof (valid_window_length _ _ _ Hlen Hw) as Hwl.
  unfold getitem_shape, full_index. cbn [fst snd length app].
  rewrite length_fmap.
  replace (S (S (length image)) <? S (S (length win)))%nat with false
    by (symmetry; apply Nat.ltb_ge; lia).
  cbn [zip_with drop]. rewrite drop_ge by lia. rewrite app_nil_r.
  cbn [slice_len]. rewrite (window_slice_lens _ _ _ Hir Hw). reflexivity.
Qed.

Lemma slice_bound_inside (n i : Z) : 0 <= i <= n -> slice_bound n i = i.
Proof.
  intros H. unfold slice_bound.
  replace (i <? 0) with false by (symmetry; apply Z.ltb_ge; lia). lia.
Qed.

Lemma in_slices_placement (bd o : list Z) (zoomed : list (Z * Z)) (y : list Z) :
  valid_window bd o zoomed -> Forall (fun d => 0 <= d) o -> in_window y zoomed ->
  in_slices (1 :: 1 :: bd) (full_index (0, zoomed)) (0 :: 0 :: y) = true.
Proof.
  intros Hv Ho Hy. unfold in_slices, full_index. cbn [fst snd app zip zip_with forallb].
  change (slice_lo 1 (Sl 0 (0 + 1)) <=? 0) with true.
  change (0 <? slice_hi 1 (Sl 0 (0 + 1))) with true.
  change (slice_lo 1 SlAll <=? 0) with true.
  change (0 <? slice_hi 1 SlAll) with true.
  cbn [andb].
  unfold valid_window, in_window in *. revert bd o Hv Ho.
  induction Hy as [|yk [lo hi] y zoomed Hyk _ IH]; intros bd o Hv Ho.
  - destruct bd; reflexivity.
  - destruct bd as [|b bd]; [inversion Hv|]. destruct o as [|ok o]; [inversion Hv|].
    simpl in Hv. inversion Hv as [|? ? ? ? (Hlo & Hhi & Hle) Hv']; subst.
    inversion Ho; subst. simpl in *. subst hi.
    rewrite !slice_bound_inside by lia.
    replace (lo <=? yk) with true by (symmetry; apply Z.leb_le; lia).
    replace (yk <? lo + ok) with true by (symmetry; apply Z.ltb_lt; lia).
    simpl. eapply IH; eassumption.
Qed.

Lemma spatial_rank (l : list Z) : (2 <= length l <= 3)%nat -> l <> [].
Proof. intros H. destruct l; [simpl in H; lia|discriminate]. Qed.

Section Accumulation.

Context {PS : Type} (p : Plan) (B C : Z) (img_ : list Z) (overlap : Q) (least : Q).
Hypothesis facts : PlanFacts p B C img_ overlap.
Hypothesis positive : Forall (fun d => 0 < d) img_.
Hypothesis rank : (2 <= length img_ <= 3)%nat.
Hypothesis importance_shape : wshape (importance_map p) = roi_size p.
Hypothesis least_pos : (0 < least)%Q.
Hypothesis importance_floor : forall x, (least <= wval (importance_map p) x)%Q.

Let image := image_size p.
Let roi := roi_size p.

Lemma image_roi : Forall2 (fun i r => 0 < r <= i) image roi.
Proof. apply (image_vs_roi p B C img_ overlap facts positive). Qed.

Lemma add_output_ok (c nb k b : Z) (o : list Z) (win : list (Z * Z)) (imz : WeightMap) :
  head_fits roi o -> valid_window image roi win -> 0 <= b < B -> 0 <= k < nb ->
  wshape imz = o ->
  add_output (B :: c :: buffer_dims image roi o)
             (full_index (b, zoomed_roi win (head_zoom roi o))) imz (nb :: c :: o) k
  = Ok tt.
Proof.
  intros Ho Hw Hb Hk Himz. unfold add_output.
  rewrite (getitem_placement B c b _ o).
  - cbn [rbind]. replace ((0 <=? k) && (k <? nb)) with true.
    2:{ symmetry. apply andb_true_iff. split; [apply Z.leb_le|apply Z.ltb_lt]; lia. }
    cbn [rbind]. rewrite Himz, broadcast_item. cbn [rbind].
    rewrite slice_len_unit by assumption. rewrite expandable_item. reflexivity.
  - apply buffer_vs_head; [apply image_roi|assumption].
  - apply zoomed_window_valid; [apply image_roi|assumption..].
Qed.

Lemma add_weights_ok (cnt imz : WeightMap) (b : Z) (o : list Z) (win : list (Z * Z)) :
  head_fits roi o -> valid_window image roi win ->
  wshape cnt = 1 :: 1 :: buffer_dims image roi o -> wshape imz = o ->
  (forall x, (least <= wval imz x)%Q) ->
  exists cnt',
    add_weights cnt (full_index (b, zoomed_roi win (head_zoom roi o))) imz = Ok cnt'
    /\ wshape cnt' = wshape cnt
    /\ (forall x, (wval cnt x <= wval cnt' x)%Q)
    /\ (b = 0 -> forall y, in_window y (zoomed_roi win (head_zoom roi o)) ->
          Qle (Qplus (wval cnt (0 :: 0 :: y)) least) (wval cnt' (0 :: 0 :: y))).
Proof.
  intros Ho Hw Hshape Himz Hfloor. unfold add_weights. rewrite Hshape.
  pose proof (zoomed_window_valid image roi o win image_roi Ho Hw) as Hzv.
  rewrite (getitem_placement 1 1 b _ o);
    [|apply buffer_vs_head; [apply image_roi|assumption]|assumption].
  cbn [rbind]. rewrite Himz, expandable_weights.
  eexists. split; [reflexivity|]. split; [reflexivity|]. split.
  - intros x. cbn [wval]. destruct (in_slices _ _ x); [|apply Qle_refl].
    rewrite <- (Qplus_0_r (wval cnt x)) at 1. apply Qplus_le_r.
    apply Qle_trans with least; [apply Qlt_le_weak; assumption|apply Hfloor].
  - intros -> y Hy. cbn [wval].
    rewrite (in_slices_placement _ o _ y Hzv); [|..|assumption].
    + apply Qplus_le_r. apply Hfloor.
    + destruct (head_fits_roi_positive _ _ Ho) as (_ & Hop & _).
      eapply Forall_impl; [exact Hop|]. simpl. intros; lia.
Qed.

(** One placement of one head: the weighted prediction fits its region of
    the output accumulator and the count accumulator grows by the resampled
    importance map on that region. *)
Lemma accumulate_window_ok (g idx b nb c : Z) (j : nat) (o : list Z) (win : list (Z * Z))
    (acc : Acc) (cnt : WeightMap) (w : World PS) :
  head_fits roi o -> valid_window image roi win -> 0 <= b < B -> 0 <= idx - g < nb ->
  output_image_list acc !! j = Some (B :: c :: buffer_dims image roi o) ->
  count_map_list acc !! j = Some cnt ->
  wshape cnt = 1 :: 1 :: buffer_dims image roi o ->
  exists cnt' w',
    accumulate_window p g j (nb :: c :: o) (head_zoom roi o) (idx, (b, win)) acc w
    = (Ok (set_count acc j cnt'), w')
    /\ quiet w w'
    /\ wshape cnt' = wshape cnt
    /\ (forall x, (wval cnt x <= wval cnt' x)%Q)
    /\ (b = 0 -> forall y, in_window y (zoomed_roi win (head_zoom roi o)) ->
          Qle (Qplus (wval cnt (0 :: 0 :: y)) least) (wval cnt' (0 :: 0 :: y))).
Proof.
  intros Ho Hw Hb Hk Hout Hcnt Hshape.
  destruct (head_fits_roi_positive _ _ Ho) as (_ & _ & Hlen).
  unfold accumulate_window. cbn [fst snd].
  unfold bind at 1.
  pose proof (zoom_roi_from j 0 win (head_zoom roi o) w) as Hz.
  change (2 + 0)%nat with 2%nat in Hz. rewrite Hz; clear Hz.
  2:{ rewrite drop_0, head_zoom_length by assumption.
      rewrite (valid_window_length image roi win); [lia| |assumption].
      apply (Forall2_length _ _ _ image_roi). }
  rewrite drop_0.
  destruct (resize_nearest_ok (importance_map p) roi o least importance_shape Ho)
    as (imz & Hrz & Himz & Hfloor).
  { pose proof (pf_roi_len _ _ _ _ _ facts). subst roi. lia. }
  { assumption. }
  unfold bind at 1, lift at 1. cbn [drop]. rewrite drop_0, Hrz.
  unfold bind at 1, lift at 1, py_index. rewrite Hout.
  unfold bind at 1, lift at 1.
  rewrite (add_output_ok c nb (idx - g) b o win imz Ho Hw Hb Hk Himz).
  unfold bind at 1, lift at 1. rewrite Hcnt.
  destruct (add_weights_ok cnt imz b o win Ho Hw Hshape Himz Hfloor)
    as (cnt' & Hadd & Hs' & Hmono & Hcov).
  unfold bind at 1, lift at 1. rewrite Hadd. unfold ret.
  exists cnt'. eexists. split; [reflexivity|]. split; [split; reflexivity|].
  split; [assumption|]. split; assumption.
Qed.

End Accumulation.

(** ** Loops *)

(** A loop whose body keeps an invariant, indexed by the number of
    elements visited, runs to its end and establishes the invariant there. *)
Lemma for_each_inv {PS A St} (body : A -> St -> M PS St)
    (I : nat -> St -> World PS -> Prop) (l : list A) (s : St) (w : World PS) :
  I 0%nat s w ->
  (forall i a s w, l !! i = Some a -> I i s w ->
     exists s' w', body a s w = (Ok s', w') /\ I (S i) s' w') ->
  exists s' w', for_each l body s w = (Ok s', w') /\ I (length l) s' w'.
Proof.
  revert I s w. induction l as [|a l IH]; intros I s w H0 Hstep.
  - exists s, w. split; [reflexivity|assumption].
  - destruct (Hstep 0%nat a s w eq_refl H0) as (s1 & w1 & Hb & H1).
    destruct (IH (fun i => I (S i)) s1 w1 H1) as (s' & w' & Hf & Hl).
    { intros i x s2 w2 Hx Hi. apply (Hstep (S i) x s2 w2 Hx Hi). }
    exists s', w'. split; [|exact Hl].
    cbn [for_each]. unfold bind. rewrite Hb. exact Hf.
Qed.

Lemma count_ok_mono (p : Plan) (least : Q) (o : list Z) (upto upto' : Z) (cnt : WeightMap) :
  upto' <= upto -> count_ok p least o upto cnt -> count_ok p least o upto' cnt.
Proof.
  intros Hle (Hs & Hn & Hc). split; [assumption|]. split; [assumption|].
  intros idx win y Hidx. apply Hc. lia.
Qed.

Lemma acc_ok_ext (p : Plan) (least : Q) (hs : list (Z * list Z)) (k : nat)
    (u u' : nat -> Z) (acc : Acc) :
  (forall j, (j < length hs)%nat -> u' j = u j) ->
  acc_ok p least hs k u acc -> acc_ok p least hs k u' acc.
Proof.
  intros Hext (H1 & H2 & H3 & H4).
  split; [assumption|]. split; [assumption|]. split; [assumption|].
  intros j cnt h Hj Hh. rewrite Hext by (apply lookup_lt_Some in Hh; assumption).
  apply (H4 j cnt h Hj Hh).
Qed.

Lemma acc_ok_fields (p : Plan) (least : Q) (hs : list (Z * list Z)) (k : nat)
    (u : nat -> Z) (acc acc' : Acc) :
  output_image_list acc' = output_image_list acc ->
  count_map_list acc' = count_map_list acc ->
  _initialized_ss acc' = _initialized_ss acc ->
  acc_ok p least hs k u acc -> acc_ok p least hs k u acc'.
Proof. intros E1 E2 E3. unfold acc_ok. rewrite E1, E2, E3. tauto. Qed.

Section Loop.

Context {PS : Type} (p : Plan) (B C : Z) (img_ : list Z) (overlap : Q) (least : Q).
Context (hs : list (Z * list Z)).
Hypothesis facts : PlanFacts p B C img_ overlap.
Hypothesis positive : Forall (fun d => 0 < d) img_.
Hypothesis rank : (2 <= length img_ <= 3)%nat.
Hypothesis importance_shape : wshape (importance_map p) = roi_size p.
Hypothesis least_pos : (0 < least)%Q.
Hypothesis importance_floor : forall x, (least <= wval (importance_map p) x)%Q.
Hypothesis heads_fit : Forall (fun h => head_fits (roi_size p) h.2) hs.

Let image := image_size p.
Let roi := roi_size p.

Lemma buffer_lookup (k j : nat) (c : Z) (o : list Z) (u : nat -> Z) (acc : Acc) :
  acc_ok p least hs k u acc -> hs !! j = Some (c, o) -> (j < k)%nat ->
  output_image_list acc !! j = Some (B :: c :: buffer_dims image roi o)
  /\ exists cnt, count_map_list acc !! j = Some cnt /\ count_ok p least o (u j) cnt.
Proof.
  intros (Hout & _ & Hlen & Hcnt) Hh Hjk. split.
  - rewrite Hout, lookup_take_lt by assumption.
    rewrite list_lookup_fmap, Hh. cbn. rewrite (pf_batch _ _ _ _ _ facts). reflexivity.
  - destruct (count_map_list acc !! j) as [cnt|] eqn:E.
    + exists cnt. split; [reflexivity|]. apply (Hcnt j cnt (c, o) E Hh).
    + apply lookup_ge_None in E. lia.
Qed.

Lemma accumulate_step (g nb idx : Z) (j k : nat) (c : Z) (o : list Z) (u : nat -> Z)
    (un : Z * list (Z * Z)) (acc : Acc) (w : World PS) :
  acc_ok p least hs k u acc -> hs !! j = Some (c, o) -> (j < k)%nat -> u j = idx ->
  0 <= idx < total_slices p -> 0 <= idx - g < nb -> unravel p idx = Ok un ->
  exists acc' w',
    accumulate_window p g j (nb :: c :: o) (head_zoom roi o) (idx, un) acc w = (Ok acc', w')
    /\ quiet w w'
    /\ acc_ok p least hs k (upd u j (idx + 1)) acc'
    /\ dict_key acc' = dict_key acc /\ is_tensor_output acc' = is_tensor_output acc.
Proof.
  intros Hacc Hh Hjk Hu Hidx Hk Hun.
  destruct (buffer_lookup k j c o u acc Hacc Hh Hjk) as (Hout & cnt & Hcnt & Hok).
  destruct (unravel_ok p B C img_ overlap facts positive
              (spatial_rank img_ rank) idx Hidx)
    as (win & Hun' & Hwin & Hvalid & Hb).
  rewrite Hun in Hun'. injection Hun' as ->.
  assert (Ho : head_fits roi o).
  { apply (proj1 (Forall_forall _ _) heads_fit (c, o)).
    eapply list_elem_of_lookup_2. eassumption. }
  destruct Hok as (Hshape & Hnn & Hcov).
  destruct (accumulate_window_ok p B C img_ overlap least facts positive rank
              importance_shape least_pos importance_floor
              g idx (idx / num_win p) nb c j o win acc cnt w Ho Hvalid Hb Hk Hout Hcnt Hshape)
    as (cnt' & w' & Hrun & Hq & Hs' & Hmono & Hnew).
  exists (set_count acc j cnt'), w'. split; [exact Hrun|]. split; [exact Hq|].
  split; [|split; reflexivity].
  destruct Hacc as (Ha1 & Ha2 & Ha3 & Ha4).
  split; [exact Ha1|]. split; [exact Ha2|]. split.
  { cbn. rewrite length_insert. exact Ha3. }
  intros j' cnt0 h Hj' Hh'. unfold upd. cbn in Hj'.
  destruct (decide (j' = j)) as [->|Hne].
  - rewrite list_lookup_insert_eq in Hj' by (apply lookup_lt_Some in Hcnt; assumption).
    injection Hj' as <-. rewrite Hh in Hh'. injection Hh' as <-. cbn [snd].
    split; [congruence|]. split.
    + intros x. apply Qle_trans with (wval cnt x); [apply Hnn|apply Hmono].
    + intros idx' win' y Hidx' Hnw Hw' Hy.
      destruct (decide (idx' = idx)) as [->|Hlt].
      * assert (Hb0 : idx / num_win p = 0) by (apply Z.div_small; lia).
        assert (Hm : idx mod num_win p = idx) by (apply Z.mod_small; lia).
        rewrite Hm in Hwin. rewrite Hwin in Hw'. injection Hw' as <-.
        apply Qle_trans with (Qplus (wval cnt (0 :: 0 :: y)) least);
          [|apply (Hnew Hb0 y Hy)].
        rewrite <- (Qplus_0_l least) at 1. apply Qplus_le_l. apply Hnn.
      * apply Qle_trans with (wval cnt (0 :: 0 :: y)); [|apply Hmono].
        apply (Hcov idx' win' y); [lia|assumption..].
  - rewrite list_lookup_insert_ne in Hj' by congruence.
    apply (Ha4 j' cnt0 h Hj' Hh').
Qed.

Lemma windows_loop (g nb : Z) (j k : nat) (c : Z) (o : list Z) (u : nat -> Z)
    (us : list (Z * list (Z * Z))) (acc : Acc) (w : World PS) :
  acc_ok p least hs k u acc -> hs !! j = Some (c, o) -> (j < k)%nat -> u j = g ->
  0 <= nb -> 0 <= g -> g + nb <= total_slices p ->
  Forall2 (fun idx un => unravel p idx = Ok un)
          ((fun i => g + i * 1) <$> zrange nb) us ->
  exists acc' w',
    for_each (zip ((fun i => g + i * 1) <$> zrange nb) us)
             (accumulate_window p g j (nb :: c :: o) (head_zoom roi o)) acc w
    = (Ok acc', w')
    /\ quiet w w'
    /\ acc_ok p least hs k (upd u j (g + nb)) acc'
    /\ dict_key acc' = dict_key acc /\ is_tensor_output acc' = is_tensor_output acc.
Proof.
  intros Hacc Hh Hjk Hu Hnb Hg Htot Hus.
  destruct (for_each_inv
              (accumulate_window p g j (nb :: c :: o) (head_zoom roi o))
              (fun t acc' w' =>
                 quiet w w'
                 /\ acc_ok p least hs k (upd u j (g + Z.of_nat t)) acc'
                 /\ dict_key acc' = dict_key acc
                 /\ is_tensor_output acc' = is_tensor_output acc)
              (zip ((fun i => g + i * 1) <$> zrange nb) us) acc w)
    as (acc' & w' & Hrun & Hq & Hok & Hflags).
  - split; [apply quiet_refl|]. split; [|split; reflexivity].
    eapply acc_ok_ext; [|exact Hacc]. intros j' _. unfold upd.
    destruct (decide (j' = j)) as [->|]; [simpl; lia|reflexivity].
  - intros t [idx un] acc1 w1 Ht (Hq1 & Hok1 & Hd1 & Ht1).
    apply lookup_zip_with_Some in Ht as (idx' & un' & [= <- <-] & Hl & Hun).
    pose proof (Forall2_lookup_lr _ _ _ _ _ _ Hus Hl Hun) as Hunravel.
    rewrite list_lookup_fmap in Hl.
    destruct (zrange nb !! t) as [i|] eqn:Hi; [|discriminate].
    assert (Hlt : (t < Z.to_nat nb)%nat).
    { apply lookup_lt_Some in Hi. rewrite zrange_length in Hi. assumption. }
    rewrite zrange_lookup in Hi by assumption. injection Hi as <-.
    injection Hl as <-.
    destruct (accumulate_step g nb (g + Z.of_nat t * 1) j k c o
                (upd u j (g + Z.of_nat t)) un acc1 w1 Hok1 Hh Hjk)
      as (acc2 & w2 & Hstep & Hq2 & Hok2 & Hd2 & Ht2).
    { unfold upd. rewrite decide_True by reflexivity. lia. }
    { lia. }
    { lia. }
    { assumption. }
    exists acc2, w2. split; [exact Hstep|].
    split; [eapply quiet_trans; eassumption|]. split; [|split; congruence].
    eapply acc_ok_ext; [|exact Hok2]. intros j' _. unfold upd.
    destruct (decide (j' = j)); [lia|reflexivity].
  - exists acc', w'. split; [exact Hrun|]. split; [exact Hq|]. split; [|exact Hflags].
    eapply acc_ok_ext; [|exact Hok]. intros j' _. unfold upd.
    destruct (decide (j' = j)); [|reflexivity].
    rewrite length_zip_with, length_fmap, zrange_length.
    pose proof (Forall2_length _ _ _ Hus) as Hlen.
    rewrite length_fmap, zrange_length in Hlen. lia.
Qed.

Lemma take_snoc {A} (l : list A) (k : nat) (x : A) :
  l !! k = Some x -> take (S k) l = take k l ++ [x].
Proof. intros H. apply take_S_r. assumption. Qed.

(** One head of one batch: its accumulators are allocated if this is the
    first batch, and every placement of the batch is added to them. *)
Lemma process_head_ok (g nb : Z) (j k : nat) (c : Z) (o : list Z) (u : nat -> Z)
    (us : list (Z * list (Z * Z))) (acc : Acc) (w : World PS) :
  acc_ok p least hs k u acc -> hs !! j = Some (c, o) -> u j = g ->
  ((j < k)%nat \/ (j = k /\ g = 0)) ->
  0 <= nb -> 0 <= g -> g + nb <= total_slices p ->
  Forall2 (fun idx un => unravel p idx = Ok un)
          ((fun i => g + i * 1) <$> zrange nb) us ->
  exists acc' w',
    process_head p g ((fun i => g + i * 1) <$> zrange nb) us (nb :: C :: roi)
                 (j, nb :: c :: o) acc w
    = (Ok acc', w')
    /\ quiet w w'
    /\ acc_ok p least hs (Nat.max k (S j)) (upd u j (g + nb)) acc'
    /\ dict_key acc' = dict_key acc /\ is_tensor_output acc' = is_tensor_output acc.
Proof.
  intros Hacc Hh Hu Hcase Hnb Hg Htot Hus.
  assert (Ho : head_fits roi o).
  { apply (proj1 (Forall_forall _ _) heads_fit (c, o)).
    eapply list_elem_of_lookup_2. eassumption. }
  unfold process_head. cbn [drop].
  destruct (zoom_scales_ok j 0 image roi o w
              (image_vs_roi p B C img_ overlap facts positive) Ho)
    as (w1 & Hz & Hq1).
  unfold bind at 1. rewrite !drop_0. fold image. rewrite Hz.
  assert (Hinit : exists acc1,
             init_buffers p j (nb :: c :: o) (head_zoom roi o) acc = Ok acc1
             /\ acc_ok p least hs (Nat.max k (S j)) u acc1
             /\ dict_key acc1 = dict_key acc
             /\ is_tensor_output acc1 = is_tensor_output acc).
  { unfold init_buffers. destruct Hacc as (Ha1 & Ha2 & Ha3 & Ha4).
    destruct Hcase as [Hlt|[-> ->]].
    - replace (_initialized_ss acc <? Z.of_nat j) with false
        by (symmetry; apply Z.ltb_ge; lia).
      exists acc. split; [reflexivity|]. split; [|split; reflexivity].
      replace (Nat.max k (S j)) with k by lia.
      exact (conj Ha1 (conj Ha2 (conj Ha3 Ha4))).
    - replace (_initialized_ss acc <? Z.of_nat k) with true
        by (symmetry; apply Z.ltb_lt; lia).
      cbn [py_index lookup list_lookup rbind].
      eexists. split; [reflexivity|]. split; [|split; reflexivity].
      replace (Nat.max k (S k)) with (S k) by lia.
      split; [|split; [|split]]; cbn.
      + rewrite Ha1. symmetry. apply take_snoc.
        rewrite list_lookup_fmap, Hh. reflexivity.
      + rewrite Ha2. lia.
      + rewrite length_app, Ha3. simpl. lia.
      + intros j' cnt h Hj' Hh'.
        destruct (decide (j' = k)) as [->|Hne].
        * rewrite lookup_app_r in Hj' by lia. rewrite Ha3, Nat.sub_diag in Hj'.
          injection Hj' as <-. rewrite Hh in Hh'. injection Hh' as <-.
          split; [reflexivity|]. split; [intros x; apply Qle_refl|].
          intros idx win y Hidx. rewrite Hu in Hidx. lia.
        * assert (j' < k)%nat.
          { apply lookup_lt_Some in Hj'. rewrite length_app, Ha3 in Hj'. simpl in Hj'. lia. }
          rewrite lookup_app_l in Hj' by lia. apply (Ha4 j' cnt h Hj' Hh'). }
  destruct Hinit as (acc1 & Hinit & Hok1 & Hd1 & Ht1).
  unfold bind at 1, lift at 1. rewrite Hinit.
  destruct (windows_loop g nb j (Nat.max k (S j)) c o u us acc1 w1 Hok1 Hh
              ltac:(lia) Hu Hnb Hg Htot Hus)
    as (acc2 & w2 & Hloop & Hq2 & Hok2 & Hd2 & Ht2).
  exists acc2, w2. split; [exact Hloop|]. split; [eapply quiet_trans; eassumption|].
  split; [exact Hok2|]. split; congruence.
Qed.

(** All the heads of one batch. *)
Lemma heads_loop (g nb : Z) (k0 : nat) (us : list (Z * list (Z * Z))) (acc : Acc)
    (w : World PS) :
  acc_ok p least hs k0 (fun _ => g) acc ->
  (k0 = length hs \/ (k0 = 0%nat /\ g = 0)) ->
  0 <= nb -> 0 <= g -> g + nb <= total_slices p ->
  Forall2 (fun idx un => unravel p idx = Ok un)
          ((fun i => g + i * 1) <$> zrange nb) us ->
  exists acc' w',
    for_each (imap pair (expected_heads nb hs))
             (process_head p g ((fun i => g + i * 1) <$> zrange nb) us (nb :: C :: roi))
             acc w
    = (Ok acc', w')
    /\ quiet w w'
    /\ acc_ok p least hs (length hs) (fun _ => g + nb) acc'
    /\ dict_key acc' = dict_key acc /\ is_tensor_output acc' = is_tensor_output acc.
Proof.
  intros Hacc Hk0 Hnb Hg Htot Hus.
  destruct (for_each_inv
              (process_head p g ((fun i => g + i * 1) <$> zrange nb) us (nb :: C :: roi))
              (fun t acc' w' =>
                 quiet w w'
                 /\ acc_ok p least hs (Nat.max k0 t)
                      (fun j' => if (j' <? t)%nat then g + nb else g) acc'
                 /\ dict_key acc' = dict_key acc
                 /\ is_tensor_output acc' = is_tensor_output acc)
              (imap pair (expected_heads nb hs)) acc w)
    as (acc' & w' & Hrun & Hq & Hok & Hflags).
  - split; [apply quiet_refl|]. split; [|split; reflexivity].
    rewrite Nat.max_0_r. exact Hacc.
  - intros t [t' seg] acc1 w1 Ht (Hq1 & Hok1 & Hd1 & Ht1).
    rewrite list_lookup_imap in Ht. unfold expected_heads in Ht.
    rewrite list_lookup_fmap in Ht.
    destruct (hs !! t) as [[c o]|] eqn:Hh; [|discriminate].
    simpl in Ht. injection Ht as <- <-.
    destruct (process_head_ok g nb t (Nat.max k0 t) c o
                (fun j' => if (j' <? t)%nat then g + nb else g) us acc1 w1 Hok1 Hh)
      as (acc2 & w2 & Hstep & Hq2 & Hok2 & Hd2 & Ht2); try assumption.
    { rewrite Nat.ltb_irrefl. reflexivity. }
    { apply lookup_lt_Some in Hh. destruct Hk0 as [->|[-> ->]]; [left; lia|right; lia]. }
    exists acc2, w2. split; [exact Hstep|].
    split; [eapply quiet_trans; eassumption|]. split; [|split; congruence].
    replace (Nat.max k0 (S t)) with (Nat.max (Nat.max k0 t) (S t)) by lia.
    eapply acc_ok_ext; [|exact Hok2]. intros j' _. unfold upd.
    destruct (decide (j' = t)) as [->|Hne].
    + replace (t <? S t)%nat with true by (symmetry; apply Nat.ltb_lt; lia). reflexivity.
    + destruct (j' <? S t)%nat eqn:E1; destruct (j' <? t)%nat eqn:E2; try reflexivity.
      * apply Nat.ltb_lt in E1. apply Nat.ltb_ge in E2. lia.
      * apply Nat.ltb_ge in E1. apply Nat.ltb_lt in E2. lia.
  - exists acc', w'. split; [exact Hrun|]. split; [exact Hq|]. split; [|exact Hflags].
    rewrite length_imap in Hok. unfold expected_heads in Hok. rewrite length_fmap in Hok.
    replace (Nat.max k0 (length hs)) with (length hs) in Hok
      by (destruct Hk0 as [->|[-> _]]; lia).
    eapply acc_ok_ext; [|exact Hok]. intros j' Hj'. simpl.
    replace (j' <? length hs)%nat with true by (symmetry; apply Nat.ltb_lt; lia).
    reflexivity.
Qed.

End Loop.

Lemma mapM_lookup_res (m : gmap string (list Z)) (ks : list string) (heads : list (list Z)) :
  mapM (fun k => m !! k) ks = Some heads ->
  res_map (fun k => match m !! k with Some t => Ok t | None => Raise KeyError end) ks
  = Ok heads.
Proof.
  intros H. apply mapM_Some in H. apply res_map_Forall2.
  induction H as [|k t ks heads Hk _ IH]; constructor; [|assumption].
  rewrite Hk. reflexivity.
Qed.

(** The heads of an answer, and what the answer does to the flags. *)
Lemma to_tuple_ok (ks : list string) (tensor_only : bool) (out : PredOut)
    (heads : list (list Z)) (acc : Acc) :
  flags_ok ks tensor_only acc -> heads_of ks out = Some heads ->
  (tensor_only = true -> is_tensor out = true) ->
  exists acc', to_tuple out acc = Ok (heads, acc')
               /\ flags_ok ks tensor_only acc'
               /\ output_image_list acc' = output_image_list acc
               /\ count_map_list acc' = count_map_list acc
               /\ _initialized_ss acc' = _initialized_ss acc.
Proof.
  intros [Hkeys Honly] Hheads Hto. destruct out as [t|m|l]; simpl in Hheads.
  - injection Hheads as <-. exists acc. split; [reflexivity|].
    split; [split; assumption|]. repeat split.
  - destruct (decide (sorted_keys m = ks)) as [Hs|]; [|discriminate].
    unfold to_tuple.
    assert (Hk : match dict_key acc with Some keys => keys | None => sorted_keys m end = ks).
    { destruct Hkeys as [->|[-> _]]; [assumption|reflexivity]. }
    rewrite Hk, (mapM_lookup_res _ _ _ Hheads). cbn [rbind].
    eexists. split; [reflexivity|]. split; [|repeat split].
    split; [right; split; reflexivity|].
    intros Ht. specialize (Hto Ht). discriminate.
  - injection Hheads as <-. eexists. split; [reflexivity|]. split; [|repeat split].
    split; cbn.
    + destruct Hkeys as [H|[H _]]; [left; assumption|right; split; [assumption|reflexivity]].
    + intros Ht. specialize (Hto Ht). discriminate.
Qed.

Lemma groups_arith (total sw : Z) :
  0 < total -> 0 < sw ->
  let ng := (total - 0 + sw - 1) / sw in
  0 < ng /\ total <= ng * sw /\ (forall i, 0 <= i < ng -> i * sw < total).
Proof.
  intros Ht Hs ng.
  assert (H1 : ng * sw <= total - 0 + sw - 1).
  { subst ng. pose proof (Z.mul_div_le (total - 0 + sw - 1) sw Hs). lia. }
  assert (H2 : total - 0 + sw - 1 < (ng + 1) * sw).
  { subst ng. pose proof (Z.mod_pos_bound (total - 0 + sw - 1) sw Hs).
    pose proof (Z.div_mod (total - 0 + sw - 1) sw ltac:(lia)). nia. }
  split; [|split].
  - subst ng. apply Z.div_str_pos. lia.
  - nia.
  - intros i Hi. assert (i + 1 <= ng) by lia. nia.
Qed.

Section Run.

Context {PS : Type} (predictor : PS -> list Z -> Res PredOut * PS).
Context (p : Plan) (B C : Z) (img_ : list Z) (overlap : Q) (least : Q).
Context (hs : list (Z * list Z)) (ks : list string) (tensor_only : bool).
Context (input_size : Monai.SizeArg) (sw : Z).
Hypothesis facts : PlanFacts p B C img_ overlap.
Hypothesis positive : Forall (fun d => 0 < d) img_.
Hypothesis rank : (2 <= length img_ <= 3)%nat.
Hypothesis importance_shape : wshape (importance_map p) = roi_size p.
Hypothesis least_pos : (0 < least)%Q.
Hypothesis importance_floor : forall x, (least <= wval (importance_map p) x)%Q.
Hypothesis heads_fit : Forall (fun h => head_fits (roi_size p) h.2) hs.
Hypothesis batch_pos : 0 < B.
Hypothesis sw_pos : 0 < sw.
Hypothesis steady_predictor : steady predictor p input_size ks hs tensor_only.

Let total := total_slices p.

Lemma total_pos : 0 < total.
Proof.
  subst total. rewrite (pf_total _ _ _ _ _ facts).
  pose proof (num_win_pos p B C img_ overlap facts positive (spatial_rank img_ rank)). nia.
Qed.

(** One batch: extraction, the predictor, and the accumulation of every
    head over every placement of the batch. *)
Lemma batch_step_ok (g : Z) (k0 : nat) (acc : Acc) (w : World PS) :
  0 <= g < total ->
  acc_ok p least hs k0 (fun _ => g) acc ->
  (k0 = length hs \/ (k0 = 0%nat /\ g = 0)) ->
  flags_ok ks tensor_only acc ->
  exists acc' w' net_in,
    batch_step predictor p input_size sw g acc w = (Ok acc', w')
    /\ acc_ok p least hs (length hs) (fun _ => Z.min (g + sw) total) acc'
    /\ flags_ok ks tensor_only acc'
    /\ calls w' = calls w ++ [net_in]
    /\ check_and_resize p input_size ((Z.min (g + sw) total - g) :: C :: roi_size p)
       = Ok net_in.
Proof.
  intros Hg Hacc Hk0 Hflags.
  set (nb := Z.min (g + sw) total - g).
  assert (Hnb : 0 < nb) by (subst nb; lia).
  destruct (group_range g sw total Hg sw_pos) as (Hrange & Hnil & Hall).
  fold nb in Hrange, Hnil, Hall.
  destruct (extract_ok p B C img_ overlap facts positive (spatial_rank img_ rank)
              ((fun i => g + i * 1) <$> zrange nb) Hnil)
    as (us & Hex & Hus).
  { eapply Forall_impl; [exact Hall|]. simpl. intros idx Hidx. fold total. lia. }
  rewrite length_fmap, zrange_length, Z2Nat.id in Hex by lia.
  destruct (steady_predictor (pstate w) nb Hnb)
    as (net_in & out & s' & out' & Hcheck & Hpred & Hback & Hheads & Honly).
  rewrite (pf_channels _ _ _ _ _ facts) in Hcheck, Hback.
  unfold batch_step. fold total. unfold bind at 1, lift at 1. rewrite Hrange.
  unfold bind at 1, lift at 1. rewrite Hex. cbn [fst snd].
  unfold bind at 1, lift at 1. rewrite Hcheck.
  unfold bind at 1, call_predictor at 1. rewrite Hpred.
  unfold bind at 1, lift at 1. rewrite Hback. cbn [fst snd].
  destruct (to_tuple_ok ks tensor_only out' _ acc Hflags Hheads Honly)
    as (acc1 & Htuple & Hflags1 & E1 & E2 & E3).
  unfold bind at 1, lift at 1. rewrite Htuple. cbn [fst snd].
  destruct (heads_loop p B C img_ overlap least hs facts positive rank importance_shape
              least_pos importance_floor heads_fit g nb k0 us acc1
              {| warnings := warnings w; calls := calls w ++ [net_in]; pstate := s' |})
    as (acc2 & w2 & Hloop & Hq & Hok2 & Hd2 & Ht2); try assumption; try lia.
  { eapply acc_ok_fields; eassumption. }
  exists acc2, w2, net_in. split; [exact Hloop|]. split; [|split; [|split]].
  - replace (Z.min (g + sw) total) with (g + nb) by (subst nb; lia). exact Hok2.
  - destruct Hflags1 as [Hf1 Hf2]. split; rewrite Hd2, Ht2; assumption.
  - destruct Hq as [Hq _]. rewrite Hq. reflexivity.
  - reflexivity.
Qed.

(** The whole loop: every group is processed, one predictor invocation per
    group, and at the end every head's accumulators have seen every work
    unit. *)
Lemma run_batches_ok (w : World PS) :
  exists acc w' cs,
    run_batches predictor p input_size sw false w = (Ok acc, w')
    /\ acc_ok p least hs (length hs) (fun _ => total) acc
    /\ flags_ok ks tensor_only acc
    /\ calls w' = calls w ++ cs
    /\ Forall2 (fun g t =>
                  check_and_resize p input_size
                    ((Z.min (g + sw) total - g) :: C :: roi_size p) = Ok t)
               ((fun i => 0 + i * sw) <$> zrange ((total - 0 + sw - 1) / sw)) cs.
Proof.
  destruct (groups_arith total sw total_pos sw_pos) as (Hng & Hreach & Hbelow).
  set (ng := (total - 0 + sw - 1) / sw) in *.
  set (groups := (fun i => 0 + i * sw) <$> zrange ng).
  unfold run_batches. fold total. unfold bind at 1, lift at 1.
  rewrite py_range_step by exact sw_pos. fold ng. fold groups.
  destruct (for_each_inv (batch_step predictor p input_size sw)
              (fun i acc' w' =>
                 exists k cs,
                   (k = length hs \/ (k = 0%nat /\ i = 0%nat))
                   /\ acc_ok p least hs k (fun _ => Z.min (Z.of_nat i * sw) total) acc'
                   /\ flags_ok ks tensor_only acc'
                   /\ calls w' = calls w ++ cs
                   /\ Forall2 (fun g t =>
                                 check_and_resize p input_size
                                   ((Z.min (g + sw) total - g) :: C :: roi_size p) = Ok t)
                              (take i groups) cs)
              groups acc0 w)
    as (acc & w' & Hrun & k & cs & Hk & Hok & Hflags & Hcalls & Hcs).
  - exists 0%nat, []. split; [right; split; reflexivity|]. split; [|split; [|split]].
    + split; [reflexivity|]. split; [reflexivity|]. split; [reflexivity|].
      intros j cnt h Hj. discriminate.
    + split; [left; reflexivity|]. intros _. split; reflexivity.
    + rewrite app_nil_r. reflexivity.
    + constructor.
  - intros i g acc1 w1 Hi (k & cs & Hk & Hok & Hflags & Hcalls & Hcs).
    assert (Hilt : (i < Z.to_nat ng)%nat).
    { apply lookup_lt_Some in Hi. subst groups.
      rewrite length_fmap, zrange_length in Hi. assumption. }
    subst groups. rewrite list_lookup_fmap, zrange_lookup in Hi by assumption.
    injection Hi as <-.
    specialize (Hbelow (Z.of_nat i) ltac:(lia)).
    replace (Z.min (Z.of_nat i * sw) total) with (0 + Z.of_nat i * sw) in Hok by lia.
    destruct (batch_step_ok (0 + Z.of_nat i * sw) k acc1 w1 ltac:(lia) Hok)
      as (acc2 & w2 & net_in & Hstep & Hok2 & Hflags2 & Hcalls2 & Hcheck).
    { destruct Hk as [->|[-> ->]]; [left; reflexivity|right; split; [reflexivity|lia]]. }
    { assumption. }
    exists acc2, w2. split; [exact Hstep|].
    exists (length hs), (cs ++ [net_in]). split; [left; reflexivity|].
    split; [|split; [|split]].
    + replace (Z.min (Z.of_nat (S i) * sw) total)
        with (Z.min (0 + Z.of_nat i * sw + sw) total) by lia.
      exact Hok2.
    + exact Hflags2.
    + rewrite Hcalls2, Hcalls, app_assoc. reflexivity.
    + erewrite take_S_r.
      2:{ rewrite list_lookup_fmap, zrange_lookup by assumption. reflexivity. }
      apply Forall2_app; [exact Hcs|]. constructor; [exact Hcheck|constructor].
  - exists acc, w', cs. split; [exact Hrun|].
    assert (Hlen : length groups = Z.to_nat ng).
    { subst groups. rewrite length_fmap, zrange_length. reflexivity. }
    rewrite Hlen in Hk, Hok, Hcs.
    rewrite Z2Nat.id in Hok by lia.
    replace (Z.min (ng * sw) total) with total in Hok by lia.
    rewrite take_ge in Hcs by lia.
    destruct Hk as [->|[_ Hz]]; [|lia].
    split; [exact Hok|]. split; [exact Hflags|]. split; assumption.
Qed.

End Run.

(** ** The finalizer *)

Lemma zoom_product (x i r : Z) :
  0 < r ->
  exists d : positive,
    Zpos d = r /\ (inject_Z x * (inject_Z i / inject_Z r))%Q = Qmake (x * i) d.
Proof.
  intros Hr. destruct r as [|rp|rp]; try lia. exists rp. split; [reflexivity|].
  unfold Qdiv, Qmult, Qinv, inject_Z. cbn [Qnum Qden].
  rewrite Z.mul_1_r. reflexivity.
Qed.

Lemma py_round_exact (n : Z) (d : positive) :
  n mod Zpos d = 0 -> py_round (Qmake n d) = n / Zpos d.
Proof.
  intros H. unfold py_round. cbn [Qnum Qden]. rewrite H.
  replace (2 * 0 <? Zpos d) with true by (symmetry; apply Z.ltb_lt; lia).
  reflexivity.
Qed.

Lemma py_round_floor (q : Q) : Qnum q / Zpos (Qden q) <= py_round q.
Proof.
  unfold py_round.
  repeat match goal with |- context [if ?b then _ else _] => destruct b end; lia.
Qed.

Lemma py_round_unit (x r : Z) :
  0 < r -> py_round (inject_Z x * (inject_Z r / inject_Z r)) = x.
Proof.
  intros Hr. destruct (zoom_product x r r Hr) as (d & Hd & ->).
  rewrite py_round_exact; rewrite Hd.
  - apply Z.div_mul. lia.
  - apply Z.mod_mul. lia.
Qed.

Lemma py_round_ge (x i r : Z) :
  0 <= x -> 0 < r <= i -> x <= py_round (inject_Z x * (inject_Z i / inject_Z r)).
Proof.
  intros Hx Hr. destruct (zoom_product x i r ltac:(lia)) as (d & Hd & ->).
  eapply Z.le_trans; [|apply py_round_floor]. cbn [Qnum Qden]. rewrite Hd.
  apply Z.div_le_lower_bound; [lia|nia].
Qed.

(** One axis of the final slicing at zoom 1: what is left after the
    padding is stripped is the extent of the original image. *)
Lemma final_axis (i_ r : Z) :
  0 < i_ -> 0 < r ->
  let image := Z.max i_ r in
  let half := Z.max (r - i_) 0 / 2 in
  let z := (inject_Z image / inject_Z r)%Q in
  slice_len image (Sl (py_round (inject_Z half * z)) (py_round (inject_Z (i_ + half) * z)))
  = i_.
Proof.
  intros Hi Hr image half z. subst image half z.
  destruct (Z_le_gt_dec r i_) as [Hle|Hgt].
  - replace (Z.max i_ r) with i_ by lia. replace (Z.max (r - i_) 0) with 0 by lia.
    change (0 / 2) with 0. rewrite Z.add_0_r.
    destruct (zoom_product 0 i_ r Hr) as (d & Hd & ->).
    rewrite py_round_exact by (rewrite Z.mul_0_l; apply Z.mod_0_l; lia).
    rewrite Z.mul_0_l, Z.div_0_l by lia.
    pose proof (py_round_ge i_ i_ r ltac:(lia) ltac:(lia)) as Hge.
    unfold slice_len, slice_bound.
    destruct (py_round _ <? 0) eqn:E; [apply Z.ltb_lt in E; lia|].
    simpl. lia.
  - replace (Z.max i_ r) with r by lia. replace (Z.max (r - i_) 0) with (r - i_) by lia.
    rewrite !py_round_unit by assumption.
    assert (0 <= (r - i_) / 2 <= r - i_).
    { split; [apply Z.div_pos; lia|]. apply Z.div_le_upper_bound; lia. }
    apply slice_len_window with (r := i_); lia.
Qed.

Lemma lookup_pad_pairs (l : list (Z * Z)) (sp : nat) (r s : Z) :
  l !! sp = Some (r, s) ->
  flat_map (fun '(r, s) => pad_pair r s) l !! (sp * 2)%nat = Some (Z.max (r - s) 0 / 2).
Proof.
  revert sp. induction l as [|[r' s'] l IH]; intros sp Hl; [discriminate|].
  destruct sp as [|sp]; simpl in *.
  - injection Hl as -> ->. reflexivity.
  - apply IH. assumption.
Qed.

Lemma final_slicing_spec (pad img_ : list Z) (n : nat) (zoom_scale : list Q)
    (f : nat -> Slice) (sps : list nat) (done : list Slice) :
  Forall (fun sp => exists a e z,
            pad !! (sp * 2)%nat = Some a /\ img_ !! (n - sp - 1)%nat = Some e
            /\ zoom_scale !! (n - sp - 1)%nat = Some z
            /\ f sp = Sl (py_round (inject_Z a * z)) (py_round (inject_Z (e + a) * z)))
         sps ->
  final_slicing pad img_ n zoom_scale sps done = Ok (reverse (f <$> sps) ++ done).
Proof.
  intros H. revert done. induction H as [|sp sps (a & e & z & Ha & He & Hz & Hf) _ IH];
    intros done; [reflexivity|].
  cbn [final_slicing]. unfold py_index. rewrite Ha, He, Hz. cbn [rbind].
  rewrite IH, fmap_cons, reverse_cons, <- app_assoc, Hf. reflexivity.
Qed.

Lemma res_map_zip_div (ds rs : list Z) :
  Forall2 (fun d r => 0 < r <= d) ds rs ->
  res_map (fun '(d, r) => py_div d r) (zip ds rs)
  = Ok (zip_with (fun d r => inject_Z d / inject_Z r)%Q ds rs).
Proof.
  induction 1 as [|d r ds rs Hr _ IH]; [reflexivity|].
  cbn [zip zip_with res_map]. unfold py_div at 1.
  replace (r =? 0) with false by (symmetry; apply Z.eqb_neq; lia).
  cbn [rbind]. rewrite IH. reflexivity.
Qed.

Lemma buffer_dims_unit (image roi : list Z) :
  Forall2 (fun i r => 0 < r <= i) image roi -> buffer_dims image roi roi = image.
Proof.
  induction 1 as [|i r image roi Hr _ IH]; [reflexivity|].
  rewrite buffer_dims_cons, IH, zoom_bound_div by lia.
  rewrite Z.div_mul by lia. reflexivity.
Qed.

Section Finalizer.

Context (p : Plan) (B C : Z) (img_ : list Z) (overlap : Q).
Hypothesis facts : PlanFacts p B C img_ overlap.
Hypothesis positive : Forall (fun d => 0 < d) img_.

(** At zoom 1 a head's accumulator, stripped of the padding, has the
    spatial shape of the image. *)
Lemma finalize_head_ok (c : Z) :
  finalize_head p (B :: c :: image_size p) = Ok (B :: c :: img_).
Proof.
  pose proof (image_vs_roi p B C img_ overlap facts positive) as Hir.
  pose proof (pf_roi_len _ _ _ _ _ facts) as Hrl.
  pose proof (image_size_length p B C img_ overlap facts) as Hil.
  pose proof (roi_positive p B C img_ overlap facts positive) as Hrpos.
  unfold finalize_head. cbn [drop]. rewrite drop_0, (res_map_zip_div _ _ Hir).
  cbn [rbind].
  rewrite (pf_pad _ _ _ _ _ facts), (pf_image_ _ _ _ _ _ facts), (pf_dims _ _ _ _ _ facts).
  set (n := length img_).
  set (fz := zip_with (fun d r => inject_Z d / inject_Z r)%Q (image_size p) (roi_size p)).
  set (f := fun sp : nat =>
              match img_ !! (n - sp - 1)%nat, roi_size p !! (n - sp - 1)%nat with
              | Some i_, Some r =>
                  Sl (py_round (inject_Z (Z.max (r - i_) 0 / 2)
                                * (inject_Z (Z.max i_ r) / inject_Z r)))
                     (py_round (inject_Z (i_ + Z.max (r - i_) 0 / 2)
                                * (inject_Z (Z.max i_ r) / inject_Z r)))
              | _, _ => SlAll
              end).
  assert (Hax : forall k, (k < n)%nat ->
            exists i_ r, img_ !! k = Some i_ /\ roi_size p !! k = Some r
                         /\ 0 < i_ /\ 0 < r
                         /\ image_size p !! k = Some (Z.max i_ r)
                         /\ fz !! k = Some (inject_Z (Z.max i_ r) / inject_Z r)%Q).
  { intros k Hk.
    destruct (img_ !! k) as [i_|] eqn:Hi; [|apply lookup_ge_None in Hi; lia].
    destruct (roi_size p !! k) as [r|] eqn:Hr; [|apply lookup_ge_None in Hr; lia].
    exists i_, r. split; [reflexivity|]. split; [reflexivity|].
    split; [apply (proj1 (Forall_lookup _ _) positive k i_ Hi)|].
    split; [apply (proj1 (Forall_lookup _ _) Hrpos k r Hr)|].
    assert (Him : image_size p !! k = Some (Z.max i_ r)).
    { rewrite (pf_image _ _ _ _ _ facts), lookup_zip_with, Hi. cbn. rewrite Hr. reflexivity. }
    split; [exact Him|].
    subst fz. rewrite lookup_zip_with, Him. cbn. rewrite Hr. reflexivity. }
  rewrite (final_slicing_spec _ _ _ _ f).
  2:{ apply Forall_forall. intros sp Hsp. apply elem_of_seq in Hsp.
      destruct (Hax (n - sp - 1)%nat ltac:(lia)) as (i_ & r & Hi & Hr & _ & _ & _ & Hfz).
      exists (Z.max (r - i_) 0 / 2), i_, (inject_Z (Z.max i_ r) / inject_Z r)%Q.
      split; [|split; [assumption|split; [assumption|]]].
      - unfold compute_pad_size. apply lookup_pad_pairs.
        rewrite reverse_lookup by (rewrite length_zip; lia).
        rewrite length_zip, Hrl, Nat.min_id. fold n.
        replace (n - S sp)%nat with (n - sp - 1)%nat by lia.
        rewrite lookup_zip_with, Hr. cbn. rewrite Hi. reflexivity.
      - subst f. cbv beta. rewrite Hi, Hr. reflexivity. }
  cbn [rbind]. rewrite app_nil_r.
  unfold getitem_shape. cbn [length].
  rewrite length_app, length_replicate, length_reverse, length_fmap, length_seq, Hil.
  fold n.
  replace (S (S n) - n)%nat with 2%nat by lia.
  replace (S (S n) <? 2 + n)%nat with false by (symmetry; apply Nat.ltb_ge; lia).
  cbn [replicate app zip_with slice_len].
  rewrite drop_ge by (simpl; lia). rewrite app_nil_r. do 3 f_equal.
  apply list_eq. intros k.
  rewrite lookup_zip_with.
  destruct (decide (k < n)%nat) as [Hk|Hk].
  - destruct (Hax k Hk) as (i_ & r & Hi & Hr & Hipos & Hrp & Him & _).
    rewrite Him, Hi. cbn.
    rewrite reverse_lookup by (rewrite length_fmap, length_seq; lia).
    rewrite length_fmap, length_seq, list_lookup_fmap, lookup_seq_lt by lia.
    cbn. subst f. cbv beta.
    replace (n - (n - S k) - 1)%nat with k by lia.
    rewrite Hi, Hr. f_equal. apply final_axis; assumption.
  - rewrite (lookup_ge_None_2 (image_size p)) by lia.
    rewrite (lookup_ge_None_2 img_) by (fold n; lia). reflexivity.
Qed.

End Finalizer.

Section FinalizerOutput.

Context (p : Plan) (B C : Z) (img_ : list Z) (overlap : Q) (least : Q).
Context (hs : list (Z * list Z)) (ks : list string) (tensor_only : bool).
Hypothesis facts : PlanFacts p B C img_ overlap.
Hypothesis positive : Forall (fun d => 0 < d) img_.
Hypothesis unit_zoom : Forall (fun h => h.2 = roi_size p) hs.
Hypothesis some_head : hs <> [].
Hypothesis no_meta : meta (padded p) = None.

Lemma finalize_heads_ok :
  res_map (finalize_head p)
          ((fun h => batch_size p :: h.1
                     :: buffer_dims (image_size p) (roi_size p) h.2) <$> hs)
  = Ok ((fun h => B :: h.1 :: img_) <$> hs).
Proof.
  clear some_head. revert unit_zoom.
  induction hs as [|[c o] l IH]; intros Hz; [reflexivity|].
  inversion Hz as [|? ? Ho Hl]; subst. simpl in Ho. subst o.
  cbn [fmap list_fmap res_map fst snd].
  rewrite (pf_batch _ _ _ _ _ facts), buffer_dims_unit
    by (apply (image_vs_roi p B C img_ overlap facts positive)).
  rewrite (finalize_head_ok p B C img_ overlap facts positive c). cbn [rbind].
  specialize (IH Hl). rewrite (pf_batch _ _ _ _ _ facts) in IH.
  cbn [fmap] in IH. rewrite IH. reflexivity.
Qed.

(** The finalizer on the accumulators of a steady run at zoom 1. *)
Lemma finalize_ok (u : nat -> Z) (acc : Acc) :
  acc_ok p least hs (length hs) u acc -> flags_ok ks tensor_only acc ->
  exists out,
    finalize p acc = Ok out
    /\ every_head (fun t => exists c, t = plain (B :: c :: img_)) out
    /\ (dict_key acc = None -> is_tensor_output acc = true ->
        exists c o tl, hs = (c, o) :: tl /\ out = OutTensor (plain (B :: c :: img_))).
Proof.
  intros (Hout & _) [Hkeys _]. unfold finalize.
  rewrite Hout, take_ge by (rewrite length_fmap; lia).
  rewrite finalize_heads_ok. cbn [rbind]. rewrite no_meta.
  assert (Hall : Forall (fun t => exists c, t = plain (B :: c :: img_))
                        (plain <$> ((fun h => B :: h.1 :: img_) <$> hs))).
  { apply Forall_fmap, Forall_fmap, Forall_forall. intros [c o] _. exists c. reflexivity. }
  destruct Hkeys as [Hnone|[Hsome Hfalse]].
  - rewrite Hnone. destruct (is_tensor_output acc).
    + destruct hs as [|[c o] tl]; [congruence|].
      cbn [fmap list_fmap py_index lookup list_lookup rbind fst].
      eexists. split; [reflexivity|]. split; [exists c; reflexivity|].
      intros _ _. exists c, o, tl. split; reflexivity.
    + cbn [rbind]. eexists. split; [reflexivity|]. split; [exact Hall|].
      intros _ Ht. discriminate.
  - rewrite Hsome, Hfalse. cbn [rbind]. eexists. split; [reflexivity|]. split.
    + cbn [every_head]. intros k t Hkt.
      apply elem_of_list_to_map_2 in Hkt. apply elem_of_zip_r in Hkt.
      apply (proj1 (Forall_forall _ _) Hall t Hkt).
    + intros Hn. congruence.
Qed.

End FinalizerOutput.

(** ** Count buffers *)


(** ** Steady predictors *)

(** The network's size is the window's: the batch is handed over as it is
    and the answer is taken as it is. *)
Lemma steady_same_size {PS} (predictor : PS -> list Z -> Res PredOut * PS) (p : Plan)
    (isz : list Z) (r : Z) (rest : list Z) (ks : list string) (hs : list (Z * list Z))
    (tensor_only : bool) :
  roi_size p = r :: r :: rest -> isz !! 0%nat = Some r -> isz !! 1%nat = Some r ->
  answers_with predictor (channels p) (roi_size p) ks hs tensor_only ->
  steady predictor p (Monai.SSeq isz) ks hs tensor_only.
Proof.
  intros Hroi H0 H1 Hans s nb Hnb.
  destruct (Hans s nb Hnb) as (out & s' & Hpred & Hheads & Honly).
  exists (nb :: channels p :: roi_size p), out, s', out.
  split; [|split; [exact Hpred|split; [|split; assumption]]].
  - unfold check_and_resize, py_index. rewrite Hroi, H0, H1.
    cbn [lookup list_lookup rbind]. rewrite Z.eqb_refl. reflexivity.
  - unfold resize_back, py_index. rewrite Hroi, H0, H1.
    cbn [lookup list_lookup rbind]. rewrite Z.eqb_refl. reflexivity.
Qed.


Lemma plan_importance_shape gm inputs roi_arg overlap mode sig pm rwm p :
  plan gm inputs roi_arg overlap mode sig pm rwm = Ok p ->
  (forall given, rwm = Some given -> wshape given = roi_size p) ->
  wshape (importance_map p) = roi_size p.
Proof.
  unfold plan.
  destruct (Qlt_le_dec overlap 0); [discriminate|].
  destruct (Qlt_le_dec overlap 1); [|discriminate].
  destruct (shape inputs) as [|b [|c img_]]; try discriminate.
  destruct (Monai.fall_back_tuple roi_arg img_) as [roi|] eqn:Hroi; [|discriminate].
  cbn [rbind]. rewrite (valid_patch_size_is_roi _ _ _ Hroi).
  rewrite bool_decide_eq_true_2 by reflexivity.
  destruct (Torch.pad _ _ _); [|discriminate]. cbn [rbind].
  destruct (Monai._get_scan_interval _ _ _ _); [|discriminate]. cbn [rbind].
  destruct rwm as [given|].
  - cbn [rbind]. destruct (clamp_importance given) as [imp|] eqn:Hc; [|discriminate].
    cbn [rbind]. intros [= <-] Hgiven. cbn.
    apply clamp_importance_floor in Hc as [-> _]. apply (Hgiven given eq_refl).
  - destruct (compute_importance_map gm roi mode sig) as [built|] eqn:Hb; [|discriminate].
    cbn [rbind]. destruct (clamp_importance built) as [imp|] eqn:Hc; [|discriminate].
    cbn [rbind]. intros [= <-] _. cbn.
    apply clamp_importance_floor in Hc as [-> _].
    unfold compute_importance_map in Hb. destruct mode.
    + injection Hb as <-. reflexivity.
    + destruct (gm roi sig); [|discriminate]. injection Hb as <-. reflexivity.
Qed.

(** ** Whole calls on a steady predictor *)








(** C8. An image of shape [2,3,8,8], a window of 8x8, no overlap and one
    window per batch: the predictor is invoked exactly twice, once on each
    image of the batch, and the output has the shape [2,3,8,8]. *)
Theorem C8_two_invocations_for_a_batch_of_two {PS}
    (predictor : PS -> list Z -> Res PredOut * PS) gaussian_map sigma_scale
    (w : World PS) :
  (forall s t, exists s', predictor s t = (Ok (PTensor t), s')) ->
  exists w',
    sliding_window_inference predictor gaussian_map (plain [2; 3; 8; 8])
      (Monai.SSeq [8; 8]) (Monai.SSeq [8; 8]) 1 0 Monai.CONSTANT sigma_scale
      Torch.PAD_CONSTANT false None w
    = (Ok (OutTensor (plain [2; 3; 8; 8])), w')
    /\ calls w' = calls w ++ [[1; 3; 8; 8]; [1; 3; 8; 8]].
Proof.
  intros Hpred.
  destruct (plan gaussian_map (plain [2; 3; 8; 8]) (Monai.SSeq [8; 8]) 0 Monai.CONSTANT
              sigma_scale Torch.PAD_CONSTANT None) as [p|e] eqn:Hp;
    [|vm_compute in Hp; discriminate].
  assert (Hr : roi_size p = [8; 8] /\ channels p = 3 /\ total_slices p = 2).
  { revert Hp. vm_compute. intros [= <-]. repeat split; reflexivity. }
  destruct Hr as (Hr & Hc & Ht).
  pose proof (plan_facts gaussian_map (plain [2; 3; 8; 8]) _ _ _ _ _ _ p 2 3 [8; 8]
                eq_refl Hp) as facts.
  assert (Hpos : Forall (fun d => 0 < d) [8; 8]) by (repeat constructor).
  assert (Hrank : (2 <= length [8; 8] <= 3)%nat) by (simpl; lia).
  assert (Himp : wshape (importance_map p) = roi_size p).
  { apply (plan_importance_shape _ _ _ _ _ _ _ _ _ Hp). intros given Hg. discriminate. }
  destruct (pf_floor _ _ _ _ _ facts) as (least & Hleast & Hfloor).
  assert (Hunit : Forall (fun h : Z * list Z => h.2 = roi_size p) [(3, [8; 8])]).
  { rewrite Hr. repeat constructor. }
  assert (Hfit : Forall (fun h : Z * list Z => head_fits (roi_size p) h.2) [(3, [8; 8])]).
  { rewrite Hr. repeat constructor; lia. }
  assert (Hsteady : steady predictor p (Monai.SSeq [8; 8]) [] [(3, [8; 8])] true).
  { apply (steady_same_size predictor p [8; 8] 8 []); [exact Hr|reflexivity..|].
    rewrite Hr, Hc. intros s nb _.
    destruct (Hpred s [nb; 3; 8; 8]) as [s' Hs'].
    exists (PTensor [nb; 3; 8; 8]), s'. split; [exact Hs'|].
    split; [reflexivity|]. intros _. reflexivity. }
  destruct (run_batches_ok predictor p 2 3 [8; 8] 0 least [(3, [8; 8])] [] true
              (Monai.SSeq [8; 8]) 1 facts Hpos Hrank Himp Hleast Hfloor Hfit
              ltac:(lia) ltac:(lia) Hsteady w)
    as (acc & w' & cs & Hrun & Hok & Hflags & Hcalls & Hcs).
  destruct (finalize_ok p 2 3 [8; 8] 0 least [(3, [8; 8])] [] true facts Hpos Hunit
              ltac:(discriminate)
              ltac:(rewrite (plan_meta _ _ _ _ _ _ _ _ _ Hp); reflexivity) _ acc Hok Hflags)
    as (out & Hfin & _ & Hform).
  destruct Hflags as [_ Honly]. destruct (Honly eq_refl) as [Hnone Htensor].
  destruct (Hform Hnone Htensor) as (c & o & tl & [= <- <- <-] & ->).
  exists w'. split.
  - unfold sliding_window_inference, bind, lift. rewrite Hp, Hrun, Hfin. reflexivity.
  - rewrite Hcalls. f_equal.
    rewrite Ht in Hcs. change ((2 - 0 + 1 - 1) / 1) with 2 in Hcs.
    cbn [zrange Z.to_nat Pos.to_nat Pos.iter_op Init.Nat.add seq fmap list_fmap] in Hcs.
    inversion Hcs as [|g0 t0 gs0 ts0 H0 Hcs']; subst.
    inversion Hcs' as [|g1 t1 gs1 ts1 H1 Hcs'']; subst.
    inversion Hcs''; subst.
    unfold check_and_resize, py_index in H0, H1. rewrite Hr in H0, H1.
    cbn in H0, H1. injection H0 as <-. injection H1 as <-. reflexivity.
Qed.

(** The identity network. *)
Lemma C8_witness :
  exists w',
    sliding_window_inference same_shape no_gaussian (plain [2; 3; 8; 8])
      (Monai.SSeq [8; 8]) (Monai.SSeq [8; 8]) 1 0 Monai.CONSTANT (1 # 8)
      Torch.PAD_CONSTANT false None (initial_world tt)
    = (Ok (OutTensor (plain [2; 3; 8; 8])), w')
    /\ calls w' = [[1; 3; 8; 8]; [1; 3; 8; 8]].
Proof.
  apply (C8_two_invocations_for_a_batch_of_two same_shape no_gaussian (1 # 8)
           (initial_world tt)).
  intros s t. exists s. reflexivity.
Defined.

(** ** Fatal errors *)

(** An exception raised by a batch is the result of the call: the batches
    after it are not run and nothing is returned. *)
Lemma call_aborts {PS} (predictor : PS -> list Z -> Res PredOut * PS) gaussian_map
    inputs roi_arg input_size sw_batch_size overlap mode sigma_scale padding_mode
    roi_weight_map (w w1 w2 : World PS) (p : Plan) (l1 l2 : list Z) (g : Z) (acc : Acc)
    (e : PyError) :
  plan gaussian_map inputs roi_arg overlap mode sigma_scale padding_mode roi_weight_map
    = Ok p ->
  py_range 0 (total_slices p) sw_batch_size = Ok (l1 ++ g :: l2) ->
  for_each l1 (batch_step predictor p input_size sw_batch_size) acc0 w = (Ok acc, w1) ->
  batch_step predictor p input_size sw_batch_size g acc w1 = (Raise e, w2) ->
  sliding_window_inference predictor gaussian_map inputs roi_arg input_size
    sw_batch_size overlap mode sigma_scale padding_mode false roi_weight_map w
  = (Raise e, w2).
Proof.
  intros Hp Hrange Hprefix Hbatch.
  unfold sliding_window_inference, bind, lift. rewrite Hp.
  unfold run_batches, bind, lift. rewrite Hrange.
  rewrite (for_each_raise _ l1 g l2 acc0 acc w w1 w2 e Hprefix Hbatch). reflexivity.
Qed.

(** A batch whose mapping lacks a recorded key raises [KeyError] right
    after the predictor's invocation. *)
Lemma batch_missing_key {PS} (predictor : PS -> list Z -> Res PredOut * PS) (p : Plan)
    input_size (sw_batch_size g : Z) (acc : Acc) (w : World PS) slice_range us
    window_data net_in (m : gmap string (list Z)) (s' : PS) window_data'
    (keys : list string) (k : string) :
  py_range g (Z.min (g + sw_batch_size) (total_slices p)) 1 = Ok slice_range ->
  extract p slice_range = Ok (us, window_data) ->
  check_and_resize p input_size window_data = Ok net_in ->
  predictor (pstate w) net_in = (Ok (PMapping m), s') ->
  resize_back p input_size (PMapping m) net_in = Ok (PMapping m, window_data') ->
  dict_key acc = Some keys -> k ∈ keys -> m !! k = None ->
  batch_step predictor p input_size sw_batch_size g acc w
  = (Raise KeyError,
     {| warnings := warnings w; calls := calls w ++ [net_in]; pstate := s' |}).
Proof.
  intros Hrange Hex Hcheck Hpred Hback Hkeys Hin Hnone.
  unfold batch_step. unfold bind at 1, lift at 1. rewrite Hrange.
  unfold bind at 1, lift at 1. rewrite Hex. cbn [fst snd].
  unfold bind at 1, lift at 1. rewrite Hcheck.
  unfold bind at 1, call_predictor at 1. rewrite Hpred.
  unfold bind at 1, lift at 1. rewrite Hback. cbn [fst snd].
  unfold bind at 1, lift at 1, to_tuple. rewrite Hkeys.
  rewrite (lookup_keys_missing m keys k Hin Hnone). reflexivity.
Qed.

(** Two images of the window's size, one per batch: the first answer has
    the keys [a] and [b], the second one only [a]. *)
Example fewer_keys_abort :
  sliding_window_inference fewer_keys_later no_gaussian (plain [2; 1; 4; 4])
    (Monai.SSeq [4; 4]) (Monai.SSeq [4; 4]) 1 0 Monai.CONSTANT (1 # 8)
    Torch.PAD_CONSTANT false None (initial_world 0%nat)
  = (Raise KeyError,
     {| warnings := []; calls := [[1; 1; 4; 4]; [1; 1; 4; 4]]; pstate := 2%nat |}).
Proof. vm_compute. reflexivity. Qed.

(** Scenario C: a 4x4 window and a network of 8x8.  The predictor sees
    batches of 8x8 windows and the output has the size of the image. *)
Example scenario_C :
  sliding_window_inference same_shape no_gaussian (plain [1; 1; 10; 10])
    (Monai.SSeq [4; 4]) (Monai.SSeq [8; 8]) 4 (1 # 2) Monai.CONSTANT (1 # 8)
    Torch.PAD_CONSTANT false None (initial_world tt)
  = (Ok (OutTensor (plain [1; 1; 10; 10])),
     {| warnings := [];
        calls := [[4; 1; 8; 8]; [4; 1; 8; 8]; [4; 1; 8; 8]; [4; 1; 8; 8]];
        pstate := tt |}).
Proof. vm_compute. reflexivity. Qed.
(** ** Calls that end before the predictor is reached *)

Lemma finalize_nothing (p : Plan) : finalize p acc0 = Raise IndexError.
Proof. reflexivity. Qed.

(** The shape of a batch of windows has the rank of the padded input. *)
Lemma res_map_Forall {A B} (f : A -> Res B) (P : B -> Prop) (l : list A) (bs : list B) :
  (forall a b, f a = Ok b -> P b) -> res_map f l = Ok bs -> Forall P bs.
Proof.
  intros Hf. revert bs. induction l as [|a l IH]; intros bs H; simpl in H.
  - injection H as <-. constructor.
  - destruct (f a) as [b|] eqn:Hb; [|discriminate]. simpl in H.
    destruct (res_map f l) as [bs'|]; [|discriminate]. simpl in H.
    injection H as <-. constructor; [eapply Hf; eassumption|apply IH; reflexivity].
Qed.

Lemma getitem_shape_length (s : list Z) (idx : list Slice) (t : list Z) :
  getitem_shape s idx = Ok t -> length t = length s.
Proof.
  unfold getitem_shape. destruct (length s <? length idx)%nat eqn:E; [discriminate|].
  apply Nat.ltb_ge in E. intros [= <-].
  rewrite length_app, length_zip_with, length_drop. lia.
Qed.

Lemma cat_length (ts : list (list Z)) (n : nat) (t : list Z) :
  Forall (fun s => length s = n) ts -> Torch.cat ts = Ok t -> length t = n.
Proof.
  intros Hall. unfold Torch.cat. destruct ts as [|[|d rest] more]; try discriminate.
  destruct (forallb _ more); [|discriminate]. intros [= <-].
  inversion Hall; subst. reflexivity.
Qed.

Lemma extract_rank (p : Plan) (slice_range : list Z) us (window_data : list Z) :
  extract p slice_range = Ok (us, window_data) ->
  length window_data = length (shape (padded p)).
Proof.
  unfold extract. destruct (res_map (unravel p) slice_range) as [us'|]; [|discriminate].
  simpl. destruct (res_map _ us') as [pieces|] eqn:Hp; [|discriminate]. simpl.
  destruct (Torch.cat pieces) as [t|] eqn:Hc; [|discriminate]. simpl. intros [= _ <-].
  eapply cat_length; [|exact Hc].
  eapply res_map_Forall; [|exact Hp]. intros u t'. apply getitem_shape_length.
Qed.

(** A batch executor that refuses every batch it can be given leaves the
    world as it was: the call ends in an exception, with no invocation. *)
Lemma batch_step_refused {PS} (predictor : PS -> list Z -> Res PredOut * PS) (p : Plan)
    input_size (sw g : Z) (acc : Acc) (w : World PS) :
  (forall wd, length wd = length (shape (padded p)) ->
              exists e, check_and_resize p input_size wd = Raise e) ->
  exists e, batch_step predictor p input_size sw g acc w = (Raise e, w).
Proof.
  intros H. unfold batch_step, bind, lift.
  destruct (py_range g _ 1) as [slice_range|e]; [|exists e; reflexivity].
  destruct (extract p slice_range) as [[us wd]|e] eqn:He; [|exists e; reflexivity].
  cbn [fst snd]. destruct (H wd (extract_rank _ _ _ _ He)) as [e ->].
  exists e. reflexivity.
Qed.

Lemma call_refused {PS} (predictor : PS -> list Z -> Res PredOut * PS) gaussian_map
    inputs roi_arg input_size sw_batch_size overlap mode sigma_scale padding_mode progress
    roi_weight_map (w : World PS) :
  (forall p wd,
     plan gaussian_map inputs roi_arg overlap mode sigma_scale padding_mode roi_weight_map
       = Ok p ->
     length wd = length (shape (padded p)) ->
     exists e, check_and_resize p input_size wd = Raise e) ->
  exists e,
    sliding_window_inference predictor gaussian_map inputs roi_arg input_size
      sw_batch_size overlap mode sigma_scale padding_mode progress roi_weight_map w
    = (Raise e, w).
Proof.
  intros H. unfold sliding_window_inference, bind at 1, lift at 1.
  destruct (plan _ _ _ _ _ _ _ _) as [p|e] eqn:Hp; [|exists e; reflexivity].
  unfold bind at 1. unfold run_batches, bind at 1, lift at 1.
  destruct (py_range 0 _ _) as [groups|e]; [|exists e; reflexivity].
  destruct progress; [exists TypeError; reflexivity|].
  destruct groups as [|g groups]; [exists IndexError; reflexivity|].
  cbn [for_each]. unfold bind at 1.
  destruct (batch_step_refused predictor p input_size sw_batch_size g acc0 w
              (fun wd => H p wd eq_refl)) as [e ->].
  exists e. reflexivity.
Qed.

(** No call with an integer [input_size] returns a result or invokes the
    predictor, whatever its other arguments. *)
Lemma integer_input_size_refused {PS}
    (predictor : PS -> list Z -> Res PredOut * PS) gaussian_map inputs roi_arg (n : Z)
    sw_batch_size overlap mode sigma_scale padding_mode progress roi_weight_map
    (w : World PS) :
  exists e,
    sliding_window_inference predictor gaussian_map inputs roi_arg (Monai.SInt n)
      sw_batch_size overlap mode sigma_scale padding_mode progress roi_weight_map w
    = (Raise e, w).
Proof.
  apply call_refused. intros p wd _ _. unfold check_and_resize.
  repeat match goal with
  | |- exists e, rbind ?x _ = _ => destruct x; cbn [rbind]; [|eexists; reflexivity]
  | |- exists e, (if ?b then _ else _) = _ => destruct b; [eexists; reflexivity|]
  end.
  eexists; reflexivity.
Qed.

(** The first batch of a call that has work to do: it is the first
    [min(sw_batch_size, total_slices)] work units, extracted as windows. *)
Lemma first_batch {PS} (predictor : PS -> list Z -> Res PredOut * PS) gaussian_map
    inputs roi_arg input_size sw_batch_size overlap mode sigma_scale padding_mode
    roi_weight_map (w : World PS) (p : Plan) (B C : Z) (img_ : list Z) :
  shape inputs = B :: C :: img_ -> 0 < B -> Forall (fun d => 0 < d) img_ ->
  img_ <> [] -> 0 < sw_batch_size ->
  plan gaussian_map inputs roi_arg overlap mode sigma_scale padding_mode roi_weight_map
    = Ok p ->
  exists nb us groups,
    0 < nb
    /\ extract p ((fun i => 0 + i * 1) <$> zrange nb) = Ok (us, nb :: C :: roi_size p)
    /\ sliding_window_inference predictor gaussian_map inputs roi_arg input_size
         sw_batch_size overlap mode sigma_scale padding_mode false roi_weight_map w
       = bind (bind (for_each (0 :: groups)
                       (batch_step predictor p input_size sw_batch_size) acc0)
                    (fun acc => lift (finalize p acc))) ret w
    /\ py_range 0 (Z.min (0 + sw_batch_size) (total_slices p)) 1
       = Ok ((fun i => 0 + i * 1) <$> zrange nb).
Proof.
  intros Hs HB Hpos Hne Hsw Hp.
  pose proof (plan_facts _ _ _ _ _ _ _ _ _ _ _ _ Hs Hp) as facts.
  pose proof (num_win_pos p B C img_ overlap facts Hpos Hne) as Hnw.
  assert (Htot : 0 < total_slices p) by (rewrite (pf_total _ _ _ _ _ facts); nia).
  destruct (groups_arith (total_slices p) sw_batch_size Htot Hsw) as (Hng & _ & _).
  destruct (group_range 0 sw_batch_size (total_slices p) ltac:(lia) Hsw)
    as (Hrange & Hnil & Hall).
  set (nb := Z.min (0 + sw_batch_size) (total_slices p) - 0) in *.
  destruct (extract_ok p B C img_ overlap facts Hpos Hne _ Hnil) as (us & Hex & _).
  { eapply Forall_impl; [exact Hall|]. simpl. intros idx Hidx. lia. }
  rewrite length_fmap, zrange_length, Z2Nat.id in Hex by lia.
  exists nb, us.
  exists ((fun i => 0 + i * sw_batch_size)
            <$> (Z.of_nat <$> seq 1 (Z.to_nat ((total_slices p - 0 + sw_batch_size - 1)
                                                / sw_batch_size) - 1))).
  split; [lia|]. split; [exact Hex|]. split; [|exact Hrange].
  unfold sliding_window_inference. unfold bind at 1, lift at 1. rewrite Hp.
  unfold run_batches. unfold bind at 2, lift at 1.
  rewrite py_range_step by exact Hsw. rewrite zrange_pos by lia.
  cbn [fmap list_fmap]. unfold bind.
  destruct (for_each _ _ acc0 w) as [[acc|e] w']; [|reflexivity].
  destruct (lift (finalize p acc) w') as [[out|e] w'']; reflexivity.
Qed.

Lemma first_batch_refused {PS} (predictor : PS -> list Z -> Res PredOut * PS) gaussian_map
    inputs roi_arg input_size sw_batch_size overlap mode sigma_scale padding_mode
    roi_weight_map (w : World PS) (p : Plan) (B C : Z) (img_ : list Z) (e : PyError) :
  shape inputs = B :: C :: img_ -> 0 < B -> Forall (fun d => 0 < d) img_ ->
  img_ <> [] -> 0 < sw_batch_size ->
  plan gaussian_map inputs roi_arg overlap mode sigma_scale padding_mode roi_weight_map
    = Ok p ->
  (forall nb, 0 < nb ->
     check_and_resize p input_size (nb :: C :: roi_size p) = Raise e) ->
  sliding_window_inference predictor gaussian_map inputs roi_arg input_size
    sw_batch_size overlap mode sigma_scale padding_mode false roi_weight_map w
  = (Raise e, w).
Proof.
  intros Hs HB Hpos Hne Hsw Hp Hcheck.
  destruct (first_batch predictor gaussian_map inputs roi_arg input_size sw_batch_size
              overlap mode sigma_scale padding_mode roi_weight_map w p B C img_
              Hs HB Hpos Hne Hsw Hp) as (nb & us & groups & Hnb & Hex & -> & Hrange).
  cbn [for_each]. unfold bind at 3. unfold batch_step.
  unfold bind at 3, lift at 1. rewrite Hrange.
  unfold bind at 3, lift at 1. rewrite Hex. cbn [fst snd].
  unfold bind at 3, lift at 1. rewrite (Hcheck nb Hnb). reflexivity.
Qed.

(** X1. An integer [input_size], which the signature admits, is indexed at
    line 116: a call that has a batch of square windows to serve ends there
    in a [TypeError], before the predictor is invoked. *)
Theorem integer_input_size_is_a_type_error {PS}
    (predictor : PS -> list Z -> Res PredOut * PS) gaussian_map inputs roi_arg (n : Z)
    sw_batch_size overlap mode sigma_scale padding_mode roi_weight_map
    (w : World PS) (p : Plan) (B C r : Z) (img_ rest : list Z) :
  shape inputs = B :: C :: img_ -> 0 < B -> Forall (fun d => 0 < d) img_ ->
  0 < sw_batch_size ->
  plan gaussian_map inputs roi_arg overlap mode sigma_scale padding_mode roi_weight_map
    = Ok p ->
  roi_size p = r :: r :: rest ->
  sliding_window_inference predictor gaussian_map inputs roi_arg (Monai.SInt n)
    sw_batch_size overlap mode sigma_scale padding_mode false roi_weight_map w
  = (Raise TypeError, w).
Proof.
  intros Hs HB Hpos Hsw Hp Hroi.
  assert (Hne : img_ <> []).
  { pose proof (plan_facts _ _ _ _ _ _ _ _ _ _ _ _ Hs Hp) as facts.
    pose proof (pf_roi_len _ _ _ _ _ facts) as Hl. rewrite Hroi in Hl.
    destruct img_; [discriminate|discriminate]. }
  eapply first_batch_refused; try eassumption.
  intros nb _. unfold check_and_resize, py_index. rewrite Hroi.
  cbn [lookup list_lookup rbind]. rewrite Z.eqb_refl. reflexivity.
Qed.

Lemma integer_input_size_witness :
  sliding_window_inference same_shape no_gaussian (plain [2; 3; 8; 8]) (Monai.SInt 4)
    (Monai.SInt 4) 4 (1 # 4) Monai.CONSTANT (1 # 8) Torch.PAD_CONSTANT false None
    (initial_world tt)
  = (Raise TypeError, initial_world tt).
Proof.
  assert (Hp : exists p,
             plan no_gaussian (plain [2; 3; 8; 8]) (Monai.SInt 4) (1 # 4) Monai.CONSTANT
               (1 # 8) Torch.PAD_CONSTANT None = Ok p /\ roi_size p = [4; 4]).
  { eexists. split; [vm_compute; reflexivity|reflexivity]. }
  destruct Hp as (p & Hp & Hroi).
  apply (integer_input_size_is_a_type_error same_shape no_gaussian (plain [2; 3; 8; 8])
           (Monai.SInt 4) 4 4 (1 # 4) Monai.CONSTANT (1 # 8) Torch.PAD_CONSTANT None
           (initial_world tt) p 2 3 4 [8; 8] []);
    [reflexivity|lia|repeat constructor|lia|exact Hp|exact Hroi].
Defined.

(** X2. Line 5 binds [tqdm] to the module, and line 100 calls it when
    [progress] is set: a call that is planned and has a non-zero batch size
    ends there in a [TypeError], before the predictor is invoked. *)
Theorem progress_bar_is_a_type_error {PS}
    (predictor : PS -> list Z -> Res PredOut * PS) gaussian_map inputs roi_arg input_size
    sw_batch_size overlap mode sigma_scale padding_mode roi_weight_map
    (w : World PS) (p : Plan) :
  plan gaussian_map inputs roi_arg overlap mode sigma_scale padding_mode roi_weight_map
    = Ok p ->
  sw_batch_size <> 0 ->
  sliding_window_inference predictor gaussian_map inputs roi_arg input_size
    sw_batch_size overlap mode sigma_scale padding_mode true roi_weight_map w
  = (Raise TypeError, w).
Proof.
  intros Hp Hsw. unfold sliding_window_inference, bind at 1, lift at 1. rewrite Hp.
  unfold bind at 1. unfold run_batches, bind at 1, lift at 1. unfold py_range.
  replace (sw_batch_size =? 0) with false by (symmetry; apply Z.eqb_neq; exact Hsw).
  destruct (sw_batch_size <? 0); reflexivity.
Qed.

Lemma progress_bar_witness :
  sliding_window_inference same_shape no_gaussian (plain [2; 3; 8; 8]) (Monai.SSeq [4; 4])
    (Monai.SSeq [4; 4]) 4 (1 # 4) Monai.CONSTANT (1 # 8) Torch.PAD_CONSTANT true None
    (initial_world tt)
  = (Raise TypeError, initial_world tt).
Proof.
  assert (Hp : exists p,
             plan no_gaussian (plain [2; 3; 8; 8]) (Monai.SSeq [4; 4]) (1 # 4)
               Monai.CONSTANT (1 # 8) Torch.PAD_CONSTANT None = Ok p).
  { eexists. vm_compute. reflexivity. }
  destruct Hp as (p & Hp).
  apply (progress_bar_is_a_type_error same_shape no_gaussian (plain [2; 3; 8; 8])
           (Monai.SSeq [4; 4]) (Monai.SSeq [4; 4]) 4 (1 # 4) Monai.CONSTANT (1 # 8)
           Torch.PAD_CONSTANT None (initial_world tt) p Hp).
  lia.
Defined.

Lemma zrange_nonpos (n : Z) : n <= 0 -> zrange n = [].
Proof. intros H. unfold zrange. replace (Z.to_nat n) with 0%nat by lia. reflexivity. Qed.

(** The groups of line 100 when there is nothing to group. *)
Lemma py_range_empty (total sw : Z) :
  0 <= total -> sw <> 0 -> (sw < 0 \/ total = 0) -> py_range 0 total sw = Ok [].
Proof.
  intros Ht Hsw Hcase. unfold py_range.
  replace (sw =? 0) with false by (symmetry; apply Z.eqb_neq; exact Hsw).
  destruct (sw <? 0) eqn:E; [apply Z.ltb_lt in E|apply Z.ltb_ge in E].
  - rewrite zrange_nonpos; [reflexivity|].
    destruct (Z_lt_le_dec (0 - total + - sw - 1) 0) as [Hneg|Hnn].
    + pose proof (Z.div_lt_upper_bound (0 - total + - sw - 1) (- sw) 0). lia.
    + rewrite Z.div_small by lia. lia.
  - rewrite zrange_nonpos; [reflexivity|].
    assert (total = 0) by lia. subst total. rewrite Z.div_small by lia. lia.
Qed.

(** X3. A batch size that is not positive, or an empty batch of images,
    leaves the loop of line 100 without work: a zero [sw_batch_size] is the
    [ValueError] of [range], and otherwise no window is extracted, the
    predictor is not invoked, and line 253 indexes an empty tuple. *)
Theorem no_work_no_output {PS}
    (predictor : PS -> list Z -> Res PredOut * PS) gaussian_map inputs roi_arg input_size
    sw_batch_size overlap mode sigma_scale padding_mode roi_weight_map
    (w : World PS) (p : Plan) :
  plan gaussian_map inputs roi_arg overlap mode sigma_scale padding_mode roi_weight_map
    = Ok p ->
  0 <= batch_size p -> (sw_batch_size <= 0 \/ batch_size p = 0) ->
  sliding_window_inference predictor gaussian_map inputs roi_arg input_size
    sw_batch_size overlap mode sigma_scale padding_mode false roi_weight_map w
  = (Raise (if sw_batch_size =? 0 then ValueError else IndexError), w).
Proof.
  intros Hp HB Hcase.
  assert (Htot : total_slices p = num_win p * batch_size p
                 /\ num_win p = Z.of_nat (length (slices p))).
  { destruct (shape inputs) as [|b [|c img_]] eqn:Hs.
    - unfold plan in Hp. rewrite Hs in Hp.
      destruct (Qlt_le_dec overlap 0); [discriminate|].
      destruct (Qlt_le_dec overlap 1); discriminate.
    - unfold plan in Hp. rewrite Hs in Hp.
      destruct (Qlt_le_dec overlap 0); [discriminate|].
      destruct (Qlt_le_dec overlap 1); discriminate.
    - pose proof (plan_facts _ _ _ _ _ _ _ _ _ _ _ _ Hs Hp) as facts.
      rewrite (pf_total _ _ _ _ _ facts), (pf_batch _ _ _ _ _ facts).
      split; [reflexivity|apply (pf_num_win _ _ _ _ _ facts)]. }
  destruct Htot as [Htot Hnw].
  unfold sliding_window_inference, bind at 1, lift at 1. rewrite Hp.
  unfold bind at 1. unfold run_batches, bind at 1, lift at 1.
  destruct (sw_batch_size =? 0) eqn:E; [apply Z.eqb_eq in E|apply Z.eqb_neq in E].
  - subst sw_batch_size. reflexivity.
  - rewrite py_range_empty; [reflexivity|nia|exact E|].
    destruct Hcase as [Hsw|HB0]; [left; lia|right; rewrite Htot, HB0; lia].
Qed.

Lemma no_work_witness :
  sliding_window_inference same_shape no_gaussian (plain [2; 3; 8; 8]) (Monai.SSeq [4; 4])
    (Monai.SSeq [4; 4]) (-1) (1 # 4) Monai.CONSTANT (1 # 8) Torch.PAD_CONSTANT false None
    (initial_world tt)
  = (Raise IndexError, initial_world tt).
Proof.
  assert (Hp : exists p,
             plan no_gaussian (plain [2; 3; 8; 8]) (Monai.SSeq [4; 4]) (1 # 4)
               Monai.CONSTANT (1 # 8) Torch.PAD_CONSTANT None = Ok p
             /\ batch_size p = 2).
  { eexists. split; [vm_compute; reflexivity|reflexivity]. }
  destruct Hp as (p & Hp & HB).
  apply (no_work_no_output same_shape no_gaussian (plain [2; 3; 8; 8])
           (Monai.SSeq [4; 4]) (Monai.SSeq [4; 4]) (-1) (1 # 4) Monai.CONSTANT (1 # 8)
           Torch.PAD_CONSTANT None (initial_world tt) p Hp); [rewrite HB; lia|left; lia].
Defined.

(** X4. Resampling is bicubic, which PyTorch offers for 4-D tensors only: a
    call on a volume whose windows are not of the network's size on the
    first two axes ends at line 117, before the predictor is invoked. *)
Theorem volumes_are_not_resampled {PS}
    (predictor : PS -> list Z -> Res PredOut * PS) gaussian_map inputs roi_arg
    (input_size : list Z) sw_batch_size overlap mode sigma_scale padding_mode
    roi_weight_map (w : World PS) (p : Plan) (B C r i0 i1 : Z) (img_ rest : list Z) :
  shape inputs = B :: C :: img_ -> length img_ = 3%nat ->
  0 < B -> Forall (fun d => 0 < d) img_ -> 0 < sw_batch_size ->
  plan gaussian_map inputs roi_arg overlap mode sigma_scale padding_mode roi_weight_map
    = Ok p ->
  roi_size p = r :: r :: rest ->
  input_size !! 0%nat = Some i0 -> input_size !! 1%nat = Some i1 -> (i0, i1) <> (r, r) ->
  sliding_window_inference predictor gaussian_map inputs roi_arg (Monai.SSeq input_size)
    sw_batch_size overlap mode sigma_scale padding_mode false roi_weight_map w
  = (Raise (if (length input_size =? 3)%nat then NotImplementedError else ValueError), w).
Proof.
  intros Hs Hlen HB Hpos Hsw Hp Hroi H0 H1 Hne.
  pose proof (plan_facts _ _ _ _ _ _ _ _ _ _ _ _ Hs Hp) as facts.
  pose proof (pf_roi_len _ _ _ _ _ facts) as Hl. rewrite Hroi, Hlen in Hl.
  eapply first_batch_refused; try eassumption.
  { destruct img_; [discriminate|discriminate]. }
  intros nb _. unfold check_and_resize, py_index. rewrite Hroi, H0, H1.
  cbn [lookup list_lookup rbind]. rewrite Z.eqb_refl. cbn [negb].
  assert (Hdiff : negb (r =? i1) || negb (r =? i0) = true).
  { destruct (r =? i1) eqn:E1; [|reflexivity]. destruct (r =? i0) eqn:E0; [|reflexivity].
    apply Z.eqb_eq in E0, E1. subst. congruence. }
  rewrite Hdiff. unfold Torch.interpolate_bicubic. cbn [length] in *.
  injection Hl as Hl. rewrite Hl.
  destruct (length input_size =? 3)%nat eqn:E;
    [apply Nat.eqb_eq in E|apply Nat.eqb_neq in E].
  - rewrite E. reflexivity.
  - replace (Z.of_nat (length input_size) =? Z.of_nat 5 - 2) with false
      by (symmetry; apply Z.eqb_neq; lia).
    reflexivity.
Qed.

Lemma volumes_witness :
  sliding_window_inference same_shape no_gaussian (plain [1; 1; 8; 8; 8])
    (Monai.SSeq [4; 4; 4]) (Monai.SSeq [8; 8; 8]) 4 (1 # 4) Monai.CONSTANT (1 # 8)
    Torch.PAD_CONSTANT false None (initial_world tt)
  = (Raise NotImplementedError, initial_world tt).
Proof.
  assert (Hp : exists p,
             plan no_gaussian (plain [1; 1; 8; 8; 8]) (Monai.SSeq [4; 4; 4]) (1 # 4)
               Monai.CONSTANT (1 # 8) Torch.PAD_CONSTANT None = Ok p
             /\ roi_size p = [4; 4; 4]).
  { eexists. split; [vm_compute; reflexivity|reflexivity]. }
  destruct Hp as (p & Hp & Hroi).
  apply (volumes_are_not_resampled same_shape no_gaussian (plain [1; 1; 8; 8; 8])
           (Monai.SSeq [4; 4; 4]) [8; 8; 8] 4 (1 # 4) Monai.CONSTANT (1 # 8)
           Torch.PAD_CONSTANT None (initial_world tt) p 1 1 4 8 8 [8; 8; 8] [4]);
    [reflexivity|reflexivity|lia|repeat constructor|lia|exact Hp|exact Hroi
    |reflexivity|reflexivity|congruence].
Defined.

(** ** The placements of a plan *)

Lemma length_cart (ls : list (list Z)) :
  Z.of_nat (length (cart ls)) = foldr Z.mul 1 ((fun l => Z.of_nat (length l)) <$> ls).
Proof.
  induction ls as [|l ls IH]; [reflexivity|].
  cbn [cart fmap list_fmap foldr]. rewrite <- IH. clear IH.
  induction l as [|x l IHl]; [reflexivity|].
  cbn [flat_map]. rewrite length_app, length_fmap. cbn [length]. lia.
Qed.

Lemma NoDup_cart (ls : list (list Z)) : Forall NoDup ls -> NoDup (cart ls).
Proof.
  induction 1 as [|l ls Hl _ IH]; [apply NoDup_singleton|].
  cbn [cart]. induction Hl as [|x l Hx Hl IHl]; [constructor|].
  cbn [flat_map]. apply NoDup_app. split; [|split; [|exact IHl]].
  - apply NoDup_fmap_2; [|exact IH]. intros a b [= ->]. reflexivity.
  - intros y (t & -> & _)%list_elem_of_fmap Hin.
    apply list_elem_of_In, in_flat_map in Hin as (x' & Hx' & Hy).
    apply list_elem_of_In, list_elem_of_fmap in Hy as (t' & [= <- _] & _).
    apply Hx, list_elem_of_In, Hx'.
Qed.

(** The number of placements on one axis. *)
Lemma dim_starts_length (img p I : Z) :
  0 < I <= p -> p <= img ->
  Z.of_nat (length (Monai.dim_starts img p I)) = Monai.ceil_div (img - p) I + 1.
Proof.
  intros HI Hp. destruct (dim_starts_spec img p I HI Hp) as (d0 & Hbelow & Hreach & ->).
  rewrite length_app, length_fmap, length_seq. cbn [length]. unfold Monai.ceil_div.
  assert (Z.of_nat d0 = (img - p + I - 1) / I); [|lia].
  apply (Z.div_unique_pos _ _ _ (img - p + I - 1 - Z.of_nat d0 * I)); [|lia].
  destruct d0 as [|d]; [lia|]. specialize (Hbelow d ltac:(lia)). lia.
Qed.

Lemma dim_starts_NoDup (img p I : Z) :
  0 < I <= p -> p <= img -> NoDup (Monai.dim_starts img p I).
Proof.
  intros HI Hp. destruct (dim_starts_spec img p I HI Hp) as (d0 & Hbelow & _ & ->).
  apply NoDup_app. split; [|split; [|apply NoDup_singleton]].
  - apply NoDup_fmap_2; [|apply NoDup_seq]. intros a b Hab. nia.
  - intros x (d & -> & Hd%elem_of_seq)%list_elem_of_fmap Hin.
    apply list_elem_of_singleton in Hin. specialize (Hbelow d ltac:(lia)). lia.
Qed.

Lemma axis_starts_facts (image roi : list Z) (overlap : Q) :
  Forall2 (fun i r => 0 < r <= i) image roi -> (0 <= overlap)%Q -> (overlap < 1)%Q ->
  Forall NoDup (axis_starts image roi overlap)
  /\ (fun l => Z.of_nat (length l)) <$> axis_starts image roi overlap
     = zip_with (fun i r =>
                   Monai.ceil_div (i - r) (Monai.scan_interval_axis i r overlap) + 1)
                image roi.
Proof.
  intros Hir Ho0 Ho1. unfold axis_starts.
  induction Hir as [|i r image roi Hr _ [IH1 IH2]]; [split; [constructor|reflexivity]|].
  destruct (scan_interval_axis_spec i r overlap ltac:(lia) Ho0 Ho1) as [_ HI].
  cbn [zip_with fmap list_fmap]. split.
  - constructor; [apply dim_starts_NoDup; lia|exact IH1].
  - rewrite dim_starts_length by lia. f_equal. exact IH2.
Qed.

Lemma placement_of_starts_inj (roi x y : list Z) :
  length x = length roi -> length y = length roi ->
  zip_with (fun s r => (s, s + r)) x roi = zip_with (fun s r => (s, s + r)) y roi ->
  x = y.
Proof.
  revert x y. induction roi as [|r roi IH]; intros [|a x] [|b y] Hx Hy H;
    try discriminate; [reflexivity|].
  cbn in H. injection H as -> _ H. f_equal. apply IH; [simpl in *; lia..|exact H].
Qed.

(** X5. The number of windows of one image is, axis by axis, one more than
    the number of strides that the padded extent exceeds the window by,
    rounded up; the work units are that many per image of the batch. *)
Theorem number_of_windows gaussian_map inputs roi_arg overlap mode sigma_scale
    padding_mode roi_weight_map (p : Plan) (B C : Z) (img_ : list Z) :
  shape inputs = B :: C :: img_ -> Forall (fun d => 0 < d) img_ -> img_ <> [] ->
  plan gaussian_map inputs roi_arg overlap mode sigma_scale padding_mode roi_weight_map
    = Ok p ->
  num_win p
  = foldr Z.mul 1
      (zip_with (fun i r =>
                   Monai.ceil_div (i - r) (Monai.scan_interval_axis i r overlap) + 1)
                (image_size p) (roi_size p))
  /\ total_slices p = num_win p * B.
Proof.
  intros Hs Hpos Hne Hp.
  pose proof (plan_facts _ _ _ _ _ _ _ _ _ _ _ _ Hs Hp) as facts.
  destruct (pf_overlap _ _ _ _ _ facts) as [Ho0 Ho1].
  pose proof (image_vs_roi p B C img_ overlap facts Hpos) as Hir.
  split; [|apply (pf_total _ _ _ _ _ facts)].
  rewrite (pf_num_win _ _ _ _ _ facts), (slices_eq p B C img_ overlap facts Hpos Hne).
  rewrite length_fmap, length_cart.
  destruct (axis_starts_facts _ _ overlap Hir Ho0 Ho1) as [_ ->]. reflexivity.
Qed.

(** A 10x7 image under a 4x4 window with an overlap of a quarter: strides of
    3, hence 3 placements down and 2 across. *)
Lemma number_of_windows_witness :
  exists p,
    plan no_gaussian (plain [2; 1; 10; 7]) (Monai.SSeq [4; 4]) (1 # 4) Monai.CONSTANT
      (1 # 8) Torch.PAD_CONSTANT None = Ok p
    /\ num_win p = 6 /\ total_slices p = 12.
Proof.
  assert (Hp : exists p,
             plan no_gaussian (plain [2; 1; 10; 7]) (Monai.SSeq [4; 4]) (1 # 4)
               Monai.CONSTANT (1 # 8) Torch.PAD_CONSTANT None = Ok p
             /\ image_size p = [10; 7] /\ roi_size p = [4; 4]).
  { eexists. split; [vm_compute; reflexivity|split; reflexivity]. }
  destruct Hp as (p & Hp & Hi & Hr). exists p. split; [exact Hp|].
  destruct (number_of_windows no_gaussian (plain [2; 1; 10; 7]) (Monai.SSeq [4; 4])
              (1 # 4) Monai.CONSTANT (1 # 8) Torch.PAD_CONSTANT None p 2 1 [10; 7])
    as [Hn Ht]; [reflexivity|repeat constructor|discriminate|exact Hp|].
  rewrite Ht, Hn, Hi, Hr. split; reflexivity.
Defined.

Lemma zoomed_roi_unit (roi : list Z) (win : list (Z * Z)) :
  Forall2 (fun (se : Z * Z) r => 0 <= se.1 /\ 0 <= se.2 /\ 0 < r) win roi ->
  zoomed_roi win (head_zoom roi roi) = win.
Proof.
  induction 1 as [|[s e] r win roi (Hs & He & Hr) _ IH]; [reflexivity|].
  cbn [fst snd] in *. unfold zoomed_roi, head_zoom in *. cbn [zip_with fst snd].
  rewrite IH, !zoom_bound_div, !Z.div_mul by lia. reflexivity.
Qed.

Lemma valid_window_bounds (image roi : list Z) (win : list (Z * Z)) :
  Forall2 (fun i r => 0 < r <= i) image roi -> valid_window image roi win ->
  Forall2 (fun (se : Z * Z) r => 0 <= se.1 /\ 0 <= se.2 /\ 0 < r) win roi.
Proof.
  unfold valid_window. intros Hir. revert win.
  induction Hir as [|i r image roi Hr _ IH]; intros win Hv; cbn [zip zip_with] in Hv.
  - inversion Hv; subst. constructor.
  - inversion Hv as [|se ir win' zs (H1 & H2 & H3) Hrest]; subst.
    cbn [fst snd] in *. constructor; [lia|apply IH; exact Hrest].
Qed.

(** X6. The placements of a plan are pairwise distinct windows that lie
    inside the padded image, and every location of the padded image lies in
    one of them at least. *)
Theorem placements_tile_the_padded_image gaussian_map inputs roi_arg overlap mode
    sigma_scale padding_mode roi_weight_map (p : Plan) (B C : Z) (img_ : list Z) :
  shape inputs = B :: C :: img_ -> Forall (fun d => 0 < d) img_ -> img_ <> [] ->
  plan gaussian_map inputs roi_arg overlap mode sigma_scale padding_mode roi_weight_map
    = Ok p ->
  NoDup (slices p)
  /\ (forall win, win ∈ slices p -> valid_window (image_size p) (roi_size p) win)
  /\ (forall y, Forall2 (fun y_k i => 0 <= y_k < i) y (image_size p) ->
        exists win, win ∈ slices p /\ in_window y win).
Proof.
  intros Hs Hpos Hne Hp.
  pose proof (plan_facts _ _ _ _ _ _ _ _ _ _ _ _ Hs Hp) as facts.
  destruct (pf_overlap _ _ _ _ _ facts) as [Ho0 Ho1].
  pose proof (image_vs_roi p B C img_ overlap facts Hpos) as Hir.
  pose proof (roi_positive p B C img_ overlap facts Hpos) as Hrpos.
  pose proof (slices_eq p B C img_ overlap facts Hpos Hne) as Heq.
  split; [|split].
  - rewrite Heq. apply NoDup_fmap_2_strong.
    + intros x y Hx Hy. apply elem_of_cart, Forall2_length in Hx, Hy.
      assert (Hl : length (axis_starts (image_size p) (roi_size p) overlap)
                   = length (roi_size p)).
      { unfold axis_starts. rewrite length_zip_with.
        apply Forall2_length in Hir. lia. }
      apply placement_of_starts_inj; lia.
    + apply NoDup_cart. apply (axis_starts_facts _ _ overlap Hir Ho0 Ho1).
  - apply (slices_valid p B C img_ overlap facts Hpos Hne).
  - intros y Hy.
    assert (Hfit : head_fits (roi_size p) (roi_size p)).
    { apply head_fits_intro; [reflexivity|assumption..]. }
    destruct (cover (image_size p) (roi_size p) (roi_size p) overlap y Hir Hfit Ho0 Ho1)
      as (x & Hx & Hin).
    { rewrite buffer_dims_unit by exact Hir. exact Hy. }
    exists (zip_with (fun s r => (s, s + r)) x (roi_size p)). split.
    + rewrite Heq. apply list_elem_of_fmap. exists x. split; [reflexivity|exact Hx].
    + rewrite zoomed_roi_unit in Hin; [exact Hin|].
      apply (valid_window_bounds (image_size p)); [exact Hir|].
      apply (cart_axis_starts_valid _ _ overlap x Hir Ho0 Ho1 Hx).
Qed.

Lemma placements_witness :
  exists p,
    plan no_gaussian (plain [2; 1; 10; 7]) (Monai.SSeq [4; 4]) (1 # 4) Monai.CONSTANT
      (1 # 8) Torch.PAD_CONSTANT None = Ok p
    /\ NoDup (slices p)
    /\ exists win, win ∈ slices p /\ in_window [9; 3] win.
Proof.
  assert (Hp : exists p,
             plan no_gaussian (plain [2; 1; 10; 7]) (Monai.SSeq [4; 4]) (1 # 4)
               Monai.CONSTANT (1 # 8) Torch.PAD_CONSTANT None = Ok p
             /\ image_size p = [10; 7]).
  { eexists. split; [vm_compute; reflexivity|reflexivity]. }
  destruct Hp as (p & Hp & Hi). exists p. split; [exact Hp|].
  destruct (placements_tile_the_padded_image no_gaussian (plain [2; 1; 10; 7])
              (Monai.SSeq [4; 4]) (1 # 4) Monai.CONSTANT (1 # 8) Torch.PAD_CONSTANT None
              p 2 1 [10; 7])
    as (Hnd & _ & Hcov); [reflexivity|repeat constructor|discriminate|exact Hp|].
  split; [exact Hnd|]. apply Hcov. rewrite Hi. repeat constructor; lia.
Defined.

(** ** Work units *)

Lemma zrange_app (a b : Z) :
  0 <= a -> 0 <= b -> zrange (a + b) = zrange a ++ ((fun i => a + i) <$> zrange b).
Proof.
  intros Ha Hb. unfold zrange. rewrite Z2Nat.inj_add, seq_app, fmap_app by lia.
  f_equal. cbn [Nat.add]. rewrite <- list_fmap_compose.
  apply list_eq. intros k. rewrite !list_lookup_fmap.
  destruct (decide (k < Z.to_nat b)%nat) as [Hk|Hk].
  - rewrite !lookup_seq_lt by lia. cbn. f_equal. lia.
  - rewrite !lookup_seq_ge by lia. reflexivity.
Qed.

(** The groups of line 100 and their ranges of line 101, put end to end,
    are the work units in order. *)
Lemma groups_partition (total sw : Z) :
  0 < total -> 0 < sw ->
  exists groups ranges,
    py_range 0 total sw = Ok groups
    /\ Forall2 (fun g r => py_range g (Z.min (g + sw) total) 1 = Ok r /\ r <> [])
               groups ranges
    /\ concat ranges = zrange total.
Proof.
  intros Htot Hsw. destruct (groups_arith total sw Htot Hsw) as (Hng & Hreach & Hbelow).
  set (ng := (total - 0 + sw - 1) / sw) in *.
  set (groups := (fun i => 0 + i * sw) <$> zrange ng).
  set (range_of := fun g => (fun i => g + i * 1) <$> zrange (Z.min (g + sw) total - g)).
  exists groups, (range_of <$> groups). split; [apply py_range_step; exact Hsw|]. split.
  - apply Forall2_fmap_r, Forall_Forall2_diag, Forall_forall.
    intros g (i & -> & Hi%elem_of_zrange)%list_elem_of_fmap.
    specialize (Hbelow i Hi).
    destruct (group_range (0 + i * sw) sw total ltac:(lia) Hsw) as (Hr & Hnil & _).
    split; assumption.
  - assert (Hpre : forall n : nat, (n <= Z.to_nat ng)%nat ->
              concat (take n (range_of <$> groups))
              = zrange (Z.min (Z.of_nat n * sw) total)).
    { induction n as [|n IH]; intros Hn.
      { rewrite Z.min_l by lia. reflexivity. }
      assert (Hg : groups !! n = Some (0 + Z.of_nat n * sw)).
      { subst groups. rewrite list_lookup_fmap, zrange_lookup by lia. reflexivity. }
      erewrite take_S_r by (rewrite list_lookup_fmap, Hg; reflexivity).
      rewrite concat_app, IH by lia. cbn [concat]. rewrite app_nil_r.
      specialize (Hbelow (Z.of_nat n) ltac:(lia)).
      replace (Z.min (Z.of_nat n * sw) total) with (Z.of_nat n * sw) by lia.
      replace (Z.min (Z.of_nat (S n) * sw) total)
        with (Z.of_nat n * sw + (Z.min (0 + Z.of_nat n * sw + sw) total
                                  - (0 + Z.of_nat n * sw))) by lia.
      rewrite zrange_app by lia. f_equal. subst range_of. cbn beta.
      apply list_fmap_ext. intros _ k _. lia. }
    specialize (Hpre (Z.to_nat ng) ltac:(lia)).
    rewrite take_ge in Hpre by (subst groups; rewrite !length_fmap, zrange_length; lia).
    rewrite Hpre. f_equal. lia.
Qed.

(** X7. Every window of every image is served once: the groups of line 100
    and their ranges of line 101, put end to end, are the work units in
    order, and the work unit [b * num_win + j] is the placement [j] of the
    image [b]. *)
Theorem every_window_of_every_image_is_served_once gaussian_map inputs roi_arg overlap
    mode sigma_scale padding_mode roi_weight_map (p : Plan) (B C sw_batch_size : Z)
    (img_ : list Z) :
  shape inputs = B :: C :: img_ -> 0 < B -> Forall (fun d => 0 < d) img_ -> img_ <> [] ->
  0 < sw_batch_size ->
  plan gaussian_map inputs roi_arg overlap mode sigma_scale padding_mode roi_weight_map
    = Ok p ->
  (exists groups ranges,
     py_range 0 (total_slices p) sw_batch_size = Ok groups
     /\ Forall2 (fun g r =>
                   py_range g (Z.min (g + sw_batch_size) (total_slices p)) 1 = Ok r
                   /\ r <> [])
                groups ranges
     /\ concat ranges = zrange (total_slices p))
  /\ (forall (b : Z) (j : nat) win,
        0 <= b < B -> slices p !! j = Some win ->
        b * num_win p + Z.of_nat j ∈ zrange (total_slices p)
        /\ unravel p (b * num_win p + Z.of_nat j) = Ok (b, win)).
Proof.
  intros Hs HB Hpos Hne Hsw Hp.
  pose proof (plan_facts _ _ _ _ _ _ _ _ _ _ _ _ Hs Hp) as facts.
  pose proof (num_win_pos p B C img_ overlap facts Hpos Hne) as Hnw.
  pose proof (pf_total _ _ _ _ _ facts) as Htot.
  split; [apply groups_partition; [nia|exact Hsw]|].
  intros b j win Hb Hj.
  assert (Hjlt : Z.of_nat j < num_win p).
  { rewrite (pf_num_win _ _ _ _ _ facts). apply lookup_lt_Some in Hj. lia. }
  split; [apply elem_of_zrange; nia|].
  unfold unravel. replace (num_win p =? 0) with false by (symmetry; apply Z.eqb_neq; lia).
  replace ((b * num_win p + Z.of_nat j) mod num_win p) with (Z.of_nat j).
  2:{ rewrite Z.add_comm, Z.mod_add, Z.mod_small by lia. reflexivity. }
  replace ((b * num_win p + Z.of_nat j) / num_win p) with b.
  2:{ rewrite Z.add_comm, Z.div_add, Z.div_small by lia. reflexivity. }
  unfold py_index. rewrite Nat2Z.id, Hj. reflexivity.
Qed.

Lemma served_once_witness :
  exists p,
    plan no_gaussian (plain [2; 1; 10; 7]) (Monai.SSeq [4; 4]) (1 # 4) Monai.CONSTANT
      (1 # 8) Torch.PAD_CONSTANT None = Ok p
    /\ unravel p (1 * num_win p + Z.of_nat 5) = Ok (1, [(6, 10); (3, 7)]).
Proof.
  assert (Hp : exists p,
             plan no_gaussian (plain [2; 1; 10; 7]) (Monai.SSeq [4; 4]) (1 # 4)
               Monai.CONSTANT (1 # 8) Torch.PAD_CONSTANT None = Ok p
             /\ slices p !! 5%nat = Some [(6, 10); (3, 7)]).
  { eexists. split; [vm_compute; reflexivity|reflexivity]. }
  destruct Hp as (p & Hp & Hj). exists p. split; [exact Hp|].
  destruct (every_window_of_every_image_is_served_once no_gaussian (plain [2; 1; 10; 7])
              (Monai.SSeq [4; 4]) (1 # 4) Monai.CONSTANT (1 # 8) Torch.PAD_CONSTANT None
              p 2 1 4 [10; 7])
    as [_ Hun]; [reflexivity|lia|repeat constructor|discriminate|lia|exact Hp|].
  apply (Hun 1 5%nat [(6, 10); (3, 7)]); [lia|exact Hj].
Defined.

(** ** The finalizer at other zooms *)






Section FinalizerZoom.

Context (p : Plan) (B C : Z) (img_ : list Z) (overlap : Q).
Hypothesis facts : PlanFacts p B C img_ overlap.
Hypothesis positive : Forall (fun d => 0 < d) img_.



End FinalizerZoom.

(** ** Whole calls by the form of the answers *)

Lemma answer_heads (form : Form) (ks : list string) (heads : list (list Z))
    (out : PredOut) :
  answer_of form ks heads out ->
  heads_of ks out = Some heads /\ (tensor_form form = true -> is_tensor out = true).
Proof.
  destruct form; cbn.
  - intros (t & -> & ->). split; reflexivity.
  - intros ->. split; [reflexivity|discriminate].
  - intros (m & -> & Hk & Hm). cbn. rewrite decide_True by exact Hk.
    split; [exact Hm|discriminate].
Qed.

Lemma answers_as_with {PS} (predictor : PS -> list Z -> Res PredOut * PS) (C : Z)
    (net_size : list Z) (form : Form) (ks : list string) (hs : list (Z * list Z)) :
  answers_as predictor C net_size form ks hs ->
  answers_with predictor C net_size ks hs (tensor_form form).
Proof.
  intros H s nb Hnb. destruct (H s nb Hnb) as (out & s' & Hp & Ha).
  apply answer_heads in Ha as [Hh Ht]. exists out, s'. split; [exact Hp|]. split; assumption.
Qed.



Section Forms.

Context {PS : Type} (predictor : PS -> list Z -> Res PredOut * PS).
Context (p : Plan) (B C : Z) (img_ : list Z) (overlap : Q) (least : Q).
Context (hs : list (Z * list Z)) (ks : list string) (form : Form).
Context (input_size : list Z) (sw : Z) (r : Z) (rest : list Z).
Hypothesis facts : PlanFacts p B C img_ overlap.
Hypothesis positive : Forall (fun d => 0 < d) img_.
Hypothesis rank : (2 <= length img_ <= 3)%nat.
Hypothesis importance_shape : wshape (importance_map p) = roi_size p.
Hypothesis least_pos : (0 < least)%Q.
Hypothesis importance_floor : forall x, (least <= wval (importance_map p) x)%Q.
Hypothesis heads_fit : Forall (fun h => head_fits (roi_size p) h.2) hs.
Hypothesis batch_pos : 0 < B.
Hypothesis sw_pos : 0 < sw.
Hypothesis square : roi_size p = r :: r :: rest.
Hypothesis same0 : input_size !! 0%nat = Some r.
Hypothesis same1 : input_size !! 1%nat = Some r.
Hypothesis answers : answers_as predictor C (roi_size p) form ks hs.

Let total := total_slices p.





End Forms.








(** ** Resampling to the network's size *)





(** ** Padding and weights of a plan *)

Lemma lookup_pad_pairs_after (l : list (Z * Z)) (sp : nat) (r s : Z) :
  l !! sp = Some (r, s) ->
  flat_map (fun '(r, s) => pad_pair r s) l !! (sp * 2 + 1)%nat
  = Some (Z.max (r - s) 0 - Z.max (r - s) 0 / 2).
Proof.
  revert sp. induction l as [|[r' s'] l IH]; intros sp Hl; [discriminate|].
  destruct sp as [|sp]; simpl in *.
  - injection Hl as -> ->. reflexivity.
  - apply IH. assumption.
Qed.

(** X11. An image that is smaller than the window on an axis is padded there
    to the window's extent, half of the difference before it and the rest,
    which is the same or one more, after it; the other axes are not padded.
    The pairs of [pad_size] run from the last axis to the first. *)
Theorem padding_is_centred gaussian_map inputs roi_arg overlap mode sigma_scale
    padding_mode roi_weight_map (p : Plan) (B C : Z) (img_ : list Z) :
  shape inputs = B :: C :: img_ ->
  plan gaussian_map inputs roi_arg overlap mode sigma_scale padding_mode roi_weight_map
    = Ok p ->
  shape (padded p) = B :: C :: zip_with Z.max img_ (roi_size p)
  /\ length (pad_size p) = (2 * length img_)%nat
  /\ forall (k : nat) (i_ r : Z),
       img_ !! k = Some i_ -> roi_size p !! k = Some r ->
       exists before after,
         pad_size p !! (2 * (length img_ - 1 - k))%nat = Some before
         /\ pad_size p !! (2 * (length img_ - 1 - k) + 1)%nat = Some after
         /\ i_ + before + after = Z.max i_ r
         /\ before <= after <= before + 1.
Proof.
  intros Hs Hp.
  pose proof (plan_facts _ _ _ _ _ _ _ _ _ _ _ _ Hs Hp) as facts.
  pose proof (pf_roi_len _ _ _ _ _ facts) as Hrl.
  split; [|split].
  - rewrite (pf_padded _ _ _ _ _ facts), (pf_image _ _ _ _ _ facts). reflexivity.
  - rewrite (pf_pad _ _ _ _ _ facts). unfold compute_pad_size.
    assert (Hgen : forall l : list (Z * Z),
              length (flat_map (fun '(r, s) => pad_pair r s) l) = (2 * length l)%nat).
    { induction l as [|[a b] l IH]; [reflexivity|]. cbn [flat_map pad_pair].
      rewrite length_app, IH. simpl. lia. }
    rewrite Hgen, length_reverse, length_zip. lia.
  - intros k i_ r Hi Hr.
    assert (Hk : (k < length img_)%nat) by (apply lookup_lt_Some in Hi; exact Hi).
    assert (Hz : reverse (zip (roi_size p) img_) !! (length img_ - 1 - k)%nat
                 = Some (r, i_)).
    { rewrite reverse_lookup by (rewrite length_zip; lia).
      rewrite length_zip, Hrl, Nat.min_id.
      replace (length img_ - S (length img_ - 1 - k))%nat with k by lia.
      rewrite lookup_zip_with, Hr. cbn. rewrite Hi. reflexivity. }
    exists (Z.max (r - i_) 0 / 2), (Z.max (r - i_) 0 - Z.max (r - i_) 0 / 2).
    rewrite (pf_pad _ _ _ _ _ facts). unfold compute_pad_size.
    rewrite (Nat.mul_comm 2).
    split; [apply lookup_pad_pairs; exact Hz|].
    split; [apply lookup_pad_pairs_after; exact Hz|].
    pose proof (Z.div_mod (Z.max (r - i_) 0) 2 ltac:(lia)).
    pose proof (Z.mod_pos_bound (Z.max (r - i_) 0) 2 ltac:(lia)). lia.
Qed.

(** A 3x10 image under a 6x4 window: one row before and two rows after. *)
Lemma padding_witness :
  exists p,
    plan no_gaussian (plain [1; 1; 3; 10]) (Monai.SSeq [6; 4]) (1 # 4) Monai.CONSTANT
      (1 # 8) Torch.PAD_CONSTANT None = Ok p
    /\ shape (padded p) = [1; 1; 6; 10] /\ pad_size p = [0; 0; 1; 2].
Proof.
  assert (Hp : exists p,
             plan no_gaussian (plain [1; 1; 3; 10]) (Monai.SSeq [6; 4]) (1 # 4)
               Monai.CONSTANT (1 # 8) Torch.PAD_CONSTANT None = Ok p
             /\ roi_size p = [6; 4] /\ pad_size p = [0; 0; 1; 2]).
  { eexists. split; [vm_compute; reflexivity|split; reflexivity]. }
  destruct Hp as (p & Hp & Hroi & Hpad). exists p. split; [exact Hp|].
  destruct (padding_is_centred no_gaussian (plain [1; 1; 3; 10]) (Monai.SSeq [6; 4])
              (1 # 4) Monai.CONSTANT (1 # 8) Torch.PAD_CONSTANT None p 1 1 [3; 10]
              eq_refl Hp) as (Hshape & _).
  rewrite Hshape, Hroi. split; [reflexivity|exact Hpad].
Defined.

Lemma Qmin_case (a b : Q) : Qmin a b = a \/ Qmin a b = b.
Proof. unfold Qmin, GenericMinMax.gmin. destruct (a ?= b)%Q; auto. Qed.

Lemma foldr_Qmin (q : Q) (qs : list Q) :
  foldr Qmin q qs ∈ q :: qs /\ Forall (fun y => (foldr Qmin q qs <= y)%Q) (q :: qs).
Proof.
  induction qs as [|a qs [IHin IHle]]; cbn [foldr].
  - split; [left|]. constructor; [apply Qle_refl|constructor].
  - generalize dependent (foldr Qmin q qs). intros least IHin IHle. split.
    + destruct (Qmin_case a least) as [->| ->]; [right; left|].
      apply elem_of_cons in IHin as [->|Hin]; [left|right; right; exact Hin].
    + apply Forall_cons in IHle as [Hq Hqs].
      constructor; [|constructor].
      * eapply Qle_trans; [apply Q.le_min_r|exact Hq].
      * apply Q.le_min_l.
      * eapply Forall_impl; [exact Hqs|]. intros y Hy. cbn in Hy.
        eapply Qle_trans; [apply Q.le_min_r|exact Hy].
Qed.

(** X12. The floor of lines 89-91: a map without any non-zero weight ends
    the planning in a [RuntimeError]; otherwise the shape is kept and every
    weight is raised to at least the least non-zero weight of the map, and
    to at least 0.001. *)
Theorem weights_are_raised_to_the_floor (m : WeightMap) :
  match clamp_importance m with
  | Ok m' =>
      wshape m' = wshape m
      /\ exists x0,
           x0 ∈ indices (wshape m) /\ ~ (wval m x0 == 0)%Q
           /\ (forall x, x ∈ indices (wshape m) -> ~ (wval m x == 0)%Q ->
                         (wval m x0 <= wval m x)%Q)
           /\ forall x, wval m' x = Qmax (wval m x) (Qmax (wval m x0) (1 # 1000))
  | Raise e =>
      e = RuntimeError /\ forall x, x ∈ indices (wshape m) -> (wval m x == 0)%Q
  end.
Proof.
  unfold clamp_importance, min_nonzero_entry.
  destruct (filter _ _) as [|q qs] eqn:Hf; cbn [rbind].
  - split; [reflexivity|]. intros x Hx.
    assert (Hin : wval m x ∈ wval m <$> indices (wshape m)).
    { apply list_elem_of_fmap. exists x. split; [reflexivity|exact Hx]. }
    destruct (Qeq_bool (wval m x) 0) eqn:E; [apply Qeq_bool_iff; exact E|].
    assert (Hfil : wval m x ∈ filter (fun q => negb (Qeq_bool q 0))
                                     (wval m <$> indices (wshape m))).
    { apply list_elem_of_filter. split; [rewrite E; exact I|exact Hin]. }
    rewrite Hf in Hfil. inversion Hfil.
  - split; [reflexivity|].
    destruct (foldr_Qmin q qs) as [Hin Hle].
    rewrite <- Hf in Hin, Hle.
    apply list_elem_of_filter in Hin as [Hnz Hin].
    apply list_elem_of_fmap in Hin as (x0 & Hx0 & Hin).
    rewrite Hx0 in Hnz, Hle.
    exists x0. split; [exact Hin|]. split.
    { intros Hz. apply Qeq_bool_iff in Hz. rewrite Hz in Hnz. exact Hnz. }
    split.
    + intros x Hx Hxnz.
      apply (proj1 (Forall_forall _ _) Hle (wval m x)).
      apply list_elem_of_filter. split.
      * destruct (Qeq_bool (wval m x) 0) eqn:E; [|exact I].
        apply Qeq_bool_iff in E. contradiction.
      * apply list_elem_of_fmap. exists x. split; [reflexivity|exact Hx].
    + intros x. cbn. rewrite Hx0. reflexivity.
Qed.

(** ** Warnings *)

Lemma unit_scale_integer (x o : Z) :
  o <> 0 -> is_integer (inject_Z x * (inject_Z o / inject_Z o)) = true.
Proof.
  intros Ho. unfold is_integer. apply Z.eqb_eq.
  destruct o as [|q|q]; [contradiction|..];
    unfold Qdiv, Qmult, Qinv, inject_Z; cbn [Qnum Qden].
  - rewrite Z.mul_1_r, !Pos.mul_1_l. apply Z.rem_mul. discriminate.
  - change (Z.neg q * -1) with (Z.pos (q * 1)).
    rewrite Pos.mul_1_r, !Pos.mul_1_l. apply Z.rem_mul. discriminate.
Qed.

Lemma zip_same_right {A} (a : list A) (d : list Z) :
  Forall (fun t : A * Z * Z => t.1.2 = t.2) (zip (zip a d) d).
Proof.
  revert a. induction d as [|x d IH]; intros [|y a]; try constructor.
  - reflexivity.
  - apply IH.
Qed.

Section Quiet.

Context {PS : Type}.

(** At a zoom of one on every axis, the scales are computed without a
    warning. *)
Lemma zoom_scales_quiet (ss : nat) (l : list (Z * Z * Z)) :
  Forall (fun t => t.1.2 = t.2) l ->
  forall (axis : nat) (w : World PS),
    exists r, zoom_scales ss axis l w = (r, w)
              /\ forall zs, r = Ok zs ->
                   Forall (fun z => exists o, o <> 0 /\ z = (inject_Z o / inject_Z o)%Q) zs.
Proof.
  induction 1 as [|[[i o] n] l Ho _ IH]; intros axis w; cbn [zoom_scales].
  - exists (Ok []). split; [reflexivity|]. intros zs [= <-]. constructor.
  - cbn [fst snd] in Ho. subst n. unfold bind at 1, lift at 1, py_div.
    destruct (o =? 0) eqn:E; [apply Z.eqb_eq in E|apply Z.eqb_neq in E].
    + exists (Raise ZeroDivisionError). split; [reflexivity|discriminate].
    + rewrite (unit_scale_integer i o E). unfold bind at 1, ret at 1. unfold bind at 1.
      destruct (IH (S axis) w) as (r & -> & Hr). destruct r as [zs|e].
      * exists (Ok ((inject_Z o / inject_Z o)%Q :: zs)). split; [reflexivity|].
        intros zs' [= <-]. constructor; [exists o; split; [exact E|reflexivity]|].
        apply Hr. reflexivity.
      * exists (Raise e). split; [reflexivity|discriminate].
Qed.

Lemma zoom_roi_quiet (ss : nat) (zoom_scale : list Q) (win : list (Z * Z)) :
  Forall (fun z => exists o, o <> 0 /\ z = (inject_Z o / inject_Z o)%Q) zoom_scale ->
  forall (axis : nat) (w : World PS), (zoom_roi ss axis win zoom_scale w).2 = w.
Proof.
  intros Hz. induction win as [|[start stop] win IH]; intros axis w; cbn [zoom_roi].
  - reflexivity.
  - unfold bind at 1, lift at 1, py_index.
    destruct (zoom_scale !! (axis - 2)%nat) as [z|] eqn:Hl; [|reflexivity].
    destruct (proj1 (Forall_lookup _ _) Hz _ _ Hl) as (o & Ho & ->).
    rewrite !unit_scale_integer by exact Ho. cbn [negb orb].
    unfold bind at 1, ret at 1. unfold bind at 1.
    specialize (IH (S axis) w). destruct (zoom_roi ss (S axis) win _ w) as [[zs|e] w'].
    + cbn in IH. subst w'. reflexivity.
    + exact IH.
Qed.

Lemma for_each_quiet {A St} (body : A -> St -> M PS St) (l : list A) :
  (forall a, a ∈ l -> forall s w, (body a s w).2 = w) ->
  forall s w, (for_each l body s w).2 = w.
Proof.
  induction l as [|a l IH]; intros Hb s w; [reflexivity|]. cbn [for_each].
  unfold bind. pose proof (Hb a ltac:(left) s w) as Ha.
  destruct (body a s w) as [[s'|e] w']; cbn in Ha; subst w'; [|reflexivity].
  apply IH. intros a' Ha' s0 w0. apply Hb. right. exact Ha'.
Qed.

Lemma accumulate_window_quiet (p : Plan) (g : Z) (ss : nat) (seg_prob : list Z)
    (zoom_scale : list Q) unit_ (acc : Acc) (w : World PS) :
  Forall (fun z => exists o, o <> 0 /\ z = (inject_Z o / inject_Z o)%Q) zoom_scale ->
  (accumulate_window p g ss seg_prob zoom_scale unit_ acc w).2 = w.
Proof.
  intros Hz. destruct unit_ as [idx original_idx]. unfold accumulate_window.
  unfold bind at 1. pose proof (zoom_roi_quiet ss zoom_scale original_idx.2 Hz 2 w) as Hq.
  destruct (zoom_roi ss 2 original_idx.2 zoom_scale w) as [[zoomed|e] w'];
    cbn in Hq; subst w'; [|reflexivity].
  unfold bind, lift, ret.
  destruct (MonaiResize.resize_nearest _ _); [|reflexivity].
  destruct (py_index (output_image_list acc) ss); [|reflexivity].
  destruct (add_output _ _ _ _ _); [|reflexivity].
  destruct (py_index (count_map_list acc) ss); [|reflexivity].
  destruct (add_weights _ _ _); reflexivity.
Qed.

Lemma process_head_quiet (p : Plan) (g : Z) (slice_range : list Z) us
    (window_data : list Z) (ss : nat) (seg_prob : list Z) (acc : Acc) (w : World PS) :
  drop 2 seg_prob = drop 2 window_data ->
  (process_head p g slice_range us window_data (ss, seg_prob) acc w).2 = w.
Proof.
  intros Hd. unfold process_head. rewrite Hd. unfold bind at 1.
  destruct (zoom_scales_quiet ss _ (zip_same_right (image_size p) (drop 2 window_data)) 0 w)
    as (r & -> & Hr).
  destruct r as [zs|e]; [|reflexivity]. specialize (Hr zs eq_refl).
  unfold bind at 1, lift at 1. destruct (init_buffers p ss seg_prob zs acc); [|reflexivity].
  apply for_each_quiet. intros u _ s w0. apply accumulate_window_quiet. exact Hr.
Qed.

End Quiet.

Lemma interpolate_shape (s size t : list Z) :
  Torch.interpolate_bicubic s size = Ok t -> drop 2 t = size.
Proof.
  unfold Torch.interpolate_bicubic.
  destruct (negb (Z.of_nat (length size) =? Z.of_nat (length s) - 2)); [discriminate|].
  destruct (length s =? 4)%nat eqn:E; [apply Nat.eqb_eq in E|discriminate].
  cbn [negb]. destruct (_ && _); [|discriminate]. intros [= <-].
  do 4 (destruct s as [|? s]; try discriminate). reflexivity.
Qed.

Lemma resized_like (p : Plan) input_size (net_in : list Z) (out out' : PredOut)
    (wd' : list Z) :
  sized_like net_in out ->
  resize_back p input_size out net_in = Ok (out', wd') ->
  sized_like wd' out'.
Proof.
  intros Hlike. unfold resize_back. destruct input_size as [n|isz]; [discriminate|].
  destruct (py_index (roi_size p) 0); [|discriminate].
  destruct (py_index isz 0); [|discriminate].
  destruct (py_index (roi_size p) 1); [|discriminate].
  destruct (py_index isz 1); [|discriminate]. cbn [rbind].
  destruct (_ || _).
  - destruct out as [t| |]; try discriminate.
    destruct (Torch.interpolate_bicubic t (roi_size p)) as [t'|] eqn:Ht; [|discriminate].
    destruct (Torch.interpolate_bicubic net_in (roi_size p)) as [n'|] eqn:Hn;
      [|discriminate].
    cbn [rbind]. intros [= <- <-]. cbn.
    rewrite (interpolate_shape _ _ _ Ht), (interpolate_shape _ _ _ Hn). reflexivity.
  - intros [= <- <-]. exact Hlike.
Qed.

Lemma to_tuple_sized (wd : list Z) (out : PredOut) (acc acc' : Acc)
    (heads : list (list Z)) :
  sized_like wd out -> to_tuple out acc = Ok (heads, acc') ->
  Forall (fun h => drop 2 h = drop 2 wd) heads.
Proof.
  destruct out as [t|m|l]; cbn.
  - intros Ht [= <- _]. constructor; [exact Ht|constructor].
  - intros Hm. destruct (res_map _ _) as [tup|] eqn:Hr; [|discriminate]. cbn.
    intros [= <- _]. eapply res_map_Forall; [|exact Hr].
    intros k t Hk. cbn in Hk. destruct (m !! k) as [t'|] eqn:Hl; [|discriminate].
    injection Hk as <-. apply (Hm k t' Hl).
  - intros Hl [= <- _]. exact Hl.
Qed.

Lemma batch_step_hushed {PS} (predictor : PS -> list Z -> Res PredOut * PS) (p : Plan)
    input_size (sw g : Z) (acc : Acc) (w : World PS) :
  (forall s t out s', predictor s t = (Ok out, s') -> sized_like t out) ->
  warnings (batch_step predictor p input_size sw g acc w).2 = warnings w.
Proof.
  intros Hlike. unfold batch_step, bind at 1, lift at 1.
  destruct (py_range g _ 1) as [slice_range|]; [|reflexivity].
  unfold bind at 1, lift at 1.
  destruct (extract p slice_range) as [[us wd]|]; [|reflexivity]. cbn [fst snd].
  unfold bind at 1, lift at 1.
  destruct (check_and_resize p input_size wd) as [net_in|]; [|reflexivity].
  unfold bind at 1, call_predictor at 1.
  destruct (predictor (pstate w) net_in) as [[out|e] s'] eqn:Hp; [|reflexivity].
  specialize (Hlike _ _ _ _ Hp).
  unfold bind at 1, lift at 1.
  destruct (resize_back p input_size out net_in) as [[out' wd']|] eqn:Hr; [|reflexivity].
  cbn [fst snd]. pose proof (resized_like _ _ _ _ _ _ Hlike Hr) as Hlike'.
  unfold bind at 1, lift at 1.
  destruct (to_tuple out' acc) as [[heads acc1]|] eqn:Ht; [|reflexivity]. cbn [fst snd].
  pose proof (to_tuple_sized _ _ _ _ _ Hlike' Ht) as Hheads.
  rewrite for_each_quiet; [reflexivity|].
  intros [ss h] Hin s w0. apply process_head_quiet.
  apply elem_of_lookup_imap in Hin as (i & h' & [= -> ->] & Hl).
  apply (proj1 (Forall_lookup _ _) Hheads _ _ Hl).
Qed.

Lemma for_each_hushed {PS A St} (body : A -> St -> M PS St) (l : list A) :
  (forall a s w, warnings (body a s w).2 = warnings w) ->
  forall s w, warnings (for_each l body s w).2 = warnings w.
Proof.
  intros Hb. induction l as [|a l IH]; intros s w; [reflexivity|]. cbn [for_each].
  unfold bind. specialize (Hb a s w).
  destruct (body a s w) as [[s'|e] w']; cbn in Hb; [|exact Hb].
  rewrite IH. exact Hb.
Qed.

(** X13. A predictor whose answers have the spatial size of its input never
    raises the warnings of lines 166 and 199 (a non-integer output shape,
    an output roi range that is not integral): whatever the arguments and
    the outcome of the call, none of them is added. *)
Theorem no_warning_at_the_size_of_the_input {PS}
    (predictor : PS -> list Z -> Res PredOut * PS) gaussian_map inputs roi_arg input_size
    sw_batch_size overlap mode sigma_scale padding_mode progress roi_weight_map
    (w : World PS) :
  (forall s t out s', predictor s t = (Ok out, s') -> sized_like t out) ->
  warnings (sliding_window_inference predictor gaussian_map inputs roi_arg input_size
              sw_batch_size overlap mode sigma_scale padding_mode progress
              roi_weight_map w).2
  = warnings w.
Proof.
  intros Hlike. unfold sliding_window_inference, bind at 1, lift at 1.
  destruct (plan _ _ _ _ _ _ _ _) as [p|]; [|reflexivity].
  unfold bind at 1. unfold run_batches, bind at 1, lift at 1.
  destruct (py_range 0 _ _) as [groups|]; [|reflexivity].
  destruct progress; [reflexivity|].
  pose proof (for_each_hushed (batch_step predictor p input_size sw_batch_size) groups
                (fun g acc w0 => batch_step_hushed predictor p input_size sw_batch_size
                                   g acc w0 Hlike) acc0 w) as Hq.
  destruct (for_each groups _ acc0 w) as [[acc|e] w']; cbn in Hq; [|exact Hq].
  unfold lift. destruct (finalize p acc); exact Hq.
Qed.

Lemma no_warning_witness :
  warnings (sliding_window_inference same_shape no_gaussian (plain [1; 1; 10; 7])
              (Monai.SSeq [4; 4]) (Monai.SSeq [8; 8]) 4 (3 # 10) Monai.CONSTANT (1 # 8)
              Torch.PAD_CONSTANT false None (initial_world tt)).2
  = [].
Proof.
  apply (no_warning_at_the_size_of_the_input same_shape no_gaussian (plain [1; 1; 10; 7])
           (Monai.SSeq [4; 4]) (Monai.SSeq [8; 8]) 4 (3 # 10) Monai.CONSTANT (1 # 8)
           Torch.PAD_CONSTANT false None (initial_world tt)).
  intros s t out s' [= <- _]. reflexivity.
Defined.

(** ** Planning in constant mode *)







(** ** The inferer class *)


Lemma compute_importance_map_shape gm (patch_size : list Z) mode sig m :
  compute_importance_map gm patch_size mode sig = Ok m -> wshape m = patch_size.
Proof.
  unfold compute_importance_map. destruct mode.
  - intros [= <-]. reflexivity.
  - destruct (gm patch_size sig); [|discriminate]. intros [= <-]. reflexivity.
Qed.

(** What the constructor leaves in the object. *)
Lemma init_fields gm roi_arg input_size sw overlap mode sig pm swd dev progress cache
    thresh (s : MySlidingInferer.self) ws :
  MySlidingInferer.__init__ gm roi_arg input_size sw overlap mode sig pm swd dev progress
    cache thresh = Ok (s, ws) ->
  SlidingWindowInferer.roi_size (MySlidingInferer.super s) = roi_arg
  /\ MySlidingInferer.input_size s
     = match input_size with None => roi_arg | Some given => given end
  /\ SlidingWindowInferer.sw_batch_size (MySlidingInferer.super s) = sw
  /\ SlidingWindowInferer.overlap (MySlidingInferer.super s) = overlap
  /\ SlidingWindowInferer.mode (MySlidingInferer.super s) = mode
  /\ SlidingWindowInferer.sigma_scale (MySlidingInferer.super s) = sig
  /\ SlidingWindowInferer.padding_mode (MySlidingInferer.super s) = pm
  /\ SlidingWindowInferer.progress (MySlidingInferer.super s) = progress
  /\ (forall given,
        SlidingWindowInferer.roi_weight_map (MySlidingInferer.super s) = Some given ->
        exists l, roi_arg = Monai.SSeq l /\ Forall (fun d => 0 < d) l /\ wshape given = l)
  /\ (cache = false ->
      SlidingWindowInferer.roi_weight_map (MySlidingInferer.super s) = None /\ ws = []).
Proof.
  unfold MySlidingInferer.__init__, SlidingWindowInferer.__init__.
  match goal with
  | |- rbind (rbind ?x _) _ = _ -> _ => destruct x as [rwm|] eqn:Hrwm; [|discriminate]
  end.
  cbn [rbind fst snd]. intros [= <- <-]. cbn.
  repeat (split; [reflexivity|]). split.
  - intros given ->. destruct cache; [|discriminate].
    destruct roi_arg as [n|l]; [discriminate|]. destruct l as [|a l]; [discriminate|].
    destruct (forallb (Z.ltb 0) (a :: l)) eqn:E; [|discriminate].
    destruct (compute_importance_map gm (a :: l) mode sig) as [m|] eqn:Hm; [|discriminate].
    cbn [rbind] in Hrwm. injection Hrwm as <-.
    exists (a :: l). split; [reflexivity|]. split.
    + apply Forall_forall. intros d Hd. apply list_elem_of_In in Hd.
      apply Z.ltb_lt, (proj1 (forallb_forall _ _) E d Hd).
    + eapply compute_importance_map_shape. eassumption.
  - intros ->. injection Hrwm as <-. split; reflexivity.
Qed.



Lemma interpolate_needs_room (s size : list Z) (a b : Z) (rest : list Z) :
  size = a :: b :: rest -> a <= 0 \/ b <= 0 ->
  exists e, Torch.interpolate_bicubic s size = Raise e.
Proof.
  intros -> Hab. unfold Torch.interpolate_bicubic.
  destruct (negb _); [eexists; reflexivity|].
  destruct (negb _); [eexists; reflexivity|].
  cbn [forallb].
  assert (Hf : (0 <? a) && ((0 <? b) && forallb (Z.ltb 0) rest) = false).
  { destruct Hab as [Ha|Hb].
    - replace (0 <? a) with false by (symmetry; apply Z.ltb_ge; lia). reflexivity.
    - replace (0 <? b) with false by (symmetry; apply Z.ltb_ge; lia).
      apply andb_false_r. }
  rewrite Hf, andb_false_r. eexists. reflexivity.
Qed.

(** X16. An inferer that is built without an [input_size] takes its
    [roi_size] as the network's size, as it was given: with an integer, or
    with a first or second entry that is not positive (which stands for the
    extent of the image), no call on an image without an empty axis returns
    a result or invokes the network. *)
Theorem inferer_without_input_size_needs_a_fixed_window {PS}
    (network : PS -> list Z -> Res PredOut * PS) gaussian_map roi_arg
    sw_batch_size overlap mode sigma_scale padding_mode sw_device device progress
    cache_roi_weight_map cpu_thresh (s : MySlidingInferer.self) ws inputs (w : World PS)
    (B C : Z) (img_ : list Z) :
  MySlidingInferer.__init__ gaussian_map roi_arg None sw_batch_size overlap mode
    sigma_scale padding_mode sw_device device progress cache_roi_weight_map cpu_thresh
    = Ok (s, ws) ->
  shape inputs = B :: C :: img_ -> Forall (fun d => 0 < d) img_ ->
  match roi_arg with
  | Monai.SInt _ => True
  | Monai.SSeq l => exists a b rest, l = a :: b :: rest /\ (a <= 0 \/ b <= 0)
  end ->
  exists e, MySlidingInferer.__call__ network gaussian_map s inputs w = (Raise e, w).
Proof.
  intros Hinit Hs Hpos Hroi.
  destruct (init_fields _ _ _ _ _ _ _ _ _ _ _ _ _ _ _ Hinit) as (F1 & F2 & _).
  unfold MySlidingInferer.__call__. rewrite F1, F2.
  destruct roi_arg as [n|l]; [apply integer_input_size_refused|].
  destruct Hroi as (a & b & rest & -> & Hab).
  apply call_refused. intros p wd Hp _.
  pose proof (plan_facts _ _ _ _ _ _ _ _ _ _ _ _ Hs Hp) as facts.
  pose proof (roi_positive p B C img_ _ facts Hpos) as Hrpos.
  unfold check_and_resize, py_index.
  destruct (wd !! 2%nat) as [w2|]; [|eexists; reflexivity].
  destruct (roi_size p !! 1%nat) as [r1|] eqn:Hr1; [|eexists; reflexivity].
  cbn [rbind]. destruct (w2 =? r1) eqn:E2; [apply Z.eqb_eq in E2|eexists; reflexivity].
  cbn [negb]. destruct (wd !! 3%nat) as [w3|]; [|eexists; reflexivity].
  destruct (roi_size p !! 0%nat) as [r0|] eqn:Hr0; [|eexists; reflexivity].
  cbn [rbind]. destruct (w3 =? r0) eqn:E3; [apply Z.eqb_eq in E3|eexists; reflexivity].
  cbn [negb lookup list_lookup rbind].
  pose proof (proj1 (Forall_lookup _ _) Hrpos _ _ Hr1) as Hp1.
  pose proof (proj1 (Forall_lookup _ _) Hrpos _ _ Hr0) as Hp0. cbn in Hp0, Hp1.
  assert (Hdiff : negb (w2 =? b) || negb (w3 =? a) = true).
  { destruct Hab as [Ha|Hb].
    - replace (w3 =? a) with false by (symmetry; apply Z.eqb_neq; lia).
      apply orb_true_r.
    - replace (w2 =? b) with false by (symmetry; apply Z.eqb_neq; lia). reflexivity. }
  rewrite Hdiff. eapply interpolate_needs_room; [reflexivity|exact Hab].
Qed.

(** A window of the image's extent, asked for with [-1]. *)
Lemma needs_a_fixed_window_witness :
  exists s,
    MySlidingInferer.__init__ no_gaussian (Monai.SSeq [-1; -1]) None 4 (1 # 4)
      Monai.CONSTANT (1 # 8) Torch.PAD_CONSTANT None None false false None = Ok (s, [])
    /\ exists e,
         MySlidingInferer.__call__ same_shape no_gaussian s (plain [1; 1; 8; 8])
           (initial_world tt)
         = (Raise e, initial_world tt).
Proof.
  eexists. split; [reflexivity|].
  eapply (inferer_without_input_size_needs_a_fixed_window same_shape no_gaussian
            (Monai.SSeq [-1; -1]) 4 (1 # 4) Monai.CONSTANT (1 # 8) Torch.PAD_CONSTANT
            None None false false None _ [] (plain [1; 1; 8; 8]) (initial_world tt)
            1 1 [8; 8]);
    [reflexivity|reflexivity|repeat constructor|].
  exists (-1), (-1), []. split; [reflexivity|left; lia].
Defined.

(** ** The inferers of the pipeline *)




(** ** The counts in constant mode *)

Lemma coverage_upto_zero (p : Plan) (o y : list Z) : coverage_upto p o y 0 = 0.
Proof. reflexivity. Qed.









Section Counting.

Context {PS : Type} (p : Plan) (B C : Z) (img_ : list Z) (overlap : Q).
Context (hs : list (Z * list Z)).
Hypothesis facts : PlanFacts p B C img_ overlap.
Hypothesis positive : Forall (fun d => 0 < d) img_.
Hypothesis rank : (2 <= length img_ <= 3)%nat.
Hypothesis importance_shape : wshape (importance_map p) = roi_size p.
Hypothesis ones : forall x, wval (importance_map p) x = 1%Q.
Hypothesis heads_fit : Forall (fun h => head_fits (roi_size p) h.2) hs.

Let image := image_size p.
Let roi := roi_size p.








End Counting.

Section CountingRun.

Context {PS : Type} (predictor : PS -> list Z -> Res PredOut * PS).
Context (p : Plan) (B C : Z) (img_ : list Z) (overlap : Q).
Context (hs : list (Z * list Z)) (ks : list string) (tensor_only : bool).
Context (input_size : Monai.SizeArg) (sw : Z).
Hypothesis facts : PlanFacts p B C img_ overlap.
Hypothesis positive : Forall (fun d => 0 < d) img_.
Hypothesis rank : (2 <= length img_ <= 3)%nat.
Hypothesis importance_shape : wshape (importance_map p) = roi_size p.
Hypothesis ones : forall x, wval (importance_map p) x = 1%Q.
Hypothesis heads_fit : Forall (fun h => head_fits (roi_size p) h.2) hs.
Hypothesis batch_pos : 0 < B.
Hypothesis sw_pos : 0 < sw.
Hypothesis steady_predictor : steady predictor p input_size ks hs tensor_only.

Let total := total_slices p.



End CountingRun.





